(** * Paced run controller: [BrowserUseAgent]

    A shallow embedding of [src/agent/browser_use/browser_use_agent.py]:
    the delay-settings cache, the delay applier, the paced [multi_act]
    and the [run] loop with its finalisation, followed by the properties
    proved about them.

    Modelling conventions.
    - Python dictionaries are [gmap]s.  The dictionary bound to
      [self._delay_settings_cache] is a mutable object: it lives in a heap
      under a location, and the attribute holds that location.  The
      per-category dictionaries are built by a dict display and never
      written to again, so they are stored as values.
    - A Python float is an IEEE 754 binary64 number, and so is Rocq's
      primitive [float]: products, sums and comparisons are those of
      the machine, with their rounding, infinities and NaN.  The builtin
      [float], the generator behind [random.random] and every method of
      the base [Agent] class are not part of this module and are taken
      as an interface ([Base]).
    - A computation returns its outcome, the state it leaves and the
      events it emitted: calls into the base agent, sleeps, log records,
      and a mark at each entry of [_apply_delay].
    - An [await] is a call that may change the agent object before it
      comes back: signal callbacks and other tasks run there, and nowhere
      else.
    - [while self.state.paused] may spin for ever; it is run with fuel
      and reports [Timeout] when the fuel runs out.  Nothing else needs
      fuel.
    - Left out: the timing decorator of [run] and [load_dotenv], which
      none of the properties involves. *)

From Stdlib Require Import Ascii String ZArith Lia Floats.
From stdpp Require Import base option list strings gmap.

Set Warnings "-inexact-float".

Local Open Scope string_scope.
Local Open Scope Z_scope.
Local Open Scope list_scope.

(** ** Python values and helpers *)

Abbreviation loc := positive.  (* identity of a heap object *)

(** The values stored in a per-category dictionary. *)
Inductive PyVal :=
| VBool (b : bool)
| VStr (s : string).

#[global] Instance PyVal_eq_dec : EqDecision PyVal.
Proof. solve_decision. Defined.

(** Truth value of an object in a condition. *)
Definition truthy (v : PyVal) : bool :=
  match v with
  | VBool b => b
  | VStr s => negb (String.eqb s "")
  end.

(** The exceptions the module can meet.  [is_Exception] tells the
    subclasses of [Exception] from the other [BaseException]s. *)
Inductive exn :=
| KeyboardInterrupt
| CancelledError
| ValueError
| KeyError (key : string)
| OtherException (what : string).

Definition is_Exception (e : exn) : bool :=
  match e with
  | KeyboardInterrupt | CancelledError => false
  | ValueError | KeyError _ | OtherException _ => true
  end.

(** [str.lower] on the ASCII range. *)
Definition lower_ascii (c : ascii) : ascii :=
  let n := nat_of_ascii c in
  if ((65 <=? n) && (n <=? 90))%nat then ascii_of_nat (n + 32) else c.

Fixpoint lower (s : string) : string :=
  match s with
  | EmptyString => EmptyString
  | String c r => String (lower_ascii c) (lower r)
  end.

(** Builtin [min] and [max] on two arguments: [min(x, y)] is [y] when
    [y < x] and [x] otherwise, [max(x, y)] is [y] when [y > x] and [x]
    otherwise; a comparison with NaN is false, so the first argument
    stays. *)
Definition py_min (x y : PrimFloat.float) : PrimFloat.float :=
  if PrimFloat.ltb y x then y else x.
Definition py_max (x y : PrimFloat.float) : PrimFloat.float :=
  if PrimFloat.ltb x y then y else x.

(** [random.uniform(a, b)] is [a + (b - a) * random()]. *)
Definition uniform (a b u : PrimFloat.float) : PrimFloat.float :=
  PrimFloat.add a (PrimFloat.mul (PrimFloat.sub b a) u).

(** ** Records of the agent library *)

(** A value of the library this module only passes along. *)
Inductive Blob := blob (tag : string).

Inductive ActionModel := action_model (name : string).

Record ActionResult := {
  error : option string;
  include_in_memory : bool;
  other_fields : option Blob;   (* [None]: every other field at its default *)
}.

Record BrowserStateHistory := {
  url : string;
  title : string;
  tabs : list Blob;
  interacted_element : list Blob;
  screenshot : option Blob;
}.

Record AgentHistory := {
  model_output : option Blob;
  result : list ActionResult;
  state : BrowserStateHistory;
  metadata : option Blob;
}.

(** [self.settings], the fields [run] reads. *)
Record AgentSettings := {
  max_failures : Z;
  validate_output : bool;
  save_playwright_script_path : option string;
  generate_gif : PyVal;               (* [bool | str] *)
}.

(** ** Events and outcomes *)

Inductive Level := DEBUG | INFO | WARNING | ERROR.

(** Log records, kept structured: the constructor stands for the format
    string and its arguments for the values interpolated into it. *)
Inductive LogMsg :=
| CachedDelaySettings (cache : gmap string (gmap string PyVal))
| CacheInvalidated
| NoCachedSettings (delay_type : string)
| ApplyingRandomDelay (delay_type : string) (lo hi chosen : PrimFloat.float)
| RandomDelayNoDelay (delay_type : string)
| InvalidRandomValues (delay_type : string) (min_str max_str : PyVal)
| WaitingFixedDelay (delay_type : string) (seconds minutes : PrimFloat.float)
| InvalidFixedValue (delay_type : string) (minutes_str : PyVal)
| StoppingConsecutiveFailures (limit : Z)
| AgentStopped
| FailedMessage (error_message : string)
| GotKeyboardInterrupt
| SavingScript (path : string)
| FailedToSaveScript (e : exn).

Inductive Res (A : Type) :=
| Ok (a : A)
| Err (e : exn).
Arguments Ok {A} a.
Arguments Err {A} e.

Inductive Event :=
| EvLog (lvl : Level) (m : LogMsg)
| EvApplyDelay (delay_type : string)             (* entry of [_apply_delay] *)
| EvSleep (seconds : PrimFloat.float)                       (* [await asyncio.sleep] *)
| EvSuperMultiAct (actions : list ActionModel) (check : bool)
                  (returned : Res (list ActionResult))
| EvStep (step_number : nat) (max_steps : Z)     (* [await self.step] *)
| EvOnStepStart
| EvOnStepEnd
| EvValidateOutput (valid : Res bool)
| EvLogCompletion
| EvLogAgentRun
| EvRegister
| EvWaitForResume
| EvReset
| EvUnregister
| EvSaveScript (path : string) (sensitive_data_keys : option (list string))
| EvClose
| EvCreateGif (output_path : string).

Inductive Outcome (A : Type) :=
| Ret (a : A)
| Raise (e : exn)
| Timeout.
Arguments Ret {A} a.
Arguments Raise {A} e.
Arguments Timeout {A}.

(** ** The agent object and the interface of its base class *)

Section Agent.

Context {Hidden : Type}.

(** What the base class keeps in [self]: [self.state], [self.settings]
    and the attributes [run] reads; [hidden] is the rest. *)
Record AgentState := {
  paused : bool;
  stopped : bool;
  consecutive_failures : Z;
  history : list AgentHistory;              (* [self.state.history.history] *)
  last_result : list ActionResult;
  settings : AgentSettings;
  initial_actions : list ActionModel;
  sensitive_data : option (list (string * string));
  task : string;
  hidden : Hidden;
}.

Definition set_last_result (r : list ActionResult) (a : AgentState) : AgentState :=
  {| paused := paused a; stopped := stopped a;
     consecutive_failures := consecutive_failures a;
     history := history a; last_result := r; settings := settings a;
     initial_actions := initial_actions a; sensitive_data := sensitive_data a;
     task := task a; hidden := hidden a |}.

Definition history_append (h : AgentHistory) (a : AgentState) : AgentState :=
  {| paused := paused a; stopped := stopped a;
     consecutive_failures := consecutive_failures a;
     history := history a ++ [h]; last_result := last_result a;
     settings := settings a; initial_actions := initial_actions a;
     sensitive_data := sensitive_data a; task := task a; hidden := hidden a |}.

(** A call into code outside this module: it returns or raises, and
    leaves the agent object in some state. *)
Definition Ext (A : Type) : Type := AgentState -> Res A * AgentState.

(** The runtime and the base [Agent] class, as this module uses them. *)
Class Base := {
  pyfloat : string -> option PrimFloat.float;  (* [float(s)], [None] for [ValueError] *)
  random_random : nat -> PrimFloat.float;      (* the n-th draw of [random.random()] *)
  asyncio_sleep : PrimFloat.float -> Ext unit; (* what the process does meanwhile *)
  super_multi_act : list ActionModel -> bool -> Ext (list ActionResult);
  step : nat -> Z -> Ext unit;        (* [self.step(AgentStepInfo(...))] *)
  is_done : AgentState -> bool;       (* [self.state.history.is_done()] *)
  _validate_output : Ext bool;
  log_completion : Ext unit;
  _log_agent_run : Ext unit;
  close : Ext unit;
  register : Ext unit;                (* [signal_handler.register()] *)
  wait_for_resume : Ext unit;
  reset : Ext unit;
  unregister : Ext unit;
  save_as_playwright_script : string -> option (list string) -> Ext unit;
  create_history_gif : string -> Ext unit;
}.

Context `{Base}.

(** The whole state a method of [BrowserUseAgent] runs in. *)
Record World := {
  agent : AgentState;
  environ : gmap string string;                        (* [os.environ] *)
  heap : gmap loc (gmap string (gmap string PyVal));   (* dict objects *)
  delay_settings_cache : loc;          (* [self._delay_settings_cache] *)
  rand_pos : nat;                      (* draws taken from the generator *)
}.

Definition set_agent (a : AgentState) (w : World) : World :=
  {| agent := a; environ := environ w; heap := heap w;
     delay_settings_cache := delay_settings_cache w; rand_pos := rand_pos w |}.

Definition set_environ (env : gmap string string) (w : World) : World :=
  {| agent := agent w; environ := env; heap := heap w;
     delay_settings_cache := delay_settings_cache w; rand_pos := rand_pos w |}.

Definition set_heap (h : gmap loc (gmap string (gmap string PyVal))) (w : World) : World :=
  {| agent := agent w; environ := environ w; heap := h;
     delay_settings_cache := delay_settings_cache w; rand_pos := rand_pos w |}.

(** The dictionary object at a location. *)
Definition deref (w : World) (l : loc) : gmap string (gmap string PyVal) :=
  heap w !!! l.

(** ** Computations *)

Definition M (A : Type) : Type := World -> Outcome A * World * list Event.

Definition ret {A} (a : A) : M A := fun w => (Ret a, w, []).
Definition raise {A} (e : exn) : M A := fun w => (Raise e, w, []).
Definition timeout {A} : M A := fun w => (Timeout, w, []).

Definition bind {A B} (m : M A) (f : A -> M B) : M B :=
  fun w =>
    match m w with
    | (Ret a, w1, t1) =>
        match f a w1 with (o, w2, t2) => (o, w2, t1 ++ t2) end
    | (Raise e, w1, t1) => (Raise e, w1, t1)
    | (Timeout, w1, t1) => (Timeout, w1, t1)
    end.

Notation "x <- m ;; k" := (bind m (fun x => k))
  (at level 100, m at next level, right associativity).
Notation "m ;; k" := (bind m (fun _ => k))
  (at level 100, right associativity).

(** [try: body  except ...: handler e]; [handler] re-raises what it does
    not catch. *)
Definition try_except {A} (body : M A) (handler : exn -> M A) : M A :=
  fun w =>
    match body w with
    | (Raise e, w1, t1) =>
        match handler e w1 with (o, w2, t2) => (o, w2, t1 ++ t2) end
    | r => r
    end.

(** [try: body  finally: fin]: [fin] runs whatever [body] did, unless
    [body] never comes back; an exception of [fin] replaces the outcome. *)
Definition try_finally {A} (body : M A) (fin : M unit) : M A :=
  fun w =>
    match body w with
    | (Timeout, w1, t1) => (Timeout, w1, t1)
    | (o, w1, t1) =>
        match fin w1 with
        | (Ret _, w2, t2) => (o, w2, t1 ++ t2)
        | (Raise e, w2, t2) => (Raise e, w2, t1 ++ t2)
        | (Timeout, w2, t2) => (Timeout, w2, t1 ++ t2)
        end
    end.

Definition emit (e : Event) : M unit := fun w => (Ret tt, w, [e]).
Definition log (lvl : Level) (m : LogMsg) : M unit := emit (EvLog lvl m).
Definition get {A} (f : AgentState -> A) : M A := fun w => (Ret (f (agent w)), w, []).
Definition modify (f : AgentState -> AgentState) : M unit :=
  fun w => (Ret tt, set_agent (f (agent w)) w, []).

(** A call into the base agent; [ev] is the event it leaves, given what
    it returned. *)
Definition call {A} (x : Ext A) (ev : Res A -> Event) : M A :=
  fun w =>
    match x (agent w) with
    | (Ok a, s) => (Ret a, set_agent s w, [ev (Ok a)])
    | (Err e, s) => (Raise e, set_agent s w, [ev (Err e)])
    end.

(** ** The delay-settings cache *)

Definition delay_types : list string := ["STEP"; "ACTION"; "TASK"].

(** [os.environ.get(key, default)] *)
Definition environ_get (w : World) (key default : string) : string :=
  match environ w !! key with
  | Some v => v
  | None => default
  end.

(** [if not s: s = "0.0"] *)
Definition or_zero (s : string) : string :=
  if String.eqb s "" then "0.0" else s.

(** The dictionary built for one category. *)
Definition settings_of (w : World) (delay_type : string) : gmap string PyVal :=
  let enable_random_str := environ_get w (delay_type +:+ "_ENABLE_RANDOM_INTERVAL") "false" in
  let enable_random := String.eqb (lower enable_random_str) "true" in
  let delay_minutes_str := or_zero (environ_get w (delay_type +:+ "_DELAY_MINUTES") "0.0") in
  let min_delay_str := or_zero (environ_get w (delay_type +:+ "_MIN_DELAY_MINUTES") "0.0") in
  let max_delay_str := or_zero (environ_get w (delay_type +:+ "_MAX_DELAY_MINUTES") "0.0") in
  <["enable_random" := VBool enable_random]>
    (<["delay_minutes" := VStr delay_minutes_str]>
      (<["min_delay_minutes" := VStr min_delay_str]>
        (<["max_delay_minutes" := VStr max_delay_str]> ∅))).

(** One turn of the loop of [_cache_delay_settings]:
    [self._delay_settings_cache[delay_type] = {...}], a store into the
    dictionary object the attribute refers to. *)
Definition cache_one (w : World) (delay_type : string) : World :=
  let l := delay_settings_cache w in
  set_heap (<[l := <[delay_type := settings_of w delay_type]> (deref w l)]> (heap w)) w.

Definition _cache_delay_settings : M unit :=
  fun w =>
    let w' := fold_left cache_one delay_types w in
    log DEBUG (CachedDelaySettings (deref w' (delay_settings_cache w'))) w'.

Definition invalidate_delay_cache : M unit :=
  _cache_delay_settings ;;
  log DEBUG CacheInvalidated.

(** [__init__], after [super().__init__] has built the agent object [a]:
    bind the attribute to a new empty dictionary, then fill it. *)
Definition __init__ (a : AgentState) (env : gmap string string)
    (h : gmap loc (gmap string (gmap string PyVal))) : Outcome unit * World * list Event :=
  let l := fresh (dom h) in
  _cache_delay_settings
    {| agent := a; environ := env; heap := <[l := ∅]> h;
       delay_settings_cache := l; rand_pos := 0 |}.

(** ** The delay applier *)

(** [float(v)] for a cached value: [None] stands for [ValueError]; a
    [bool] is an [int]. *)
Definition float_value (v : PyVal) : option PrimFloat.float :=
  match v with
  | VStr s => pyfloat s
  | VBool b => Some (if b then 1%float else 0%float)
  end.

Definition float (v : PyVal) : M PrimFloat.float :=
  match float_value v with
  | Some q => ret q
  | None => raise ValueError
  end.

(** [d[key]] *)
Definition getitem (d : gmap string PyVal) (key : string) : M PyVal :=
  match d !! key with
  | Some v => ret v
  | None => raise (KeyError key)
  end.

Definition sleep (seconds : PrimFloat.float) : M unit :=
  call (asyncio_sleep seconds) (fun _ => EvSleep seconds).

(** [random.uniform(a, b)] *)
Definition random_uniform (a b : PrimFloat.float) : M PrimFloat.float :=
  fun w =>
    (Ret (uniform a b (random_random (rand_pos w))),
     {| agent := agent w; environ := environ w; heap := heap w;
        delay_settings_cache := delay_settings_cache w;
        rand_pos := S (rand_pos w) |},
     []).

(** Re-raise what an [except ValueError] clause does not catch. *)
Definition except_ValueError {A} (handler : M A) (e : exn) : M A :=
  match e with
  | ValueError => handler
  | _ => raise e
  end.

(** [self._delay_settings_cache.get(delay_type)] *)
Definition cache_get (delay_type : string) : M (option (gmap string PyVal)) :=
  fun w => (Ret (deref w (delay_settings_cache w) !! delay_type), w, []).

(** What [_apply_delay] does once [settings] is bound to the dictionary
    it has read from the cache (from [enable_random_delay =
    settings["enable_random"]] on): it reads that dictionary and nothing
    else of the cache. *)
Definition delay_with_settings (delay_type : string) (settings : gmap string PyVal) : M unit :=
  enable_random_delay <- getitem settings "enable_random" ;;
  if truthy enable_random_delay then
    min_delay_minutes_str <- getitem settings "min_delay_minutes" ;;
    max_delay_minutes_str <- getitem settings "max_delay_minutes" ;;
    try_except
      (min_delay_minutes_raw <- float min_delay_minutes_str ;;
       max_delay_minutes_raw <- float max_delay_minutes_str ;;
       let min_seconds_raw := PrimFloat.mul min_delay_minutes_raw 60%float in
       let max_seconds_raw := PrimFloat.mul max_delay_minutes_raw 60%float in
       let actual_min_seconds := py_min min_seconds_raw max_seconds_raw in
       let actual_max_seconds := py_max min_seconds_raw max_seconds_raw in
       if PrimFloat.ltb 0%float actual_max_seconds then
         random_delay_seconds <- random_uniform actual_min_seconds actual_max_seconds ;;
         log INFO (ApplyingRandomDelay delay_type actual_min_seconds
                     actual_max_seconds random_delay_seconds) ;;
         sleep random_delay_seconds
       else
         log INFO (RandomDelayNoDelay delay_type))
      (except_ValueError
         (log WARNING (InvalidRandomValues delay_type
                         min_delay_minutes_str max_delay_minutes_str)))
  else
    delay_minutes_str <- getitem settings "delay_minutes" ;;
    try_except
      (delay_minutes <- float delay_minutes_str ;;
       if PrimFloat.ltb 0%float delay_minutes then
         let delay_seconds := PrimFloat.mul delay_minutes 60%float in
         log INFO (WaitingFixedDelay delay_type delay_seconds delay_minutes) ;;
         sleep delay_seconds
       else ret tt)
      (except_ValueError
         (log WARNING (InvalidFixedValue delay_type delay_minutes_str))).

(** [if not settings] holds for [None] and for a dictionary without
    entries. *)
Definition _apply_delay (delay_type : string) : M unit :=
  emit (EvApplyDelay delay_type) ;;
  cached <- cache_get delay_type ;;
  match cached with
  | None => log WARNING (NoCachedSettings delay_type)
  | Some settings =>
    if bool_decide (settings = ∅) then log WARNING (NoCachedSettings delay_type)
    else delay_with_settings delay_type settings
  end.

(** ** The paced action executor *)

(** [for action in actions: body], threading [results]. *)
Fixpoint multi_act_rest (rest : list ActionModel) (check_for_new_elements : bool)
    (results : list ActionResult) : M (list ActionResult) :=
  match rest with
  | [] => ret results
  | action :: rest' =>
      _apply_delay "ACTION" ;;
      next_results <- call (super_multi_act [action] check_for_new_elements)
                           (EvSuperMultiAct [action] check_for_new_elements) ;;
      multi_act_rest rest' check_for_new_elements (results ++ next_results)
  end.

Definition multi_act (actions : list ActionModel) (check_for_new_elements : bool)
    : M (list ActionResult) :=
  match actions with
  | [] => ret []
  | first :: rest =>
      results <- call (super_multi_act [first] check_for_new_elements)
                      (EvSuperMultiAct [first] check_for_new_elements) ;;
      multi_act_rest rest check_for_new_elements results
  end.

(** ** The run loop *)

(** How one turn of [for step in range(max_steps)] ends. *)
Inductive Ctl := Next | Break.

(** How the [for] statement ends: by [break], or by running out of
    [range(max_steps)], which is when its [else] clause runs. *)
Inductive LoopExit := Broke | Exhausted.

(** [while self.state.paused: await asyncio.sleep(0.2); if stopped: break] *)
Fixpoint pause_wait (fuel : nat) : M unit :=
  is_paused <- get paused ;;
  if is_paused then
    match fuel with
    | O => timeout
    | S fuel' =>
        sleep 0.2%float ;;
        now_stopped <- get stopped ;;
        if now_stopped then ret tt else pause_wait fuel'
    end
  else ret tt.

(** [if hook is not None: await hook(self)] *)
Definition run_hook (hook : option (Ext unit)) (ev : Event) : M unit :=
  match hook with
  | Some f => call f (fun _ => ev)
  | None => ret tt
  end.

(** [if self.state.paused: signal_handler.wait_for_resume(); ...reset()] *)
Definition wait_if_paused : M unit :=
  is_paused <- get paused ;;
  if is_paused then
    call wait_for_resume (fun _ => EvWaitForResume) ;;
    call reset (fun _ => EvReset)
  else ret tt.

Definition run_step (fuel : nat) (max_steps : Z)
    (on_step_start on_step_end : option (Ext unit)) (step_number : nat) : M Ctl :=
  wait_if_paused ;;
  failures <- get consecutive_failures ;;
  limit <- get (fun a => max_failures (settings a)) ;;
  if limit <=? failures then
    log ERROR (StoppingConsecutiveFailures limit) ;;
    ret Break
  else
    is_stopped <- get stopped ;;
    if is_stopped then
      log INFO AgentStopped ;;
      ret Break
    else
      pause_wait fuel ;;
      run_hook on_step_start EvOnStepStart ;;
      _apply_delay "STEP" ;;
      (if Nat.eqb step_number 0 then _apply_delay "TASK" else ret tt) ;;
      call (step step_number max_steps) (fun _ => EvStep step_number max_steps) ;;
      run_hook on_step_end EvOnStepEnd ;;
      done <- get is_done ;;
      if done then
        validate <- get (fun a => validate_output (settings a)) ;;
        if validate && (Z.of_nat step_number <? max_steps - 1) then
          valid <- call _validate_output EvValidateOutput ;;
          if negb valid then ret Next
          else
            call log_completion (fun _ => EvLogCompletion) ;;
            ret Break
        else
          call log_completion (fun _ => EvLogCompletion) ;;
          ret Break
      else ret Next.

Fixpoint run_loop (fuel : nat) (max_steps : Z)
    (on_step_start on_step_end : option (Ext unit)) (steps : list nat) : M LoopExit :=
  match steps with
  | [] => ret Exhausted
  | step_number :: later =>
      ctl <- run_step fuel max_steps on_step_start on_step_end step_number ;;
      match ctl with
      | Break => ret Broke
      | Next => run_loop fuel max_steps on_step_start on_step_end later
      end
  end.

(** [range(max_steps)] *)
Definition range (max_steps : Z) : list nat := seq 0 (Z.to_nat max_steps).

Definition error_message : string := "Failed to complete task in maximum steps".

(** The record appended by the [else] clause of the loop. *)
Definition failure_record : AgentHistory :=
  {| model_output := None;
     result := [ {| error := Some error_message; include_in_memory := true;
                    other_fields := None |} ];
     state := {| url := ""; title := ""; tabs := []; interacted_element := [];
                 screenshot := None |};
     metadata := None |}.

(** Before the loop: [self._log_agent_run()] and the initial actions. *)
Definition run_prelude : M unit :=
  call _log_agent_run (fun _ => EvLogAgentRun) ;;
  actions <- get initial_actions ;;
  match actions with
  | [] => ret tt
  | _ :: _ =>
      results <- multi_act actions false ;;
      modify (set_last_result results)
  end.

(** After the loop: its [else] clause, then [return self.state.history]. *)
Definition run_epilogue (how : LoopExit) : M (list AgentHistory) :=
  (match how with
   | Exhausted =>
       modify (history_append failure_record) ;;
       log INFO (FailedMessage error_message)
   | Broke => ret tt
   end) ;;
  get history.

(** The body of the [try] statement of [run]; its value is the history
    object as [return self.state.history] finds it. *)
Definition run_try (fuel : nat) (max_steps : Z)
    (on_step_start on_step_end : option (Ext unit)) : M (list AgentHistory) :=
  run_prelude ;;
  how <- run_loop fuel max_steps on_step_start on_step_end (range max_steps) ;;
  run_epilogue how.

(** [except KeyboardInterrupt] *)
Definition except_KeyboardInterrupt (e : exn) : M (list AgentHistory) :=
  match e with
  | KeyboardInterrupt =>
      log INFO GotKeyboardInterrupt ;;
      get history
  | _ => raise e
  end.

(** [list(self.sensitive_data.keys()) if self.sensitive_data else None] *)
Definition sensitive_keys (data : option (list (string * string))) : option (list string) :=
  match data with
  | Some ((_ :: _) as d) => Some (map fst d)
  | _ => None
  end.

(** [except Exception as script_gen_err] *)
Definition except_Exception (e : exn) : M unit :=
  if is_Exception e then log ERROR (FailedToSaveScript e) else raise e.

(** [output_path = "agent_history.gif"], replaced by the setting when
    that is a string. *)
Definition output_path_of (gif : PyVal) : string :=
  match gif with
  | VStr s => s
  | VBool _ => "agent_history.gif"
  end.

(** The [finally] clause of [run]. *)
Definition finalize : M unit :=
  call unregister (fun _ => EvUnregister) ;;
  path <- get (fun a => save_playwright_script_path (settings a)) ;;
  (match path with
   | Some p =>
       if String.eqb p "" then ret tt
       else
         log INFO (SavingScript p) ;;
         try_except
           (data <- get sensitive_data ;;
            let keys := sensitive_keys data in
            call (save_as_playwright_script p keys) (fun _ => EvSaveScript p keys))
           except_Exception
   | None => ret tt
   end) ;;
  call close (fun _ => EvClose) ;;
  gif <- get (fun a => generate_gif (settings a)) ;;
  if truthy gif then
    let output_path := output_path_of gif in
    call (create_history_gif output_path) (fun _ => EvCreateGif output_path)
  else ret tt.

(** What the [finally] clause does last: the GIF, when one is asked
    for, for the state [s] in which [close] left the agent. *)
Definition gif_events (s : AgentState) : list Event :=
  if truthy (generate_gif (settings s))
  then [EvCreateGif (output_path_of (generate_gif (settings s)))]
  else [].

Definition run (fuel : nat) (max_steps : Z)
    (on_step_start on_step_end : option (Ext unit)) : M (list AgentHistory) :=
  call register (fun _ => EvRegister) ;;
  try_finally
    (try_except (run_try fuel max_steps on_step_start on_step_end)
                except_KeyboardInterrupt)
    finalize.

(** A per-category dictionary with its four entries. *)
Definition four_keys (d : gmap string PyVal) (enable_random : bool)
    (delay_minutes min_delay_minutes max_delay_minutes : string) : Prop :=
  d !! "enable_random" = Some (VBool enable_random) /\
  d !! "delay_minutes" = Some (VStr delay_minutes) /\
  d !! "min_delay_minutes" = Some (VStr min_delay_minutes) /\
  d !! "max_delay_minutes" = Some (VStr max_delay_minutes).

(** The cache holds, for each of the three categories, the dictionary
    built from the environment as it is now. *)
Definition cache_complete (w : World) : Prop :=
  Forall (fun c => deref w (delay_settings_cache w) !! c = Some (settings_of w c))
         delay_types.

(** A computation that never looks at [os.environ]: under another
    environment it does the same, and leaves that environment in place. *)
Definition env_blind {A} (m : M A) : Prop :=
  forall w env,
    m (set_environ env w)
    = match m w with (o, w1, t) => (o, set_environ env w1, t) end.

(** A computation that never looks at the heap, where the cache lives:
    with other dictionaries there it does the same, and leaves them in
    place. *)
Definition heap_blind {A} (m : M A) : Prop :=
  forall w h,
    m (set_heap h w)
    = match m w with (o, w1, t) => (o, set_heap h w1, t) end.

(** Two worlds with the same dictionaries, environment and cache. *)
Definition same_store (w w1 : World) : Prop :=
  heap w1 = heap w /\ environ w1 = environ w /\
  delay_settings_cache w1 = delay_settings_cache w.

(** A process in which nothing happens to the run: [Inv] is a set of
    agent states, kept by every call the run makes into the agent, in
    which the agent is not paused, not stopped, below the failure limit,
    not done and without initial actions, and in which no call raises. *)
Record steady (Inv : AgentState -> Prop)
    (on_step_start on_step_end : option (Ext unit)) : Prop := {
  steady_flags : forall s, Inv s ->
    paused s = false /\ stopped s = false /\
    consecutive_failures s < max_failures (settings s) /\
    is_done s = false /\ initial_actions s = [];
  steady_sleep : forall q s, Inv s ->
    exists s', asyncio_sleep q s = (Ok tt, s') /\ Inv s';
  steady_step : forall i m s, Inv s ->
    exists s', step i m s = (Ok tt, s') /\ Inv s';
  steady_log_agent_run : forall s, Inv s ->
    exists s', _log_agent_run s = (Ok tt, s') /\ Inv s';
  steady_on_step_start : forall f s, on_step_start = Some f -> Inv s ->
    exists s', f s = (Ok tt, s') /\ Inv s';
  steady_on_step_end : forall f s, on_step_end = Some f -> Inv s ->
    exists s', f s = (Ok tt, s') /\ Inv s';
}.

(** ** Specifications of computations *)

(** [post m w Q]: running [m] from [w] gives an outcome, a state and
    events that satisfy [Q]. *)
Definition post {A} (m : M A) (w : World)
    (Q : Outcome A -> World -> list Event -> Prop) : Prop :=
  match m w with (o, w', t) => Q o w' t end.

End Agent.

Arguments AgentState : clear implicits.
Arguments Base : clear implicits.
Arguments World : clear implicits.

(** Reading the three parts of what a computation gives back. *)
Definition outcome_of {X A} (r : Outcome A * X * list Event) : Outcome A := r.1.1.
Definition world_of {X A} (r : Outcome A * X * list Event) : X := r.1.2.
Definition events_of {X A} (r : Outcome A * X * list Event) : list Event := r.2.

(** ** Reading an event list *)

(** Arguments of the [asyncio.sleep] calls, in order. *)
Fixpoint sleeps (t : list Event) : list PrimFloat.float :=
  match t with
  | [] => []
  | EvSleep q :: t' => q :: sleeps t'
  | _ :: t' => sleeps t'
  end.

(** The calls that make the pacing of [run]: STEP and TASK delays and
    the steps themselves. *)
Definition is_pacing (e : Event) : bool :=
  match e with
  | EvApplyDelay c => String.eqb c "STEP" || String.eqb c "TASK"
  | EvStep _ _ => true
  | _ => false
  end.

Fixpoint pacing (t : list Event) : list Event :=
  match t with
  | [] => []
  | e :: t' => if is_pacing e then e :: pacing t' else pacing t'
  end.

(** The pacing of one full turn of the loop. *)
Definition turn_pacing (max_steps : Z) (step_number : nat) : list Event :=
  EvApplyDelay "STEP"
    :: (if Nat.eqb step_number 0 then [EvApplyDelay "TASK"] else [])
    ++ [EvStep step_number max_steps].

(** The calls that make the pacing of [multi_act]: delays and calls of
    the base [multi_act], without what the latter returned. *)
Inductive ActCall :=
| DelayCall (delay_type : string)
| SuperCall (actions : list ActionModel) (check : bool).

Fixpoint act_calls (t : list Event) : list ActCall :=
  match t with
  | [] => []
  | EvApplyDelay c :: t' => DelayCall c :: act_calls t'
  | EvSuperMultiAct a c _ :: t' => SuperCall a c :: act_calls t'
  | _ :: t' => act_calls t'
  end.

(** The calls [multi_act] is meant to make for a list of actions: the
    first action alone, then a delay and one action for each other one. *)
Definition delayed_call (check : bool) (a : ActionModel) : list ActCall :=
  [DelayCall "ACTION"; SuperCall [a] check].

Definition paced_calls (check : bool) (actions : list ActionModel) : list ActCall :=
  match actions with
  | [] => []
  | first :: rest => SuperCall [first] check :: flat_map (delayed_call check) rest
  end.

Fixpoint count_delays (l : list ActCall) : nat :=
  match l with
  | [] => 0%nat
  | DelayCall _ :: l' => S (count_delays l')
  | SuperCall _ _ :: l' => count_delays l'
  end.

(** What the calls of the base [multi_act] returned, in order. *)
Fixpoint act_results (t : list Event) : list ActionResult :=
  match t with
  | [] => []
  | EvSuperMultiAct _ _ (Ok r) :: t' => r ++ act_results t'
  | _ :: t' => act_results t'
  end.

(** Log records and sleeps: the events that are no call into the agent. *)
Definition quiet_event (e : Event) : bool :=
  match e with
  | EvLog _ _ | EvSleep _ => true
  | _ => false
  end.

Definition all_quiet (t : list Event) : Prop :=
  Forall (fun e => quiet_event e = true) t.

Definition no_pacing (t : list Event) : Prop :=
  Forall (fun e => is_pacing e = false) t.

Fixpoint count_steps (t : list Event) : nat :=
  match t with
  | [] => 0%nat
  | EvStep _ _ :: t' => S (count_steps t')
  | _ :: t' => count_steps t'
  end.

(** What the calls of [_validate_output] gave, in order. *)
Fixpoint validations (t : list Event) : list (Res bool) :=
  match t with
  | [] => []
  | EvValidateOutput valid :: t' => valid :: validations t'
  | _ :: t' => validations t'
  end.

(** The calls that make the outline of a turn: the hooks around the
    pacing. *)
Definition is_outline (e : Event) : bool :=
  match e with
  | EvOnStepStart | EvOnStepEnd => true
  | _ => is_pacing e
  end.

Fixpoint outline (t : list Event) : list Event :=
  match t with
  | [] => []
  | e :: t' => if is_outline e then e :: outline t' else outline t'
  end.

(** The event of a hook, when there is one. *)
Definition hook_events {A} (hook : option A) (ev : Event) : list Event :=
  match hook with
  | Some _ => [ev]
  | None => []
  end.

(** ** A scripted base agent *)

(** A stand-in for the builtin [float] on the literals of the examples:
    an optional sign, then [nan], [inf] or digits with at most one point
    and an optional exponent.  The digits are read as a whole number,
    scaled by a power of ten and rounded to the nearest binary64 number;
    for up to 15 digits and 22 decimal places both operands of the
    division are exact, so the result is the one [float] gives. *)
Definition digit_of (c : ascii) : option Z :=
  let n := Z.of_nat (nat_of_ascii c) in
  if (48 <=? n) && (n <=? 57) then Some (n - 48) else None.

(** The binary64 number nearest to a whole number. *)
Definition float_of_Z (n : Z) : PrimFloat.float :=
  SF2Prim (binary_normalize prec emax n 0 false).

(** Digits with at most one point: the number they spell without the
    point, how many of them follow the point, and the rest of the
    string from the first other character on. *)
Fixpoint parse_digits (s : string) (acc places : Z) (after_point seen_digit : bool)
    : option (Z * Z * string) :=
  match s with
  | EmptyString => if seen_digit then Some (acc, places, s) else None
  | String c r =>
      if Ascii.eqb c "."%char then
        if after_point then None else parse_digits r acc places true seen_digit
      else
        match digit_of c with
        | Some d =>
            parse_digits r (acc * 10 + d) (if after_point then places + 1 else places)
              after_point true
        | None => if seen_digit then Some (acc, places, s) else None
        end
  end.

Fixpoint parse_nat (s : string) (acc : Z) (seen_digit : bool) : option Z :=
  match s with
  | EmptyString => if seen_digit then Some acc else None
  | String c r =>
      match digit_of c with
      | Some d => parse_nat r (acc * 10 + d) true
      | None => None
      end
  end.

(** Nothing, or [e] and a signed whole number. *)
Definition parse_exponent (s : string) : option Z :=
  match s with
  | EmptyString => Some 0
  | String c r =>
      if Ascii.eqb c "e"%char || Ascii.eqb c "E"%char then
        match r with
        | String "-"%char r' => Z.opp <$> parse_nat r' 0 false
        | String "+"%char r' => parse_nat r' 0 false
        | _ => parse_nat r 0 false
        end
      else None
  end.

(** [n * 10 ^ x] as a float. *)
Definition scale10 (n x : Z) : PrimFloat.float :=
  if 0 <=? x then float_of_Z (n * 10 ^ x)
  else PrimFloat.div (float_of_Z n) (float_of_Z (10 ^ (- x))).

Definition parse_unsigned (s : string) : option PrimFloat.float :=
  if String.eqb (lower s) "nan" then Some nan
  else if String.eqb (lower s) "inf" || String.eqb (lower s) "infinity" then Some infinity
  else
    match parse_digits s 0 0 false false with
    | Some (n, places, rest) =>
        match parse_exponent rest with
        | Some e => Some (scale10 n (e - places))
        | None => None
        end
    | None => None
    end.

Definition parse_decimal (s : string) : option PrimFloat.float :=
  match s with
  | String "-"%char r => PrimFloat.opp <$> parse_unsigned r
  | String "+"%char r => parse_unsigned r
  | _ => parse_unsigned s
  end.

(** The hidden state of the scripted agent counts the calls of
    [asyncio.sleep], and the calls of [step] made while the stop flag
    was set. *)
Record Clock := { slept : nat; stepped_when_stopped : nat }.

Definition quiet {A} (a : A) : @Ext Clock A := fun s => (Ok a, s).

(** A base agent in which everything returns at once, apart from what
    the four arguments say. *)
Definition scripted
    (on_sleep : PrimFloat.float -> @Ext Clock unit)
    (on_step : nat -> Z -> @Ext Clock unit)
    (done : AgentState Clock -> bool)
    (on_save : string -> option (list string) -> @Ext Clock unit) : Base Clock :=
  {| pyfloat := parse_decimal;
     random_random := fun _ => 0.5%float;
     asyncio_sleep := on_sleep;
     super_multi_act := fun actions _ =>
       quiet (map (fun a => {| error := None; include_in_memory := false;
                               other_fields := Some (blob (match a with action_model n => n end)) |})
                  actions);
     step := on_step;
     is_done := done;
     _validate_output := quiet true;
     log_completion := quiet tt;
     _log_agent_run := quiet tt;
     close := quiet tt;
     register := quiet tt;
     wait_for_resume := quiet tt;
     reset := quiet tt;
     unregister := quiet tt;
     save_as_playwright_script := on_save;
     create_history_gif := fun _ => quiet tt |}.

Definition calm : Base Clock :=
  scripted (fun _ => quiet tt) (fun _ _ => quiet tt) (fun _ => false) (fun _ _ => quiet tt).

Definition default_settings : AgentSettings :=
  {| max_failures := 3; validate_output := false;
     save_playwright_script_path := None; generate_gif := VBool false |}.

Definition fresh_agent : AgentState Clock :=
  {| paused := false; stopped := false; consecutive_failures := 0;
     history := []; last_result := []; settings := default_settings;
     initial_actions := []; sensitive_data := None; task := "task";
     hidden := {| slept := 0; stepped_when_stopped := 0 |} |}.

(** * Properties *)

Definition set_flags (now_paused now_stopped : bool) (a : AgentState Clock) : AgentState Clock :=
  {| paused := now_paused; stopped := now_stopped;
     consecutive_failures := consecutive_failures a;
     history := history a; last_result := last_result a; settings := settings a;
     initial_actions := initial_actions a; sensitive_data := sensitive_data a;
     task := task a; hidden := hidden a |}.

Definition set_hidden (h : Clock) (a : AgentState Clock) : AgentState Clock :=
  {| paused := paused a; stopped := stopped a;
     consecutive_failures := consecutive_failures a;
     history := history a; last_result := last_result a; settings := settings a;
     initial_actions := initial_actions a; sensitive_data := sensitive_data a;
     task := task a; hidden := h |}.

(** A user who asks for a stop while the agent sleeps: the stop flag is
    set when [asyncio.sleep] comes back. *)
Definition stop_during_sleep (_ : PrimFloat.float) : @Ext Clock unit :=
  fun a =>
    (Ok tt,
     set_hidden {| slept := S (slept (hidden a));
                   stepped_when_stopped := stepped_when_stopped (hidden a) |}
       (set_flags (paused a) true a)).

(** A step that notes whether the stop flag was set when it was called. *)
Definition noting_step (_ : nat) (_ : Z) : @Ext Clock unit :=
  fun a =>
    (Ok tt,
     if stopped a
     then set_hidden {| slept := slept (hidden a);
                        stepped_when_stopped := S (stepped_when_stopped (hidden a)) |} a
     else a).

Definition stop_requested_in_pause : Base Clock :=
  scripted stop_during_sleep noting_step (fun _ => false) (fun _ _ => quiet tt).

(** A script export that fails. *)
Definition failing_export : Base Clock :=
  scripted (fun _ => quiet tt) (fun _ _ => quiet tt) (fun _ => false)
           (fun _ _ a => (Err (OtherException "disk full"), a)).

(** The environments and agents of the examples. *)
Definition demo_environ : gmap string string :=
  <["STEP_DELAY_MINUTES" := "1.5"]>
    (<["ACTION_DELAY_MINUTES" := "abc"]>
      (<["TASK_ENABLE_RANDOM_INTERVAL" := "True"]>
        (<["TASK_MIN_DELAY_MINUTES" := "2"]>
          (<["TASK_MAX_DELAY_MINUTES" := "1"]> ∅)))).

Definition broken_environ : gmap string string :=
  <["TASK_ENABLE_RANDOM_INTERVAL" := "true"]>
    (<["TASK_MIN_DELAY_MINUTES" := "two"]>
      (<["TASK_MAX_DELAY_MINUTES" := "3"]> ∅)).

Definition world_of_init (a : AgentState Clock) (env : gmap string string) : World Clock :=
  world_of (__init__ a env ∅).

Definition demo_world : World Clock := world_of_init fresh_agent demo_environ.
Definition broken_world : World Clock := world_of_init fresh_agent broken_environ.
Definition plain_world : World Clock := world_of_init fresh_agent ∅.

Definition with_settings (st : AgentSettings) (data : option (list (string * string)))
    (a : AgentState Clock) : AgentState Clock :=
  {| paused := paused a; stopped := stopped a;
     consecutive_failures := consecutive_failures a;
     history := history a; last_result := last_result a; settings := st;
     initial_actions := initial_actions a; sensitive_data := data;
     task := task a; hidden := hidden a |}.

Definition with_failures (n : Z) (a : AgentState Clock) : AgentState Clock :=
  {| paused := paused a; stopped := stopped a; consecutive_failures := n;
     history := history a; last_result := last_result a; settings := settings a;
     initial_actions := initial_actions a; sensitive_data := sensitive_data a;
     task := task a; hidden := hidden a |}.

Definition export_settings : AgentSettings :=
  {| max_failures := 3; validate_output := false;
     save_playwright_script_path := Some "replay.py"; generate_gif := VStr "run.gif" |}.

Definition secrets : list (string * string) :=
  [("password", "hunter2"); ("token", "s3cr3t")].




(** ** More scripted agents *)

(** The base agent [b] with five more of its calls scripted. *)
Definition rescripted (b : Base Clock)
    (on_multi_act : list ActionModel -> bool -> @Ext Clock (list ActionResult))
    (on_validate : @Ext Clock bool)
    (on_register on_unregister on_close : @Ext Clock unit) : Base Clock :=
  {| pyfloat := @pyfloat _ b;
     random_random := @random_random _ b;
     asyncio_sleep := @asyncio_sleep _ b;
     super_multi_act := on_multi_act;
     step := @step _ b;
     is_done := @is_done _ b;
     _validate_output := on_validate;
     log_completion := @log_completion _ b;
     _log_agent_run := @_log_agent_run _ b;
     close := on_close;
     register := on_register;
     wait_for_resume := @wait_for_resume _ b;
     reset := @reset _ b;
     unregister := on_unregister;
     save_as_playwright_script := @save_as_playwright_script _ b;
     create_history_gif := @create_history_gif _ b |}.

Definition failing {A} (e : exn) : @Ext Clock A := fun a => (Err e, a).

(** A browser in which the action called [name] fails. *)
Definition refusing (name : string) : Base Clock :=
  rescripted calm
    (fun actions check =>
       match actions with
       | [action_model n] =>
           if String.eqb n name then failing (OtherException "element not found")
           else @super_multi_act _ calm actions check
       | _ => @super_multi_act _ calm actions check
       end)
    (quiet true) (quiet tt) (quiet tt) (quiet tt).

Definition failing_register : Base Clock :=
  rescripted calm (@super_multi_act _ calm) (quiet true)
    (failing (OtherException "no running event loop")) (quiet tt) (quiet tt).

Definition failing_unregister : Base Clock :=
  rescripted calm (@super_multi_act _ calm) (quiet true)
    (quiet tt) (failing (OtherException "handler not installed")) (quiet tt).

Definition failing_close : Base Clock :=
  rescripted calm (@super_multi_act _ calm) (quiet true)
    (quiet tt) (quiet tt) (failing (OtherException "browser gone")).



(** A sleep that is cancelled, a step and a script export that are
    interrupted, and a step that fails. *)
Definition cancelled_sleep : Base Clock :=
  scripted (fun _ => failing CancelledError) (fun _ _ => quiet tt) (fun _ => false)
           (fun _ _ => quiet tt).

Definition interrupted_step : Base Clock :=
  scripted (fun _ => quiet tt) (fun _ _ => failing KeyboardInterrupt) (fun _ => false)
           (fun _ _ => quiet tt).

Definition crashing_step : Base Clock :=
  scripted (fun _ => quiet tt) (fun _ _ => failing (OtherException "model unreachable"))
           (fun _ => false) (fun _ _ => quiet tt).

Definition interrupted_export : Base Clock :=
  scripted (fun _ => quiet tt) (fun _ _ => quiet tt) (fun _ => false)
           (fun _ _ => failing KeyboardInterrupt).

(** An agent that is done after every step and whose output is never
    found valid. *)
Definition rejecting_validator : Base Clock :=
  rescripted
    (scripted (fun _ => quiet tt) (fun _ _ => quiet tt) (fun _ => true) (fun _ _ => quiet tt))
    (@super_multi_act _ calm) (quiet false) (quiet tt) (quiet tt) (quiet tt).

Definition validating_settings : AgentSettings :=
  {| max_failures := 3; validate_output := true;
     save_playwright_script_path := None; generate_gif := VBool false |}.

Definition with_initial_actions (actions : list ActionModel) (a : AgentState Clock)
    : AgentState Clock :=
  {| paused := paused a; stopped := stopped a;
     consecutive_failures := consecutive_failures a;
     history := history a; last_result := last_result a; settings := settings a;
     initial_actions := actions; sensitive_data := sensitive_data a;
     task := task a; hidden := hidden a |}.

(** Half a minute between two actions. *)
Definition paced_environ : gmap string string :=
  <["ACTION_DELAY_MINUTES" := "0.5"]> ∅.

Definition paced_world : World Clock := world_of_init fresh_agent paced_environ.

(** Code outside the class that stores the dictionary [d] under the
    category [c] of the cache: [agent._delay_settings_cache[c] = d]. *)
Definition with_entry (c : string) (d : gmap string PyVal) (w : World Clock) : World Clock :=
  set_heap (<[delay_settings_cache w := <[c := d]> (deref w (delay_settings_cache w))]> (heap w)) w.

(** ** The rest of the module *)

(** [needle in hay] on strings. *)
Fixpoint str_in (needle hay : string) : bool :=
  String.prefix needle hay ||
  match hay with
  | EmptyString => false
  | String _ rest => str_in needle rest
  end.

(** The module constant
    [os.environ.get("SKIP_LLM_API_KEY_VERIFICATION", "false").lower()[0] in "ty1"],
    evaluated when the module is imported; indexing the empty string
    raises [IndexError]. *)
Definition SKIP_LLM_API_KEY_VERIFICATION (env : gmap string string) : Res bool :=
  let value :=
    match env !! "SKIP_LLM_API_KEY_VERIFICATION" with
    | Some v => v
    | None => "false"
    end in
  match lower value with
  | EmptyString => Err (OtherException "IndexError")
  | String c _ => Ok (str_in (String c EmptyString) "ty1")
  end.

(** [_set_tool_calling_method], on [self.settings.tool_calling_method],
    [self.model_name] and [self.chat_model_library]; the test
    [is_model_without_tool_support] belongs to the agent library. *)
Definition _set_tool_calling_method (is_model_without_tool_support : string -> bool)
    (tool_calling_method : option string) (model_name chat_model_library : string)
    : option string :=
  if match tool_calling_method with
     | Some m => String.eqb m "auto"
     | None => false
     end
  then
    if is_model_without_tool_support model_name then Some "raw"
    else if String.eqb chat_model_library "ChatGoogleGenerativeAI" then None
    else if String.eqb chat_model_library "ChatOpenAI" then Some "function_calling"
    else if String.eqb chat_model_library "AzureChatOpenAI" then Some "function_calling"
    else None
  else tool_calling_method.

(** An environment in which only the verification switch is set. *)
Definition skip_environ (v : string) : gmap string string :=
  <["SKIP_LLM_API_KEY_VERIFICATION" := v]> ∅.

Section Properties.

Context {Hidden : Type} `{B : Base Hidden}.

Implicit Types (w : World Hidden) (t : list Event).

(** ** Reasoning about computations *)

Lemma post_iff {A} (m : M A) w Q :
  post m w Q <-> Q (outcome_of (m w)) (world_of (m w)) (events_of (m w)).
Proof. unfold post. destruct (m w) as [[o w1] t]. reflexivity. Qed.

Lemma post_conseq {A} (m : M A) w (R Q : Outcome A -> World Hidden -> list Event -> Prop) :
  post m w R -> (forall o w1 t, R o w1 t -> Q o w1 t) -> post m w Q.
Proof. unfold post. destruct (m w) as [[o w1] t]. auto. Qed.

Lemma post_bind {A X} (m : M A) (f : A -> M X) w Q :
  post m w (fun o w1 t1 =>
    match o with
    | Ret a => post (f a) w1 (fun o2 w2 t2 => Q o2 w2 (t1 ++ t2))
    | Raise e => Q (Raise e) w1 t1
    | Timeout => Q Timeout w1 t1
    end) ->
  post (bind m f) w Q.
Proof.
  unfold post, bind.
  destruct (m w) as [[[a|e|] w1] t1]; simpl; auto.
  destruct (f a w1) as [[o2 w2] t2]; simpl; auto.
Qed.

Lemma post_try_except {A} (body : M A) handler w Q :
  post body w (fun o w1 t1 =>
    match o with
    | Raise e => post (handler e) w1 (fun o2 w2 t2 => Q o2 w2 (t1 ++ t2))
    | _ => Q o w1 t1
    end) ->
  post (try_except body handler) w Q.
Proof.
  unfold post, try_except.
  destruct (body w) as [[[a|e|] w1] t1]; simpl; auto.
  destruct (handler e w1) as [[o2 w2] t2]; simpl; auto.
Qed.

Lemma post_try_finally {A} (body : M A) fin w Q :
  post body w (fun o w1 t1 =>
    match o with
    | Timeout => Q Timeout w1 t1
    | _ => post fin w1 (fun o2 w2 t2 =>
             match o2 with
             | Ret _ => Q o w2 (t1 ++ t2)
             | Raise e => Q (Raise e) w2 (t1 ++ t2)
             | Timeout => Q Timeout w2 (t1 ++ t2)
             end)
    end) ->
  post (try_finally body fin) w Q.
Proof.
  unfold post, try_finally.
  destruct (body w) as [[[a|e|] w1] t1]; simpl; auto;
    destruct (fin w1) as [[[[]|e2|] w2] t2]; simpl; auto.
Qed.

Lemma post_ret {A} (a : A) w Q : Q (Ret a) w [] -> post (ret a) w Q.
Proof. auto. Qed.

Lemma post_raise {A} e w (Q : Outcome A -> _ -> _ -> Prop) :
  Q (Raise e) w [] -> post (raise e) w Q.
Proof. auto. Qed.

Lemma post_emit e w Q : Q (Ret tt) w [e] -> post (emit e) w Q.
Proof. auto. Qed.

Lemma post_log lvl msg w Q : Q (Ret tt) w [EvLog lvl msg] -> post (log lvl msg) w Q.
Proof. auto. Qed.

Lemma post_get {A} (f : AgentState Hidden -> A) w Q :
  Q (Ret (f (agent w))) w [] -> post (get f) w Q.
Proof. auto. Qed.

Lemma post_modify f w Q :
  Q (Ret tt) (set_agent (f (agent w)) w) [] -> post (modify f) w Q.
Proof. auto. Qed.

Lemma post_call {A} (x : Ext A) ev w Q :
  (forall a s, x (agent w) = (Ok a, s) -> Q (Ret a) (set_agent s w) [ev (Ok a)]) ->
  (forall e s, x (agent w) = (Err e, s) -> Q (Raise e) (set_agent s w) [ev (Err e)]) ->
  post (call x ev) w Q.
Proof.
  unfold post, call.
  destruct (x (agent w)) as [[a|e] s]; simpl; auto.
Qed.

Lemma post_sleep q w Q :
  (forall s, asyncio_sleep q (agent w) = (Ok tt, s) -> Q (Ret tt) (set_agent s w) [EvSleep q]) ->
  (forall e s, asyncio_sleep q (agent w) = (Err e, s) -> Q (Raise e) (set_agent s w) [EvSleep q]) ->
  post (sleep q) w Q.
Proof. intros H1 H2. apply post_call; [intros [] s|]; auto. Qed.

Lemma post_run_hook hook ev w Q :
  (forall o w1 t, t = [] \/ t = [ev] -> o <> Timeout -> Q o w1 t) ->
  post (run_hook hook ev) w Q.
Proof.
  intros HQ. destruct hook as [f|]; simpl.
  - apply post_call; intros; apply HQ; auto; discriminate.
  - apply post_ret, HQ; auto; discriminate.
Qed.

(** One step through a computation, chosen by its head. *)
Ltac wp :=
  lazymatch goal with
  | |- post (bind _ _) _ _ => apply post_bind
  | |- post (try_except _ _) _ _ => apply post_try_except
  | |- post (try_finally _ _) _ _ => apply post_try_finally
  | |- post (ret _) _ _ => apply post_ret
  | |- post (raise _) _ _ => apply post_raise
  | |- post (log _ _) _ _ => apply post_log
  | |- post (emit _) _ _ => apply post_emit
  | |- post (get _) _ _ => apply post_get
  | |- post (modify _) _ _ => apply post_modify
  end;
  cbn beta iota.

Lemma post_timeout {A} w (Q : Outcome A -> _ -> _ -> Prop) :
  Q Timeout w [] -> post timeout w Q.
Proof. auto. Qed.

Lemma post_cache_get c w Q :
  Q (Ret (deref w (delay_settings_cache w) !! c)) w [] -> post (cache_get c) w Q.
Proof. auto. Qed.

Lemma post_getitem d k w Q :
  (forall v, d !! k = Some v -> Q (Ret v) w []) ->
  (d !! k = None -> Q (Raise (KeyError k)) w []) ->
  post (getitem d k) w Q.
Proof. unfold getitem. destruct (d !! k); intros; [apply post_ret|apply post_raise]; auto. Qed.

Lemma post_float v w Q :
  (forall q, float_value v = Some q -> Q (Ret q) w []) ->
  (float_value v = None -> Q (Raise ValueError) w []) ->
  post (float v) w Q.
Proof. unfold float. destruct (float_value v); intros; [apply post_ret|apply post_raise]; auto. Qed.

(** ** Event lists *)

Lemma all_quiet_nil : all_quiet [].
Proof. constructor. Qed.

Lemma all_quiet_app t1 t2 : all_quiet t1 -> all_quiet t2 -> all_quiet (t1 ++ t2).
Proof. apply Forall_app_2. Qed.

Lemma all_quiet_log lvl msg : all_quiet [EvLog lvl msg].
Proof. repeat constructor. Qed.

Lemma all_quiet_sleep q : all_quiet [EvSleep q].
Proof. repeat constructor. Qed.

Create HintDb quiet.
Create HintDb blind.
Hint Resolve all_quiet_nil all_quiet_app all_quiet_log all_quiet_sleep : quiet.

Lemma pacing_app t1 t2 : pacing (t1 ++ t2) = pacing t1 ++ pacing t2.
Proof.
  induction t1 as [|e t1 IH]; simpl; [reflexivity|].
  destruct (is_pacing e); simpl; congruence.
Qed.

Lemma act_calls_app t1 t2 : act_calls (t1 ++ t2) = act_calls t1 ++ act_calls t2.
Proof.
  induction t1 as [|e t1 IH]; simpl; [reflexivity|].
  destruct e; simpl; congruence.
Qed.

Lemma act_results_app t1 t2 : act_results (t1 ++ t2) = act_results t1 ++ act_results t2.
Proof.
  induction t1 as [|e t1 IH]; simpl; [reflexivity|].
  destruct e as [| | | ? ? [r|] | | | | | | | | | | | | |]; simpl; rewrite ?IH, ?app_assoc; reflexivity.
Qed.

Lemma count_steps_app t1 t2 : count_steps (t1 ++ t2) = (count_steps t1 + count_steps t2)%nat.
Proof.
  induction t1 as [|e t1 IH]; simpl; [reflexivity|].
  destruct e; simpl; congruence.
Qed.

Lemma sleeps_app t1 t2 : sleeps (t1 ++ t2) = sleeps t1 ++ sleeps t2.
Proof.
  induction t1 as [|e t1 IH]; simpl; [reflexivity|].
  destruct e; simpl; congruence.
Qed.

Lemma quiet_pacing t : all_quiet t -> pacing t = [].
Proof.
  induction 1 as [|e t He _ IH]; simpl; [reflexivity|].
  destruct e; try discriminate; simpl; exact IH.
Qed.

Lemma quiet_act_calls t : all_quiet t -> act_calls t = [].
Proof.
  induction 1 as [|e t He _ IH]; simpl; [reflexivity|].
  destruct e; try discriminate; simpl; exact IH.
Qed.

Lemma quiet_act_results t : all_quiet t -> act_results t = [].
Proof.
  induction 1 as [|e t He _ IH]; simpl; [reflexivity|].
  destruct e; try discriminate; simpl; exact IH.
Qed.

Lemma quiet_count_steps t : all_quiet t -> count_steps t = 0%nat.
Proof.
  induction 1 as [|e t He _ IH]; simpl; [reflexivity|].
  destruct e; try discriminate; simpl; exact IH.
Qed.

(** ** The delay applier leaves its mark, then only logs and sleeps *)

(** A list of log records and sleeps written out. *)
Ltac quiet_list := unfold all_quiet; cbn [app]; repeat constructor.

Lemma apply_delay_shape c w :
  post (_apply_delay c) w (fun o _ t =>
    o <> Timeout /\ exists t', t = EvApplyDelay c :: t' /\ all_quiet t').
Proof.
  assert (Hend : forall o t', o <> @Timeout unit -> all_quiet t' ->
            o <> Timeout /\ exists t'', EvApplyDelay c :: t' = EvApplyDelay c :: t'' /\ all_quiet t'')
    by (intros; split; eauto).
  unfold _apply_delay, delay_with_settings. repeat wp. apply post_cache_get.
  destruct (deref w (delay_settings_cache w) !! c) as [d|]; cbn beta iota;
    [destruct (bool_decide (d = ∅))|]; try (wp; apply Hend; [discriminate|quiet_list]).
  wp. apply post_getitem; [intros er _|intros _; apply Hend; [discriminate|quiet_list]].
  destruct (truthy er).
  - wp. apply post_getitem; [intros vmin _|intros _; apply Hend; [discriminate|quiet_list]].
    wp. apply post_getitem; [intros vmax _|intros _; apply Hend; [discriminate|quiet_list]].
    repeat wp.
    apply post_float;
      [intros a _|intros _; cbn [except_ValueError]; wp; apply Hend; [discriminate|quiet_list]].
    wp.
    apply post_float;
      [intros b _|intros _; cbn [except_ValueError]; wp; apply Hend; [discriminate|quiet_list]].
    cbn zeta. destruct (PrimFloat.ltb 0 _).
    + wp. unfold post at 1, random_uniform. cbn beta iota. repeat wp.
      apply post_sleep.
      * intros s _. apply Hend; [discriminate|quiet_list].
      * intros e s _. destruct e; cbn [except_ValueError]; wp;
          (apply Hend; [discriminate|quiet_list]).
    + wp. apply Hend; [discriminate|quiet_list].
  - wp. apply post_getitem; [intros v _|intros _; apply Hend; [discriminate|quiet_list]].
    repeat wp.
    apply post_float;
      [intros m _|intros _; cbn [except_ValueError]; wp; apply Hend; [discriminate|quiet_list]].
    destruct (PrimFloat.ltb 0 m).
    + cbn zeta. repeat wp. apply post_sleep.
      * intros s _. apply Hend; [discriminate|quiet_list].
      * intros e s _. destruct e; cbn [except_ValueError]; wp;
          (apply Hend; [discriminate|quiet_list]).
    + wp. apply Hend; [discriminate|quiet_list].
Qed.

(** ** The paced action executor *)

Lemma count_delays_delayed check rest :
  count_delays (flat_map (delayed_call check) rest) = length rest.
Proof. induction rest as [|a rest IH]; simpl; congruence. Qed.

Lemma multi_act_rest_spec rest check results w :
  post (multi_act_rest rest check results) w (fun o _ t =>
    o <> Timeout /\
    act_calls t `prefix_of` flat_map (delayed_call check) rest /\
    forall rs, o = Ret rs ->
      act_calls t = flat_map (delayed_call check) rest /\
      rs = results ++ act_results t).
Proof.
  revert results w. induction rest as [|a rest IH]; intros results w; cbn [multi_act_rest].
  - wp. split; [discriminate|split; [apply prefix_nil|]].
    intros rs [= <-]. now rewrite app_nil_r.
  - wp. eapply post_conseq; [apply apply_delay_shape|].
    intros o w1 t (Hnt & t' & -> & Hq). cbn [act_calls flat_map delayed_call app].
    destruct o as [[]|e|]; [| |done].
    2:{ cbn [act_calls]. rewrite (quiet_act_calls _ Hq).
        split; [discriminate|split; [by apply prefix_cons, prefix_nil|discriminate]]. }
    wp. apply post_call.
    + intros next s _. eapply post_conseq; [apply IH|].
      intros o w2 t2 (Hnt2 & Hpre & Hret). cbn beta.
      rewrite !act_calls_app. cbn [act_calls app].
      rewrite (quiet_act_calls _ Hq). cbn [app].
      split; [done|split; [by do 2 apply prefix_cons|]].
      intros rs Hrs. destruct (Hret rs Hrs) as [-> ->].
      split; [reflexivity|].
      cbn [act_results]. rewrite act_results_app. cbn [act_results].
      rewrite (quiet_act_results _ Hq). cbn [app].
      now rewrite app_assoc.
    + intros e s _. rewrite act_calls_app. cbn [act_calls app].
      rewrite (quiet_act_calls _ Hq). cbn [app].
      split; [discriminate|split; [by do 2 apply prefix_cons; apply prefix_nil|discriminate]].
Qed.

(** C2.  [multi_act] on the empty list returns the empty list and does
    nothing.  On [a1 :: rest] it never runs out of fuel, and the calls it
    makes are a prefix of: the base [multi_act] on [a1] alone, then for
    each other action an ACTION delay followed by the base [multi_act] on
    that action alone.  When it returns, it has made all of them, so one
    delay less than there are actions, and its value is what the base
    calls returned, in the order of the actions. *)
Theorem multi_act_paced (actions : list ActionModel) (check : bool) (w : World Hidden) :
  multi_act [] check w = (Ret [], w, []) /\
  post (multi_act actions check) w (fun o _ t =>
    o <> Timeout /\
    act_calls t `prefix_of` paced_calls check actions /\
    forall rs, o = Ret rs ->
      act_calls t = paced_calls check actions /\
      count_delays (act_calls t) = (length actions - 1)%nat /\
      rs = act_results t).
Proof.
  split; [reflexivity|].
  destruct actions as [|first rest]; cbn [multi_act paced_calls].
  - wp. split; [discriminate|split; [apply prefix_nil|]].
    intros rs [= <-]. auto.
  - wp. apply post_call.
    + intros results s _. eapply post_conseq; [apply multi_act_rest_spec|].
      intros o w2 t2 (Hnt & Hpre & Hret). cbn [app act_calls].
      split; [done|split; [by apply prefix_cons|]].
      intros rs Hrs. destruct (Hret rs Hrs) as [Hcalls ->].
      rewrite Hcalls. cbn [count_delays act_results length].
      rewrite count_delays_delayed.
      split; [reflexivity|split; [simpl; lia|reflexivity]].
    + intros e s _. cbn [act_calls].
      split; [discriminate|split; [by apply prefix_cons, prefix_nil|discriminate]].
Qed.

(** ** The delay applier on a cached configuration *)

Lemma nonempty_dict (d : gmap string PyVal) k v :
  d !! k = Some v -> bool_decide (d = ∅) = false.
Proof.
  intros Hk. apply bool_decide_eq_false. intros ->.
  rewrite lookup_empty in Hk. discriminate.
Qed.

(** Running the applier down to the branch on [enable_random]. *)
Ltac enter_apply_delay Hd Her Ht :=
  unfold _apply_delay, delay_with_settings, bind, emit, cache_get, getitem, try_except, float, log, emit,
    ret, raise;
  rewrite Hd; cbn beta iota;
  rewrite (nonempty_dict _ _ _ Her); cbn beta iota;
  rewrite Her; cbn beta iota;
  rewrite Ht; cbn beta iota.

(** C5.  For a cached configuration whose numeric strings are no floats
    (the fixed delay in the fixed case, the minimum or the maximum in the
    random case) the applier logs a warning, sleeps not at all, leaves the
    state as it is and returns. *)
Theorem apply_delay_malformed (c : string) (w : World Hidden)
    (d : gmap string PyVal) (er : PyVal) :
  deref w (delay_settings_cache w) !! c = Some d ->
  d !! "enable_random" = Some er ->
  (truthy er = false ->
   forall v, d !! "delay_minutes" = Some v -> float_value v = None ->
     _apply_delay c w
     = (Ret tt, w, [EvApplyDelay c; EvLog WARNING (InvalidFixedValue c v)])) /\
  (truthy er = true ->
   forall vmin vmax,
     d !! "min_delay_minutes" = Some vmin -> d !! "max_delay_minutes" = Some vmax ->
     float_value vmin = None \/ float_value vmax = None ->
     _apply_delay c w
     = (Ret tt, w, [EvApplyDelay c; EvLog WARNING (InvalidRandomValues c vmin vmax)])).
Proof.
  intros Hd Her. split.
  - intros Ht v Hv Hf. enter_apply_delay Hd Her Ht.
    rewrite Hv; cbn beta iota. rewrite Hf. reflexivity.
  - intros Ht vmin vmax Hmin Hmax Hf. enter_apply_delay Hd Her Ht.
    rewrite Hmin, Hmax; cbn beta iota.
    destruct (float_value vmin) as [a|]; [|reflexivity].
    destruct Hf as [Hf|Hf]; [discriminate|]. rewrite Hf. reflexivity.
Qed.








Lemma py_min_max_choice x y :
  (py_min x y = x \/ py_min x y = y) /\ (py_max x y = x \/ py_max x y = y).
Proof. unfold py_min, py_max. destruct (PrimFloat.ltb y x), (PrimFloat.ltb x y); auto. Qed.

(** What is slept when the delay is due: the one sleep, whether it
    returns or is interrupted. *)
Ltac sleep_cases :=
  unfold sleep, call, events_of, except_ValueError, raise;
  match goal with
  | |- context [asyncio_sleep ?q ?a] =>
      destruct (asyncio_sleep q a) as [[[]|[]] ?]; reflexivity
  end.


(** ** The delay-settings cache *)

Lemma settings_of_environ (w1 w2 : World Hidden) c :
  environ w1 = environ w2 -> settings_of w1 c = settings_of w2 c.
Proof. unfold settings_of, environ_get. intros ->. reflexivity. Qed.

Lemma deref_cache_one_eq w c :
  deref (cache_one w c) (delay_settings_cache w) !! c = Some (settings_of w c).
Proof.
  unfold deref, cache_one, set_heap; cbn.
  rewrite lookup_total_insert_eq. apply lookup_insert_eq.
Qed.

Lemma deref_cache_one_ne w c c' :
  c <> c' ->
  deref (cache_one w c) (delay_settings_cache w) !! c' = deref w (delay_settings_cache w) !! c'.
Proof.
  intros Hne. unfold deref, cache_one, set_heap; cbn.
  rewrite lookup_total_insert_eq. by apply lookup_insert_ne.
Qed.

Lemma deref_cache_one_other w c l :
  l <> delay_settings_cache w -> deref (cache_one w c) l = deref w l.
Proof.
  intros Hne. unfold deref, cache_one, set_heap; cbn.
  by apply lookup_total_insert_ne.
Qed.

(** The loop of [_cache_delay_settings], turn by turn. *)
Lemma refresh_unfold w :
  fold_left cache_one delay_types w
  = cache_one (cache_one (cache_one w "STEP") "ACTION") "TASK".
Proof. reflexivity. Qed.

Lemma refresh_frame w :
  let w' := fold_left cache_one delay_types w in
  agent w' = agent w /\ environ w' = environ w /\
  delay_settings_cache w' = delay_settings_cache w /\ rand_pos w' = rand_pos w.
Proof. cbn. auto. Qed.

Lemma deref_cache_one w c c' l :
  l = delay_settings_cache w ->
  deref (cache_one w c) l !! c'
  = if decide (c = c') then Some (settings_of w c) else deref w l !! c'.
Proof.
  intros ->. case_decide as Hc.
  - subst c'. apply deref_cache_one_eq.
  - by apply deref_cache_one_ne.
Qed.

Lemma refresh_entry w c :
  c ∈ delay_types ->
  deref (fold_left cache_one delay_types w) (delay_settings_cache w) !! c
  = Some (settings_of w c).
Proof.
  intros Hc. rewrite refresh_unfold, !deref_cache_one by reflexivity.
  unfold delay_types in Hc. rewrite !elem_of_cons, elem_of_nil in Hc.
  destruct Hc as [->|[->|[->|[]]]]; repeat case_decide; try done;
    f_equal; by apply settings_of_environ.
Qed.

Lemma refresh_other_entry w c :
  c ∉ delay_types ->
  deref (fold_left cache_one delay_types w) (delay_settings_cache w) !! c
  = deref w (delay_settings_cache w) !! c.
Proof.
  intros Hc. rewrite refresh_unfold, !deref_cache_one by reflexivity.
  unfold delay_types in Hc. rewrite !not_elem_of_cons in Hc.
  destruct Hc as (H1 & H2 & H3 & _).
  repeat case_decide; congruence.
Qed.

Lemma refresh_other_object w l :
  l <> delay_settings_cache w ->
  deref (fold_left cache_one delay_types w) l = deref w l.
Proof.
  intros Hl. rewrite refresh_unfold.
  rewrite !deref_cache_one_other; done.
Qed.

Lemma refresh_complete w : cache_complete (fold_left cache_one delay_types w).
Proof.
  unfold cache_complete. apply Forall_forall. intros c Hc.
  change (delay_settings_cache (fold_left cache_one delay_types w))
    with (delay_settings_cache w).
  by rewrite refresh_entry.
Qed.

(** The four entries of a per-category dictionary. *)
Lemma settings_of_keys w c :
  settings_of w c !! "enable_random"
  = Some (VBool (String.eqb
                   (lower (environ_get w (c +:+ "_ENABLE_RANDOM_INTERVAL") "false")) "true")) /\
  settings_of w c !! "delay_minutes"
  = Some (VStr (or_zero (environ_get w (c +:+ "_DELAY_MINUTES") "0.0"))) /\
  settings_of w c !! "min_delay_minutes"
  = Some (VStr (or_zero (environ_get w (c +:+ "_MIN_DELAY_MINUTES") "0.0"))) /\
  settings_of w c !! "max_delay_minutes"
  = Some (VStr (or_zero (environ_get w (c +:+ "_MAX_DELAY_MINUTES") "0.0"))).
Proof. unfold settings_of. repeat split; by simplify_map_eq. Qed.

(** A variable that is not set, or set to the empty string, reads as
    the default. *)
Lemma default_minutes w key :
  environ w !! key = None \/ environ w !! key = Some "" ->
  or_zero (environ_get w key "0.0") = "0.0".
Proof. unfold environ_get. intros [->| ->]; reflexivity. Qed.

Lemma default_enable_random w key :
  environ w !! key = None \/ environ w !! key = Some "" ->
  String.eqb (lower (environ_get w key "false")) "true" = false.
Proof. unfold environ_get. intros [->| ->]; reflexivity. Qed.

Lemma or_zero_nonempty s : or_zero s <> "".
Proof.
  unfold or_zero. destruct (String.eqb s "") eqn:E; [discriminate|].
  intros ->. discriminate.
Qed.

(** Closing a leaf of the applier: the missing-settings warning is not
    among the events written out, and an exception, if any, is the one
    the last sleep raised. *)
Ltac no_warning_leaf :=
  cbn [app]; split;
  [ rewrite ?not_elem_of_cons; repeat split; try discriminate; apply not_elem_of_nil
  | intros ? Hraise; try discriminate Hraise;
    match goal with
    | |- exists t0 q, ?l = _ => exists (removelast l); eexists; reflexivity
    end ].

Lemma apply_delay_four_keys c w d :
  deref w (delay_settings_cache w) !! c = Some d ->
  is_Some (d !! "enable_random") -> is_Some (d !! "delay_minutes") ->
  is_Some (d !! "min_delay_minutes") -> is_Some (d !! "max_delay_minutes") ->
  post (_apply_delay c) w (fun o _ t =>
    (EvLog WARNING (NoCachedSettings c) ∉ t) /\
    (forall e, o = Raise e -> exists t0 q, t = t0 ++ [EvSleep q])).
Proof.
  intros Hd [er Her] [v Hv] [vmin Hmin] [vmax Hmax].
  unfold _apply_delay, delay_with_settings. repeat wp. apply post_cache_get. rewrite Hd. cbn beta iota.
  rewrite (nonempty_dict _ _ _ Her).
  wp. apply post_getitem; [intros ? _|congruence].
  destruct (truthy _).
  - wp. apply post_getitem; [intros ? _|congruence].
    wp. apply post_getitem; [intros ? _|congruence].
    repeat wp.
    apply post_float; [intros a _|intros _; cbn [except_ValueError]; wp; no_warning_leaf].
    wp.
    apply post_float; [intros b _|intros _; cbn [except_ValueError]; wp; no_warning_leaf].
    cbn zeta. destruct (PrimFloat.ltb 0 _).
    + wp. unfold post at 1, random_uniform. cbn beta iota. repeat wp.
      apply post_sleep.
      * intros s _. no_warning_leaf.
      * intros e s _. destruct e; cbn [except_ValueError]; wp; no_warning_leaf.
    + wp. no_warning_leaf.
  - wp. apply post_getitem; [intros ? _|congruence].
    repeat wp.
    apply post_float; [intros m _|intros _; cbn [except_ValueError]; wp; no_warning_leaf].
    destruct (PrimFloat.ltb 0 m).
    + cbn zeta. repeat wp. apply post_sleep.
      * intros s _. no_warning_leaf.
      * intros e s _. destruct e; cbn [except_ValueError]; wp; no_warning_leaf.
    + wp. no_warning_leaf.
Qed.

Lemma apply_delay_missing c w :
  deref w (delay_settings_cache w) !! c = None ->
  _apply_delay c w = (Ret tt, w, [EvApplyDelay c; EvLog WARNING (NoCachedSettings c)]).
Proof.
  intros Hd. unfold _apply_delay, delay_with_settings, bind, emit, cache_get, log, emit.
  rewrite Hd. reflexivity.
Qed.

Lemma cache_complete_entry w c :
  cache_complete w -> c ∈ delay_types ->
  deref w (delay_settings_cache w) !! c = Some (settings_of w c).
Proof. unfold cache_complete. rewrite Forall_forall. auto. Qed.

(** C10.  After [__init__], and after every [invalidate_delay_cache],
    the cache holds for STEP, ACTION and TASK a dictionary with the four
    keys, read from the environment with ["false"] and ["0.0"] standing in
    for a variable that is not set or is empty.  On such a cache the
    applier, called for one of the three categories, does not log the
    missing-settings warning and raises nothing but what its sleep
    raised: no lookup fails.  After [__init__] every other category name
    takes the missing-settings branch. *)
Theorem delay_cache_complete :
  (forall (a : AgentState Hidden) env h,
     exists w t,
       __init__ a env h = (Ret tt, w, t) /\ cache_complete w /\
       forall c, c ∉ delay_types ->
         _apply_delay c w
         = (Ret tt, w, [EvApplyDelay c; EvLog WARNING (NoCachedSettings c)])) /\
  (forall w : World Hidden,
     exists w' t, invalidate_delay_cache w = (Ret tt, w', t) /\ cache_complete w') /\
  (forall (w : World Hidden) c,
     four_keys (settings_of w c)
       (String.eqb (lower (environ_get w (c +:+ "_ENABLE_RANDOM_INTERVAL") "false")) "true")
       (or_zero (environ_get w (c +:+ "_DELAY_MINUTES") "0.0"))
       (or_zero (environ_get w (c +:+ "_MIN_DELAY_MINUTES") "0.0"))
       (or_zero (environ_get w (c +:+ "_MAX_DELAY_MINUTES") "0.0"))) /\
  (forall (w : World Hidden) key,
     environ w !! key = None \/ environ w !! key = Some "" ->
     or_zero (environ_get w key "0.0") = "0.0" /\
     String.eqb (lower (environ_get w key "false")) "true" = false) /\
  (forall (w : World Hidden) c,
     cache_complete w -> c ∈ delay_types ->
     post (_apply_delay c) w (fun o _ t =>
       (EvLog WARNING (NoCachedSettings c) ∉ t) /\
       (forall e, o = Raise e -> exists t0 q, t = t0 ++ [EvSleep q]))).
Proof.
  repeat apply conj.
  - intros a env h. unfold __init__, _cache_delay_settings, log, emit.
    set (w0 := {| agent := a; environ := env; heap := <[fresh (dom h) := ∅]> h;
                  delay_settings_cache := fresh (dom h); rand_pos := 0 |}).
    eexists _, _. split; [reflexivity|]. split; [apply refresh_complete|].
    intros c Hc. apply apply_delay_missing.
    change (delay_settings_cache (fold_left cache_one delay_types w0))
      with (delay_settings_cache w0).
    rewrite refresh_other_entry by done.
    unfold deref, w0; cbn. rewrite lookup_total_insert_eq. apply lookup_empty.
  - intros w. unfold invalidate_delay_cache, _cache_delay_settings, bind, log, emit.
    eexists _, _. split; [reflexivity|]. apply refresh_complete.
  - intros w c. apply settings_of_keys.
  - intros w key Hkey. split; [by apply default_minutes|by apply default_enable_random].
  - intros w c Hw Hc.
    destruct (settings_of_keys w c) as (H1 & H2 & H3 & H4).
    eapply apply_delay_four_keys; [by apply cache_complete_entry|..]; eauto.
Qed.

(** ** The applier does not read the environment *)

Lemma env_blind_ret {A} (a : A) : @env_blind Hidden A (ret a).
Proof. intros w env. reflexivity. Qed.

Lemma env_blind_raise {A} e : @env_blind Hidden A (raise e).
Proof. intros w env. reflexivity. Qed.

Lemma env_blind_emit e : @env_blind Hidden _ (emit e).
Proof. intros w env. reflexivity. Qed.

Lemma env_blind_log lvl msg : @env_blind Hidden _ (log lvl msg).
Proof. intros w env. reflexivity. Qed.

Lemma env_blind_cache_get c : @env_blind Hidden _ (cache_get c).
Proof. intros w env. reflexivity. Qed.

Lemma env_blind_random_uniform a b : @env_blind Hidden _ (random_uniform a b).
Proof. intros w env. reflexivity. Qed.

Lemma env_blind_call {A} (x : @Ext Hidden A) ev : env_blind (call x ev).
Proof.
  intros w env. unfold call. cbn [agent set_environ].
  destruct (x (agent w)) as [[a|e] s]; reflexivity.
Qed.

Lemma env_blind_bind {A X} (m : @M Hidden A) (f : A -> @M Hidden X) :
  env_blind m -> (forall a, env_blind (f a)) -> env_blind (bind m f).
Proof.
  intros Hm Hf w env. unfold bind. rewrite Hm.
  destruct (m w) as [[[a|e|] w1] t1]; try reflexivity.
  rewrite Hf. destruct (f a w1) as [[o2 w2] t2]. reflexivity.
Qed.

Lemma env_blind_try_except {A} (body : @M Hidden A) handler :
  env_blind body -> (forall e, env_blind (handler e)) ->
  env_blind (try_except body handler).
Proof.
  intros Hm Hf w env. unfold try_except. rewrite Hm.
  destruct (body w) as [[[a|e|] w1] t1]; try reflexivity.
  rewrite Hf. destruct (handler e w1) as [[o2 w2] t2]. reflexivity.
Qed.

Lemma env_blind_getitem d k : @env_blind Hidden _ (getitem d k).
Proof. unfold getitem. destruct (d !! k); [apply env_blind_ret|apply env_blind_raise]. Qed.

Lemma env_blind_float v : env_blind (float v).
Proof. unfold float. destruct (float_value v); [apply env_blind_ret|apply env_blind_raise]. Qed.

Lemma env_blind_except_ValueError {A} (h : @M Hidden A) e :
  env_blind h -> env_blind (except_ValueError h e).
Proof. intros Hh. destruct e; cbn; auto using @env_blind_raise. Qed.

Hint Resolve env_blind_ret env_blind_raise env_blind_emit env_blind_log
  env_blind_cache_get env_blind_random_uniform env_blind_call
  env_blind_getitem env_blind_float : blind.

Lemma apply_delay_env_blind c : env_blind (_apply_delay c).
Proof.
  unfold _apply_delay, delay_with_settings, sleep.
  apply env_blind_bind; [auto with blind|intros _].
  apply env_blind_bind; [auto with blind|intros [d|]]; [|auto with blind].
  destruct (bool_decide (d = ∅)); [auto with blind|].
  apply env_blind_bind; [auto with blind|intros er].
  destruct (truthy er).
  - apply env_blind_bind; [auto with blind|intros vmin].
    apply env_blind_bind; [auto with blind|intros vmax].
    apply env_blind_try_except;
      [|intros e; apply env_blind_except_ValueError; auto with blind].
    apply env_blind_bind; [auto with blind|intros a].
    apply env_blind_bind; [auto with blind|intros b].
    cbn zeta. destruct (PrimFloat.ltb 0 _); [|auto with blind].
    apply env_blind_bind; [auto with blind|intros x].
    apply env_blind_bind; [auto with blind|intros _]. auto with blind.
  - apply env_blind_bind; [auto with blind|intros v].
    apply env_blind_try_except;
      [|intros e; apply env_blind_except_ValueError; auto with blind].
    apply env_blind_bind; [auto with blind|intros m].
    destruct (PrimFloat.ltb 0 m); [|auto with blind].
    cbn zeta. apply env_blind_bind; [auto with blind|intros _]. auto with blind.
Qed.

(** Once it holds the dictionary of its category, the applier does not
    look at the cache again. *)
Lemma heap_blind_ret {A} (a : A) : @heap_blind Hidden A (ret a).
Proof. by intros w h. Qed.

Lemma heap_blind_raise {A} e : @heap_blind Hidden A (raise e).
Proof. by intros w h. Qed.

Lemma heap_blind_log lvl msg : @heap_blind Hidden _ (log lvl msg).
Proof. by intros w h. Qed.

Lemma heap_blind_random_uniform a b : @heap_blind Hidden _ (random_uniform a b).
Proof. by intros w h. Qed.

Lemma heap_blind_call {A} (x : @Ext Hidden A) ev : heap_blind (call x ev).
Proof.
  intros w h. unfold call. cbn [agent set_heap].
  by destruct (x (agent w)) as [[a|e] s].
Qed.

Lemma heap_blind_bind {A X} (m : @M Hidden A) (f : A -> @M Hidden X) :
  heap_blind m -> (forall a, heap_blind (f a)) -> heap_blind (bind m f).
Proof.
  intros Hm Hf w h. unfold bind. rewrite Hm.
  destruct (m w) as [[[a|e|] w1] t1]; try reflexivity.
  rewrite Hf. destruct (f a w1) as [[o2 w2] t2]. reflexivity.
Qed.

Lemma heap_blind_try_except {A} (body : @M Hidden A) handler :
  heap_blind body -> (forall e, heap_blind (handler e)) ->
  heap_blind (try_except body handler).
Proof.
  intros Hm Hf w h. unfold try_except. rewrite Hm.
  destruct (body w) as [[[a|e|] w1] t1]; try reflexivity.
  rewrite Hf. destruct (handler e w1) as [[o2 w2] t2]. reflexivity.
Qed.

Lemma heap_blind_getitem d k : @heap_blind Hidden _ (getitem d k).
Proof. unfold getitem. destruct (d !! k); [apply heap_blind_ret|apply heap_blind_raise]. Qed.

Lemma heap_blind_float v : heap_blind (float v).
Proof. unfold float. destruct (float_value v); [apply heap_blind_ret|apply heap_blind_raise]. Qed.

Lemma heap_blind_except_ValueError {A} (m : @M Hidden A) e :
  heap_blind m -> heap_blind (except_ValueError m e).
Proof. intros Hm. destruct e; cbn; auto using @heap_blind_raise. Qed.

Create HintDb heap_blind.
Hint Resolve heap_blind_ret heap_blind_raise heap_blind_log heap_blind_random_uniform
  heap_blind_call heap_blind_getitem heap_blind_float : heap_blind.

Lemma delay_with_settings_heap_blind c d : heap_blind (delay_with_settings c d).
Proof.
  unfold delay_with_settings, sleep.
  apply heap_blind_bind; [auto with heap_blind|intros er].
  destruct (truthy er).
  - apply heap_blind_bind; [auto with heap_blind|intros vmin].
    apply heap_blind_bind; [auto with heap_blind|intros vmax].
    apply heap_blind_try_except;
      [|intros e; apply heap_blind_except_ValueError; auto with heap_blind].
    apply heap_blind_bind; [auto with heap_blind|intros a].
    apply heap_blind_bind; [auto with heap_blind|intros b].
    cbn zeta. destruct (PrimFloat.ltb 0 _); [|auto with heap_blind].
    apply heap_blind_bind; [auto with heap_blind|intros x].
    apply heap_blind_bind; [auto with heap_blind|intros _]. auto with heap_blind.
  - apply heap_blind_bind; [auto with heap_blind|intros v].
    apply heap_blind_try_except;
      [|intros e; apply heap_blind_except_ValueError; auto with heap_blind].
    apply heap_blind_bind; [auto with heap_blind|intros m].
    destruct (PrimFloat.ltb 0 m); [|auto with heap_blind].
    cbn zeta. apply heap_blind_bind; [auto with heap_blind|intros _]. auto with heap_blind.
Qed.

(** The applier is the mark, the read of the cache, and the rest on the
    dictionary it has read. *)
Lemma apply_delay_reads_once c w d :
  deref w (delay_settings_cache w) !! c = Some d -> d <> ∅ ->
  _apply_delay c w
  = bind (emit (EvApplyDelay c)) (fun _ => delay_with_settings c d) w.
Proof.
  intros Hd Hne. unfold _apply_delay, bind at 1 3, emit, cache_get. cbn beta iota.
  unfold bind at 1. cbn beta iota. rewrite Hd.
  rewrite (bool_decide_eq_false_2 _ Hne).
  by destruct (delay_with_settings c d w) as [[o w1] t1].
Qed.

Lemma refresh_is_set_heap w :
  fold_left cache_one delay_types w
  = set_heap (heap (fold_left cache_one delay_types w)) w.
Proof. reflexivity. Qed.

(** C8, as amended.  [invalidate_delay_cache] returns, reads the
    environment again and stores, for each of the three categories, a
    newly built dictionary under that category in the dictionary object
    the attribute already referred to: the attribute keeps its referent,
    entries under other keys and all other objects are left alone, and the
    agent and the environment are untouched.  The dictionaries of the
    categories are replaced, never written to: a delay computation that
    holds the dictionary it read before the invalidation does after it
    what it would have done without it.  The applier reads the cache
    only, whatever the environment holds. *)
Theorem invalidate_in_place (w : World Hidden) :
  exists w' t,
    invalidate_delay_cache w = (Ret tt, w', t) /\
    delay_settings_cache w' = delay_settings_cache w /\
    agent w' = agent w /\ environ w' = environ w /\
    (forall c, c ∈ delay_types ->
       deref w' (delay_settings_cache w) !! c = Some (settings_of w c)) /\
    (forall c, c ∉ delay_types ->
       deref w' (delay_settings_cache w) !! c = deref w (delay_settings_cache w) !! c) /\
    (forall l, l <> delay_settings_cache w -> deref w' l = deref w l) /\
    (forall c, @env_blind Hidden _ (_apply_delay c)) /\
    (forall c d,
       deref w (delay_settings_cache w) !! c = Some d -> d <> ∅ ->
       _apply_delay c w
       = bind (emit (EvApplyDelay c)) (fun _ => delay_with_settings c d) w /\
       outcome_of (delay_with_settings c d w') = outcome_of (delay_with_settings c d w) /\
       events_of (delay_with_settings c d w') = events_of (delay_with_settings c d w) /\
       agent (world_of (delay_with_settings c d w'))
       = agent (world_of (delay_with_settings c d w))).
Proof.
  unfold invalidate_delay_cache, _cache_delay_settings, bind, log, emit.
  eexists _, _. split; [reflexivity|].
  repeat apply conj; try reflexivity.
  - intros c Hc. by apply refresh_entry.
  - intros c Hc. by apply refresh_other_entry.
  - intros l Hl. by apply refresh_other_object.
  - apply apply_delay_env_blind.
  - intros c d Hd Hne. split; [by apply apply_delay_reads_once|].
    rewrite (refresh_is_set_heap w), (delay_with_settings_heap_blind c d).
    by destruct (delay_with_settings c d w) as [[o w1] t1].
Qed.

(** ** The run loop *)

Lemma no_pacing_nil_pacing t : no_pacing t -> pacing t = [] /\ count_steps t = 0%nat.
Proof.
  induction 1 as [|e t He _ [IH1 IH2]]; cbn; [done|].
  rewrite He. destruct e; try discriminate; auto.
Qed.

Lemma apply_delay_pacing c w :
  post (_apply_delay c) w (fun o _ t =>
    o <> Timeout /\ pacing t = pacing [EvApplyDelay c] /\ count_steps t = 0%nat).
Proof.
  eapply post_conseq; [apply apply_delay_shape|].
  intros o w1 t (Hnt & t' & -> & Hq). split; [done|].
  cbn [pacing count_steps]. rewrite (quiet_pacing _ Hq), (quiet_count_steps _ Hq).
  by destruct (is_pacing _).
Qed.

(** Lists of events outside the pacing, put together. *)
Ltac np :=
  unfold no_pacing in *; cbn beta; cbn [app];
  repeat first
    [ assumption
    | apply Forall_nil_2
    | apply Forall_cons_2; [reflexivity|]
    | apply Forall_app_2 ].

Lemma wait_if_paused_no_pacing w :
  post wait_if_paused w (fun o _ t => o <> Timeout /\ no_pacing t).
Proof.
  unfold wait_if_paused. repeat wp. destruct (paused (agent w)).
  - wp. apply post_call.
    + intros [] s _. apply post_call; intros; (split; [discriminate|np]).
    + intros e s _. split; [discriminate|np].
  - wp. split; [discriminate|np].
Qed.

Lemma pause_wait_no_pacing fuel w :
  post (pause_wait fuel) w (fun _ _ t => no_pacing t).
Proof.
  revert w. induction fuel as [|fuel IH]; intros w; cbn [pause_wait]; repeat wp.
  - destruct (paused (agent w)); [apply post_timeout|wp]; np.
  - destruct (paused (agent w)); [|wp; np].
    wp. apply post_sleep.
    + intros s _. repeat wp. destruct (stopped _).
      * wp. np.
      * eapply post_conseq; [apply IH|]. intros o w1 t Ht. np.
    + intros e s _. np.
Qed.

Lemma run_hook_no_pacing hook ev w :
  is_pacing ev = false ->
  post (run_hook hook ev) w (fun o _ t => o <> Timeout /\ no_pacing t).
Proof.
  intros Hev. apply post_run_hook. intros o w1 t [->| ->] Ho; (split; [done|]).
  - np.
  - apply Forall_cons_2; [done|np].
Qed.

(** Facts about the events gathered so far, used at the end of a path. *)
Ltac use_facts :=
  repeat match goal with
  | H : no_pacing _ |- _ => apply no_pacing_nil_pacing in H as [? ?]
  end;
  cbn beta; rewrite ?pacing_app, ?count_steps_app;
  repeat match goal with
  | H : pacing ?t = _ |- context [pacing ?t] => rewrite H
  | H : count_steps ?t = _ |- context [count_steps ?t] => rewrite H
  end;
  cbn [pacing count_steps is_pacing app Nat.add String.eqb Ascii.eqb Bool.eqb orb].

(** The end of a path through a turn of the loop: its pacing is a prefix
    of the full one, it holds at most one step, and it is the full one
    when the turn ends in [continue]. *)
Ltac turn_leaf :=
  use_facts;
  split; [repeat apply prefix_cons; first [reflexivity|apply prefix_nil]|];
  split; [lia|]; intros Hnext; first [discriminate Hnext|reflexivity].

(** The end of a path on which the step was made. *)
Ltac full_leaf :=
  use_facts; split; [reflexivity|split; [lia|intros _; reflexivity]].

Lemma run_step_pacing fuel max_steps h1 h2 i w :
  post (run_step fuel max_steps h1 h2 i) w (fun o _ t =>
    pacing t `prefix_of` turn_pacing max_steps i /\
    (count_steps t <= 1)%nat /\
    (o = Ret Next -> pacing t = turn_pacing max_steps i)).
Proof.
  unfold run_step, turn_pacing. wp.
  eapply post_conseq; [apply wait_if_paused_no_pacing|].
  intros o w1 t1 [Hnt Hnp]. destruct o as [[]|e|]; [| |done].
  2:{ turn_leaf. }
  repeat wp. destruct (_ <=? _).
  { repeat wp. turn_leaf. }
  repeat wp. destruct (stopped _).
  { repeat wp. turn_leaf. }
  wp. eapply post_conseq; [apply pause_wait_no_pacing|].
  intros o w2 t2 Hnp2. destruct o as [[]|e|]; [| turn_leaf..].
  wp. eapply post_conseq; [by apply run_hook_no_pacing|].
  intros o w3 t3 [Hnt3 Hnp3]. destruct o as [[]|e|]; [| turn_leaf..].
  wp. eapply post_conseq; [apply apply_delay_pacing|].
  intros o w4 t4 (Hnt4 & Hp4 & Hc4). destruct o as [[]|e|]; [| turn_leaf..].
  wp.
  assert (Htask : post (if Nat.eqb i 0 then _apply_delay "TASK" else ret tt) w4
            (fun o _ t => pacing t `prefix_of` (if Nat.eqb i 0 then [EvApplyDelay "TASK"] else [])
                          /\ count_steps t = 0%nat
                          /\ (o = Ret tt -> pacing t = if Nat.eqb i 0 then [EvApplyDelay "TASK"] else []))).
  { destruct (Nat.eqb i 0).
    - eapply post_conseq; [apply apply_delay_pacing|].
      intros o w5 t5 (_ & -> & ->). auto.
    - wp. auto. }
  eapply post_conseq; [exact Htask|]. clear Htask.
  intros o w5 t5 (Hpre5 & Hc5 & Hp5). destruct o as [[]|e|].
  2,3: use_facts; (split; [apply prefix_cons, prefix_app_r, Hpre5|split; [lia|discriminate]]).
  specialize (Hp5 eq_refl). clear Hpre5.
  wp. apply post_call.
  2:{ intros e s _. use_facts.
      split; [reflexivity|split; [lia|discriminate]]. }
  intros [] s _.
  wp. eapply post_conseq; [by apply run_hook_no_pacing|].
  intros o w6 t6 [Hnt6 Hnp6].
  assert (Hvalid : forall w', post (call log_completion (fun _ => EvLogCompletion)) w'
            (fun o _ t => o <> Timeout /\ no_pacing t)).
  { intros w'. apply post_call; intros; (split; [discriminate|np]). }
  destruct o as [[]|e|]; [| full_leaf..].
  repeat wp. destruct (is_done _); [|wp; full_leaf].
  repeat wp. destruct (_ && _).
  - wp. apply post_call; [intros valid s' _|intros e s' _; full_leaf].
    destruct valid; cbn [negb]; [|wp; full_leaf].
    wp. eapply post_conseq; [apply Hvalid|].
    intros o w7 t7 [Hnt7 Hnp7]. destruct o as [[]|e|]; [wp|..]; full_leaf.
  - wp. eapply post_conseq; [apply Hvalid|].
    intros o w7 t7 [Hnt7 Hnp7]. destruct o as [[]|e|]; [wp|..]; full_leaf.
Qed.

Lemma run_loop_pacing fuel max_steps h1 h2 steps w :
  post (run_loop fuel max_steps h1 h2 steps) w (fun o _ t =>
    pacing t `prefix_of` flat_map (turn_pacing max_steps) steps /\
    (count_steps t <= length steps)%nat /\
    (o = Ret Exhausted -> pacing t = flat_map (turn_pacing max_steps) steps)).
Proof.
  revert w. induction steps as [|i later IH]; intros w; cbn [run_loop flat_map length].
  - wp. cbn. auto.
  - wp. eapply post_conseq; [apply run_step_pacing|].
    intros o w1 t1 (Hpre & Hc & Hfull). destruct o as [[|]|e|].
    + specialize (Hfull eq_refl). eapply post_conseq; [apply IH|].
      intros o w2 t2 (Hpre2 & Hc2 & Hfull2). cbn beta.
      rewrite pacing_app, count_steps_app, Hfull.
      split; [by apply prefix_app|]. split; [lia|].
      intros Ho. by rewrite Hfull2.
    + wp. rewrite app_nil_r.
      split; [by apply prefix_app_r|]. split; [lia|discriminate].
    + split; [by apply prefix_app_r|]. split; [lia|discriminate].
    + split; [by apply prefix_app_r|]. split; [lia|discriminate].
Qed.


Lemma quiet_no_pacing t : all_quiet t -> no_pacing t.
Proof.
  unfold all_quiet, no_pacing. intros Hq. eapply Forall_impl; [exact Hq|].
  intros e He. destruct e; try discriminate; reflexivity.
Qed.

Lemma apply_delay_action_no_pacing w :
  post (_apply_delay "ACTION") w (fun o _ t => o <> Timeout /\ no_pacing t).
Proof.
  eapply post_conseq; [apply apply_delay_shape|].
  intros o w1 t (Hnt & t' & -> & Hq). split; [done|].
  apply Forall_cons_2; [reflexivity|by apply quiet_no_pacing].
Qed.

Lemma multi_act_rest_no_pacing rest check results w :
  post (multi_act_rest rest check results) w (fun o _ t => o <> Timeout /\ no_pacing t).
Proof.
  revert results w. induction rest as [|a rest IH]; intros results w; cbn [multi_act_rest].
  - wp. split; [discriminate|np].
  - wp. eapply post_conseq; [apply apply_delay_action_no_pacing|].
    intros o w1 t1 [Hnt Hnp]. destruct o as [[]|e|]; [|split; [discriminate|np]|done].
    wp. apply post_call.
    + intros next s _. eapply post_conseq; [apply IH|].
      intros o w2 t2 [Hnt2 Hnp2]. split; [done|np].
    + intros e s _. split; [discriminate|np].
Qed.

Lemma multi_act_no_pacing actions check w :
  post (multi_act actions check) w (fun o _ t => o <> Timeout /\ no_pacing t).
Proof.
  destruct actions as [|first rest]; cbn [multi_act].
  - wp. split; [discriminate|np].
  - wp. apply post_call.
    + intros results s _. eapply post_conseq; [apply multi_act_rest_no_pacing|].
      intros o w2 t2 [Hnt2 Hnp2]. split; [done|np].
    + intros e s _. split; [discriminate|np].
Qed.

Lemma run_prelude_no_pacing w :
  post run_prelude w (fun o _ t => o <> Timeout /\ no_pacing t).
Proof.
  unfold run_prelude. wp. apply post_call; [intros [] s _|intros e s _; split; [discriminate|np]].
  repeat wp. destruct (initial_actions _) as [|a actions].
  - wp. split; [discriminate|np].
  - wp. eapply post_conseq; [apply multi_act_no_pacing|].
    intros o w1 t1 [Hnt Hnp]. destruct o as [rs|e|]; [wp|..]; (split; [done|np]).
Qed.

Lemma run_epilogue_no_pacing how w :
  post (run_epilogue how) w (fun o _ t => o <> Timeout /\ no_pacing t).
Proof.
  unfold run_epilogue. destruct how; repeat wp; (split; [discriminate|np]).
Qed.

Lemma finalize_no_pacing w :
  post finalize w (fun o _ t => o <> Timeout /\ no_pacing t).
Proof.
  unfold finalize. wp.
  apply post_call; [intros [] s _|intros e s _; split; [discriminate|np]].
  repeat wp.
  assert (Hrest : forall w' pre, no_pacing pre ->
    post (bind (call close (fun _ => EvClose))
            (fun _ => bind (get (fun a => generate_gif (settings a)))
               (fun gif => if truthy gif
                  then call (create_history_gif (output_path_of gif))
                         (fun _ => EvCreateGif (output_path_of gif))
                  else ret tt))) w'
      (fun o _ t => o <> Timeout /\ no_pacing (pre ++ t))).
  { intros w' pre Hpre. wp.
    apply post_call; [intros [] s' _|intros e s' _; split; [discriminate|np]].
    repeat wp. destruct (truthy _).
    - apply post_call; intros; (split; [discriminate|np]).
    - wp. split; [discriminate|np]. }
  destruct (save_playwright_script_path _) as [p|].
  - destruct (String.eqb p "").
    + wp. eapply post_conseq; [apply (Hrest _ [])|]; [np|].
      intros o w1 t1 [Hnt Hnp]. split; [done|np].
    + repeat wp. apply post_call.
      * intros [] s' _. eapply post_conseq; [apply (Hrest _ []); np|].
        intros o w1 t1 [Hnt Hnp]. split; [done|np].
      * intros e s' _. unfold except_Exception. destruct (is_Exception e).
        -- wp. eapply post_conseq; [apply (Hrest _ []); np|].
           intros o w1 t1 [Hnt Hnp]. split; [done|np].
        -- wp. split; [discriminate|np].
  - wp. eapply post_conseq; [apply (Hrest _ []); np|].
    intros o w1 t1 [Hnt Hnp]. split; [done|np].
Qed.


Lemma range_length max_steps : length (range max_steps) = Z.to_nat max_steps.
Proof. unfold range. apply length_seq. Qed.

Lemma run_pacing_steps fuel max_steps h1 h2 w :
  post (run fuel max_steps h1 h2) w (fun _ _ t =>
    pacing t `prefix_of` flat_map (turn_pacing max_steps) (range max_steps) /\
    (count_steps t <= Z.to_nat max_steps)%nat).
Proof.
  assert (Htry : forall w', post (run_try fuel max_steps h1 h2) w' (fun _ _ t =>
    pacing t `prefix_of` flat_map (turn_pacing max_steps) (range max_steps) /\
    (count_steps t <= Z.to_nat max_steps)%nat)).
  { intros w'. unfold run_try. wp.
    eapply post_conseq; [apply run_prelude_no_pacing|].
    intros o w1 t1 [Hnt Hnp]. destruct o as [[]|e|]; [| |done].
    2:{ use_facts. split; [apply prefix_nil|lia]. }
    wp. eapply post_conseq; [apply run_loop_pacing|].
    intros o w2 t2 (Hpre & Hc & _). rewrite range_length in Hc.
    destruct o as [how|e|].
    - eapply post_conseq; [apply run_epilogue_no_pacing|].
      intros o w3 t3 [Hnt3 Hnp3]. use_facts. rewrite app_nil_r. split; [done|lia].
    - use_facts. split; [done|lia].
    - use_facts. split; [done|lia]. }
  unfold run. wp.
  apply post_call; [intros [] s _|intros e s _; cbn; split; [apply prefix_nil|lia]].
  wp. wp. eapply post_conseq; [apply Htry|].
  intros o w1 t1 [Hpre Hc].
  assert (Hfin : forall w' t, pacing t = pacing t1 -> count_steps t = count_steps t1 ->
    post finalize w' (fun o2 _ t2 =>
       match o2 with
       | Ret _ => pacing ([EvRegister] ++ t ++ t2) `prefix_of` flat_map (turn_pacing max_steps) (range max_steps)
                  /\ (count_steps ([EvRegister] ++ t ++ t2) <= Z.to_nat max_steps)%nat
       | Raise _ => pacing ([EvRegister] ++ t ++ t2) `prefix_of` flat_map (turn_pacing max_steps) (range max_steps)
                  /\ (count_steps ([EvRegister] ++ t ++ t2) <= Z.to_nat max_steps)%nat
       | Timeout => pacing ([EvRegister] ++ t ++ t2) `prefix_of` flat_map (turn_pacing max_steps) (range max_steps)
                  /\ (count_steps ([EvRegister] ++ t ++ t2) <= Z.to_nat max_steps)%nat
       end)).
  { intros w' t Hp Hcs. eapply post_conseq; [apply finalize_no_pacing|].
    intros o2 w2 t2 [Hnt2 Hnp2]. use_facts. rewrite app_nil_r.
    destruct o2; (split; [done|lia]). }
  destruct o as [hist|e|].
  - by apply Hfin.
  - unfold except_KeyboardInterrupt. destruct e; repeat wp; apply Hfin;
      rewrite ?pacing_app, ?count_steps_app; cbn; rewrite ?app_nil_r; auto; lia.
  - cbn. split; [done|lia].
Qed.

(** C6.  When the check at the top of a turn (after the wait for a
    resume, if the agent was paused) finds
    [consecutive_failures >= max_failures], the loop logs an error and
    ends by [break]: the turn makes no step, the later turns are not run,
    nothing is raised, and what follows the loop appends no record. *)
Theorem failure_threshold_stops (fuel : nat) (max_steps : Z)
    (on_step_start on_step_end : option (@Ext Hidden unit))
    (i : nat) (later : list nat) (w w1 : World Hidden) (t1 : list Event) :
  wait_if_paused w = (Ret tt, w1, t1) ->
  max_failures (settings (agent w1)) <= consecutive_failures (agent w1) ->
  run_loop fuel max_steps on_step_start on_step_end (i :: later) w
  = (Ret Broke, w1,
     t1 ++ [EvLog ERROR (StoppingConsecutiveFailures (max_failures (settings (agent w1))))]) /\
  run_epilogue Broke w1 = (Ret (history (agent w1)), w1, []) /\
  (paused (agent w) = false -> w1 = w /\ t1 = []).
Proof.
  intros Hw Hle. apply Z.leb_le in Hle. split; [|split].
  - cbn [run_loop]. unfold run_step, bind, get, log, emit, ret.
    rewrite Hw. cbn beta iota. rewrite Hle. cbn [app]. by rewrite !app_nil_r.
  - reflexivity.
  - unfold wait_if_paused, bind, get in Hw. cbn beta iota in Hw.
    intros Hp. rewrite Hp in Hw. by injection Hw.
Qed.


(** ** Finalisation *)

Lemma finalize_tail (w : World Hidden) s3 :
  close (agent w) = (Ok tt, s3) ->
  events_of
    (bind (call close (fun _ => EvClose))
       (fun _ => bind (get (fun a => generate_gif (settings a)))
          (fun gif => if truthy gif
             then call (create_history_gif (output_path_of gif))
                    (fun _ => EvCreateGif (output_path_of gif))
             else ret tt)) w)
  = EvClose :: gif_events s3.
Proof.
  intros Hclose. unfold bind, call, get, ret, gif_events, events_of.
  rewrite Hclose. cbn [agent set_agent fst snd].
  destruct (truthy _); [|reflexivity].
  destruct (create_history_gif _ _) as [[[]|e] s4]; reflexivity.
Qed.

Lemma events_bind_ret {A X} (m : M A) (f : A -> M X) (w w1 : World Hidden) a t1 :
  m w = (Ret a, w1, t1) -> events_of (bind m f w) = t1 ++ events_of (f a w1).
Proof.
  intros Hm. unfold bind, events_of. rewrite Hm.
  by destruct (f a w1) as [[o2 w2] t2].
Qed.

Lemma call_ok {A} (x : Ext A) ev (w : World Hidden) a s :
  x (agent w) = (Ok a, s) -> call x ev w = (Ret a, set_agent s w, [ev (Ok a)]).
Proof. intros Hx. unfold call. by rewrite Hx. Qed.

Lemma call_err {A} (x : Ext A) ev (w : World Hidden) e s :
  x (agent w) = (Err e, s) -> call x ev w = (Raise e, set_agent s w, [ev (Err e)]).
Proof. intros Hx. unfold call. by rewrite Hx. Qed.

Lemma sensitive_keys_names (d1 d2 : list (string * string)) :
  map fst d1 = map fst d2 -> sensitive_keys (Some d1) = sensitive_keys (Some d2).
Proof.
  intros Hk. destruct d1, d2; try discriminate; [reflexivity|].
  cbn in *. congruence.
Qed.

(** C9.  Once the signal handler is registered, whatever way the [try]
    statement ends - a value or any exception, caught or not - the
    [finally] clause runs next.  It starts by unregistering the handler.
    If that returns and a script path is configured, the script export is
    called with the path and the names of the sensitive data, which the
    values do not influence; whether the export returns or raises an
    [Exception] (then logged), [close] is called next, and when [close]
    returns the GIF is made if one is asked for.  Without a script path
    it goes from unregistering straight to [close]. *)
Theorem finalization_always_runs (fuel : nat) (max_steps : Z)
    (on_step_start on_step_end : option (@Ext Hidden unit)) (w : World Hidden) :
  (forall s o w1 t1,
     register (agent w) = (Ok tt, s) ->
     try_except (run_try fuel max_steps on_step_start on_step_end)
       except_KeyboardInterrupt (set_agent s w) = (o, w1, t1) ->
     o <> Timeout ->
     events_of (run fuel max_steps on_step_start on_step_end w)
     = EvRegister :: t1 ++ events_of (finalize w1)) /\
  (forall w1 : World Hidden, exists t', events_of (finalize w1) = EvUnregister :: t') /\
  (forall (w1 : World Hidden) s1 s2 s3 p r2,
     unregister (agent w1) = (Ok tt, s1) ->
     save_playwright_script_path (settings s1) = Some p -> p <> "" ->
     save_as_playwright_script p (sensitive_keys (sensitive_data s1)) s1 = (r2, s2) ->
     (forall e, r2 = Err e -> is_Exception e = true) ->
     close s2 = (Ok tt, s3) ->
     events_of (finalize w1)
     = [EvUnregister; EvLog INFO (SavingScript p);
        EvSaveScript p (sensitive_keys (sensitive_data s1))]
       ++ match r2 with Err e => [EvLog ERROR (FailedToSaveScript e)] | Ok _ => [] end
       ++ EvClose :: gif_events s3) /\
  (forall (w1 : World Hidden) s1 s3,
     unregister (agent w1) = (Ok tt, s1) ->
     save_playwright_script_path (settings s1) = None \/
     save_playwright_script_path (settings s1) = Some "" ->
     close s1 = (Ok tt, s3) ->
     events_of (finalize w1) = EvUnregister :: EvClose :: gif_events s3) /\
  (forall d1 d2 : list (string * string),
     map fst d1 = map fst d2 -> sensitive_keys (Some d1) = sensitive_keys (Some d2)).
Proof.
  repeat apply conj.
  - intros s o w1 t1 Hreg Htry Ho.
    unfold run, events_of, bind, call, try_finally. rewrite Hreg, Htry.
    destruct o as [hist|e|]; [| |done];
      destruct (finalize w1) as [[[[]|e2|] w2] t2]; reflexivity.
  - intros w1. unfold finalize, events_of, bind at 1, call at 1.
    destruct (unregister (agent w1)) as [[[]|e] s1]; [|by eexists].
    match goal with |- context [match ?x with _ => _ end] => destruct x as [[o2 w2] t2] end.
    by eexists.
  - intros w1 s1 s2 s3 p r2 Hun Hpath Hp Hsave Hexn Hclose.
    apply String.eqb_neq in Hp. unfold finalize.
    rewrite (events_bind_ret _ _ _ _ _ _ (call_ok _ _ _ _ _ Hun)).
    erewrite (events_bind_ret (get _)) by reflexivity.
    cbn [agent set_agent app]. rewrite Hpath, Hp.
    destruct r2 as [[]|e].
    + erewrite events_bind_ret.
      2:{ unfold bind, log, emit, try_except, get, call. cbn [agent set_agent].
          rewrite Hsave. reflexivity. }
      by rewrite (finalize_tail _ s3) by exact Hclose.
    + erewrite events_bind_ret.
      2:{ unfold bind, log, emit, try_except, get, call. cbn [agent set_agent].
          rewrite Hsave. unfold except_Exception. rewrite (Hexn e eq_refl).
          reflexivity. }
      by rewrite (finalize_tail _ s3) by exact Hclose.
  - intros w1 s1 s3 Hun Hpath Hclose. unfold finalize.
    rewrite (events_bind_ret _ _ _ _ _ _ (call_ok _ _ _ _ _ Hun)).
    erewrite (events_bind_ret (get _)) by reflexivity.
    cbn [agent set_agent app].
    destruct Hpath as [-> | ->]; cbn [String.eqb];
      (erewrite (events_bind_ret (ret _)) by reflexivity);
      by rewrite (finalize_tail _ s3) by exact Hclose.
  - apply sensitive_keys_names.
Qed.


(** ** A run in a steady process *)

Lemma post_and {A} (m : M A) w (Q1 Q2 : Outcome A -> World Hidden -> list Event -> Prop) :
  post m w Q1 -> post m w Q2 -> post m w (fun o w1 t => Q1 o w1 t /\ Q2 o w1 t).
Proof. unfold post. destruct (m w) as [[o w1] t]. auto. Qed.

Lemma same_store_refl w : same_store w w.
Proof. by repeat split. Qed.

Lemma same_store_trans w1 w2 w3 :
  same_store w1 w2 -> same_store w2 w3 -> same_store w1 w3.
Proof. unfold same_store. intros (-> & -> & ->) (-> & -> & ->). done. Qed.

Lemma same_store_set_agent w s : same_store w (set_agent s w).
Proof. by repeat split. Qed.

Lemma cache_complete_same_store w w1 :
  same_store w w1 -> cache_complete w -> cache_complete w1.
Proof.
  intros (Hh & He & Hl). unfold cache_complete, deref, settings_of, environ_get.
  by rewrite Hh, He, Hl.
Qed.

Create HintDb steady.
Hint Resolve same_store_refl same_store_set_agent : steady.

Lemma apply_delay_steady Inv h1 h2 c w :
  steady Inv h1 h2 -> Inv (agent w) -> cache_complete w -> c ∈ delay_types ->
  post (_apply_delay c) w (fun o w1 _ =>
    o = Ret tt /\ Inv (agent w1) /\ same_store w w1).
Proof.
  intros Hst Hinv Hcache Hc.
  pose proof (cache_complete_entry w c Hcache Hc) as Hd.
  destruct (settings_of_keys w c) as (Her & Hv & Hmin & Hmax).
  assert (Hsleep : forall q (w' : World Hidden), agent w' = agent w -> same_store w w' ->
            post (sleep q) w' (fun o w1 _ => o = Ret tt /\ Inv (agent w1) /\ same_store w w1)).
  { intros q w' Hag Hsame. destruct (steady_sleep _ _ _ Hst q (agent w) Hinv) as (s' & Hs & Hinv').
    rewrite <- Hag in Hs. apply post_sleep.
    - intros s Hs2. rewrite Hs in Hs2. injection Hs2 as <-.
      split; [done|]. split; [done|].
      eapply same_store_trans; [exact Hsame|apply same_store_set_agent].
    - intros e s Hs2. rewrite Hs in Hs2. discriminate. }
  unfold _apply_delay, delay_with_settings. repeat wp. apply post_cache_get. rewrite Hd. cbn beta iota.
  rewrite (nonempty_dict _ _ _ Her).
  unfold getitem. rewrite Her, Hv, Hmin, Hmax. repeat wp.
  destruct (truthy _).
  - repeat wp.
    apply post_float; [intros a _|intros _; cbn [except_ValueError]; wp; auto with steady].
    wp.
    apply post_float; [intros b _|intros _; cbn [except_ValueError]; wp; auto with steady].
    cbn zeta. destruct (PrimFloat.ltb 0 _); [|wp; auto with steady].
    wp. unfold post at 1, random_uniform. cbn beta iota. repeat wp.
    eapply post_conseq; [apply Hsleep; [reflexivity|by repeat split]|].
    intros o w1 t H. destruct H as (-> & Hi & Hs). auto.
  - repeat wp.
    apply post_float; [intros m _|intros _; cbn [except_ValueError]; wp; auto with steady].
    destruct (PrimFloat.ltb 0 m); [|wp; auto with steady].
    cbn zeta. repeat wp.
    eapply post_conseq; [apply Hsleep; [reflexivity|apply same_store_refl]|].
    intros o w1 t H. destruct H as (-> & Hi & Hs). auto.
Qed.

Lemma post_call_returns {A} (x : Ext A) ev w (P : AgentState Hidden -> Prop) a Q :
  (exists s', x (agent w) = (Ok a, s') /\ P s') ->
  (forall s', P s' -> Q (Ret a) (set_agent s' w) [ev (Ok a)]) ->
  post (call x ev) w Q.
Proof.
  intros (s' & Hx & Hs') HQ. unfold post. rewrite (call_ok _ _ _ _ _ Hx). auto.
Qed.

Lemma run_hook_steady Inv hook ev w :
  (forall f s, hook = Some f -> Inv s -> exists s', f s = (Ok tt, s') /\ Inv s') ->
  Inv (agent w) ->
  post (run_hook hook ev) w (fun o w1 _ =>
    o = Ret tt /\ Inv (agent w1) /\ same_store w w1).
Proof.
  intros Hhook Hinv. destruct hook as [f|]; cbn [run_hook].
  - eapply post_call_returns; [by apply Hhook|].
    intros s' Hs'. auto with steady.
  - wp. auto with steady.
Qed.

Lemma pause_wait_not_paused fuel w :
  paused (agent w) = false -> pause_wait fuel w = (Ret tt, w, []).
Proof.
  intros Hp. destruct fuel; cbn [pause_wait]; unfold bind, get; rewrite Hp; reflexivity.
Qed.

Lemma run_step_steady Inv h1 h2 fuel max_steps i w :
  steady Inv h1 h2 -> Inv (agent w) -> cache_complete w ->
  post (run_step fuel max_steps h1 h2 i) w (fun o w1 _ =>
    o = Ret Next /\ Inv (agent w1) /\ same_store w w1).
Proof.
  intros Hst Hinv Hcache.
  destruct (steady_flags _ _ _ Hst _ Hinv) as (Hp & Hs & Hf & _ & _).
  apply Z.leb_gt in Hf.
  unfold run_step, wait_if_paused. repeat wp. rewrite Hp. repeat wp.
  rewrite Hf. repeat wp. rewrite Hs. wp.
  unfold post at 1. rewrite (pause_wait_not_paused _ _ Hp). cbn beta iota.
  wp. eapply post_conseq;
    [apply (run_hook_steady Inv); [apply (steady_on_step_start _ _ _ Hst)|exact Hinv]|].
  intros o w1 t1 (-> & Hinv1 & Hsame1).
  pose proof (cache_complete_same_store _ _ Hsame1 Hcache) as Hcache1.
  wp. eapply post_conseq;
    [eapply apply_delay_steady; [exact Hst|exact Hinv1|exact Hcache1|apply list_elem_of_here]|].
  intros o w2 t2 (-> & Hinv2 & Hsame2).
  pose proof (cache_complete_same_store _ _ Hsame2 Hcache1) as Hcache2.
  wp.
  assert (Htask : post (if Nat.eqb i 0 then _apply_delay "TASK" else ret tt) w2
            (fun o w3 _ => o = Ret tt /\ Inv (agent w3) /\ same_store w2 w3)).
  { destruct (Nat.eqb i 0).
    - eapply apply_delay_steady; [exact Hst|exact Hinv2|exact Hcache2|].
      unfold delay_types. rewrite !elem_of_cons. auto.
    - wp. auto with steady. }
  eapply post_conseq; [exact Htask|]. clear Htask.
  intros o w3 t3 (-> & Hinv3 & Hsame3).
  wp. eapply post_call_returns; [apply (steady_step _ _ _ Hst), Hinv3|].
  intros s4 Hinv4.
  wp. eapply post_conseq;
    [apply (run_hook_steady Inv); [apply (steady_on_step_end _ _ _ Hst)|exact Hinv4]|].
  intros o w5 t5 (-> & Hinv5 & Hsame5).
  destruct (steady_flags _ _ _ Hst _ Hinv5) as (_ & _ & _ & Hdone & _).
  repeat wp. rewrite Hdone. wp.
  split; [done|]. split; [done|].
  eapply same_store_trans; [exact Hsame1|].
  eapply same_store_trans; [exact Hsame2|].
  eapply same_store_trans; [exact Hsame3|].
  eapply same_store_trans; [apply same_store_set_agent|exact Hsame5].
Qed.

Lemma run_loop_steady Inv h1 h2 fuel max_steps steps w :
  steady Inv h1 h2 -> Inv (agent w) -> cache_complete w ->
  post (run_loop fuel max_steps h1 h2 steps) w (fun o w1 _ =>
    o = Ret Exhausted /\ Inv (agent w1) /\ same_store w w1).
Proof.
  intros Hst. revert w. induction steps as [|i later IH]; intros w Hinv Hcache;
    cbn [run_loop].
  - wp. auto with steady.
  - wp. eapply post_conseq; [by apply (run_step_steady Inv)|].
    intros o w1 t1 (-> & Hinv1 & Hsame1).
    eapply post_conseq;
      [apply IH; [exact Hinv1|by apply (cache_complete_same_store w)]|].
    intros o w2 t2 (-> & Hinv2 & Hsame2).
    split; [done|]. split; [done|]. by eapply same_store_trans.
Qed.

Lemma count_steps_pacing t : count_steps (pacing t) = count_steps t.
Proof.
  induction t as [|e t IH]; cbn; [done|].
  destruct e; cbn; try done; try (by rewrite IH).
  by destruct (_ || _).
Qed.

Lemma count_steps_turns max_steps steps :
  count_steps (flat_map (turn_pacing max_steps) steps) = length steps.
Proof.
  induction steps as [|i later IH]; cbn [flat_map length]; [done|].
  rewrite count_steps_app, IH. unfold turn_pacing.
  by destruct (Nat.eqb i 0).
Qed.

Lemma run_try_steady Inv h1 h2 fuel max_steps w :
  steady Inv h1 h2 -> Inv (agent w) -> cache_complete w ->
  post (run_try fuel max_steps h1 h2) w (fun o w2 t =>
    exists hist,
      o = Ret (hist ++ [failure_record]) /\
      history (agent w2) = hist ++ [failure_record] /\
      count_steps t = Z.to_nat max_steps).
Proof.
  intros Hst Hinv Hcache. unfold run_try, run_prelude. repeat wp.
  eapply post_call_returns; [apply (steady_log_agent_run _ _ _ Hst), Hinv|].
  intros s0 Hinv0.
  destruct (steady_flags _ _ _ Hst _ Hinv0) as (_ & _ & _ & _ & Hinit).
  repeat wp. cbn [agent set_agent]. rewrite Hinit. repeat wp.
  eapply post_conseq.
  { apply post_and.
    - apply (run_loop_steady Inv); [exact Hst|exact Hinv0|].
      by apply (cache_complete_same_store w); [apply same_store_set_agent|].
    - apply run_loop_pacing. }
  intros o w1 t1 [(-> & Hinv1 & _) (_ & _ & Hfull)].
  specialize (Hfull eq_refl).
  unfold run_epilogue. repeat wp.
  exists (history (agent w1)). split; [done|]. split; [done|].
  rewrite !count_steps_app. cbn [count_steps Nat.add].
  rewrite <- (count_steps_pacing t1), Hfull, count_steps_turns, range_length. lia.
Qed.

(** ** The delays of a turn *)

Lemma step_counted i m t : EvStep i m ∈ t -> (1 <= count_steps t)%nat.
Proof.
  induction t as [|e t IH]; intros Hin; [by apply elem_of_nil in Hin|].
  apply elem_of_cons in Hin as [<-|Hin]; [cbn; lia|].
  specialize (IH Hin). destruct e; cbn [count_steps]; lia.
Qed.

(** The pacing of a list of turns that is not empty ends in a step. *)
Lemma turns_end_in_step max_steps steps :
  steps <> [] ->
  exists before i, flat_map (turn_pacing max_steps) steps = before ++ [EvStep i max_steps].
Proof.
  destruct steps as [|i earlier _] using rev_ind; [done|]. intros _.
  rewrite flat_map_app. cbn [flat_map]. rewrite app_nil_r. unfold turn_pacing.
  exists (flat_map (turn_pacing max_steps) earlier
          ++ EvApplyDelay "STEP" :: (if Nat.eqb i 0 then [EvApplyDelay "TASK"] else [])),
         i.
  by rewrite <- !app_assoc.
Qed.

(** A prefix of the pacing of some turns that holds all their steps is
    the whole of it. *)
Lemma prefix_with_all_steps max_steps steps l :
  l `prefix_of` flat_map (turn_pacing max_steps) steps ->
  count_steps l = length steps ->
  l = flat_map (turn_pacing max_steps) steps.
Proof.
  intros [k Hk] Hcount.
  assert (Hzero : count_steps k = 0%nat).
  { pose proof (count_steps_turns max_steps steps) as Hall.
    rewrite Hk, count_steps_app in Hall. lia. }
  destruct k as [|e k _] using rev_ind; [by rewrite Hk, app_nil_r|].
  destruct steps as [|i0 later].
  { by destruct l, k. }
  destruct (turns_end_in_step max_steps (i0 :: later)) as (before & i & Hend); [done|].
  rewrite Hend, app_assoc in Hk. apply app_inj_tail in Hk as [_ <-].
  rewrite count_steps_app in Hzero. cbn in Hzero. lia.
Qed.

Lemma run_try_pacing fuel max_steps h1 h2 w :
  post (run_try fuel max_steps h1 h2) w (fun _ _ t =>
    pacing t `prefix_of` flat_map (turn_pacing max_steps) (range max_steps)).
Proof.
  unfold run_try. wp.
  eapply post_conseq; [apply run_prelude_no_pacing|].
  intros o w1 t1 [Hnt Hnp]. destruct o as [[]|e|]; [| |done].
  2:{ use_facts. apply prefix_nil. }
  wp. eapply post_conseq; [apply run_loop_pacing|].
  intros o w2 t2 (Hpre & _ & _).
  destruct o as [how|e|].
  - eapply post_conseq; [apply run_epilogue_no_pacing|].
    intros o w3 t3 [Hnt3 Hnp3]. use_facts. by rewrite app_nil_r.
  - by use_facts.
  - by use_facts.
Qed.

(** C7.  In any run, the STEP delays, TASK delays and steps occur in
    this order, up to where the run ends: turn 0 is a STEP delay, a TASK
    delay and step 0; every later turn is a STEP delay and its step.
    The delays are applied: a turn that makes its step, or that goes on
    to the next turn, has applied the STEP delay - and on turn 0 the
    TASK delay after it - before the step; a loop that runs out has done
    so in every turn; and in a steady process the run applies the delays
    and makes the steps of all [max_steps] turns. *)
Theorem run_delays_before_steps (fuel : nat) (max_steps : Z)
    (on_step_start on_step_end : option (@Ext Hidden unit)) (w : World Hidden) :
  pacing (events_of (run fuel max_steps on_step_start on_step_end w))
    `prefix_of` flat_map (turn_pacing max_steps) (range max_steps) /\
  turn_pacing max_steps 0
  = [EvApplyDelay "STEP"; EvApplyDelay "TASK"; EvStep 0 max_steps] /\
  (forall i, turn_pacing max_steps (S i)
             = [EvApplyDelay "STEP"; EvStep (S i) max_steps]) /\
  (forall i w0,
     let r := run_step fuel max_steps on_step_start on_step_end i w0 in
     EvStep i max_steps ∈ events_of r \/ outcome_of r = Ret Next ->
     pacing (events_of r) = turn_pacing max_steps i) /\
  (forall w0 w1 t,
     run_loop fuel max_steps on_step_start on_step_end (range max_steps) w0
     = (Ret Exhausted, w1, t) ->
     pacing t = flat_map (turn_pacing max_steps) (range max_steps)) /\
  (forall Inv : AgentState Hidden -> Prop,
     steady Inv on_step_start on_step_end -> Inv (agent w) -> cache_complete w ->
     pacing (events_of (run_try fuel max_steps on_step_start on_step_end w))
     = flat_map (turn_pacing max_steps) (range max_steps)).
Proof.
  split; [|split; [reflexivity|split; [intros i; reflexivity|split; [|split]]]].
  - pose proof (run_pacing_steps fuel max_steps on_step_start on_step_end w) as Hrun.
    apply post_iff in Hrun. apply Hrun.
  - intros i w0 r Hmade.
    pose proof (run_step_pacing fuel max_steps on_step_start on_step_end i w0) as Hturn.
    apply post_iff in Hturn. fold r in Hturn. destruct Hturn as (Hpre & Hle & Hnext).
    destruct Hmade as [Hin|Ho]; [|by apply Hnext].
    apply step_counted in Hin.
    rewrite <- (app_nil_r (turn_pacing max_steps i)).
    apply (prefix_with_all_steps max_steps [i]).
    + cbn [flat_map]. by rewrite app_nil_r.
    + rewrite count_steps_pacing. cbn [length]. lia.
  - intros w0 w1 t Hloop.
    pose proof (run_loop_pacing fuel max_steps on_step_start on_step_end
                  (range max_steps) w0) as Hall.
    unfold post in Hall. rewrite Hloop in Hall. by apply Hall.
  - intros Inv Hst Hinv Hcache.
    pose proof (run_try_steady Inv _ _ fuel max_steps w Hst Hinv Hcache) as Hsteady.
    pose proof (run_try_pacing fuel max_steps on_step_start on_step_end w) as Hpre.
    apply post_iff in Hsteady, Hpre. destruct Hsteady as (hist & _ & _ & Hcount).
    apply prefix_with_all_steps; [exact Hpre|].
    by rewrite count_steps_pacing, Hcount, range_length.
Qed.

(** ** The step budget *)

(** C1, as amended.  A run makes at most [max_steps] steps.  When the
    [for] statement runs out of [range(max_steps)] without a [break], its
    [else] clause appends the failure record, whose error is the
    exhaustion message, as the last record of the history, and the [try]
    body returns that history; when the loop ends by [break] nothing is
    appended.  The value of the [try] body is the value of [run] whenever
    the [finally] clause returns.  In a steady process - never paused,
    stopped, done or over the failure limit, no call raising - and on a
    complete cache, this is what happens, whatever the fuel: the [try]
    body returns, after exactly [max_steps] steps, a history that ends
    with the failure record. *)
Theorem run_step_budget (fuel : nat) (max_steps : Z)
    (on_step_start on_step_end : option (@Ext Hidden unit)) (w : World Hidden) :
  (count_steps (events_of (run fuel max_steps on_step_start on_step_end w))
   <= Z.to_nat max_steps)%nat /\
  (forall w0 t0 w1 t1,
     run_prelude w = (Ret tt, w0, t0) ->
     run_loop fuel max_steps on_step_start on_step_end (range max_steps) w0
     = (Ret Exhausted, w1, t1) ->
     run_try fuel max_steps on_step_start on_step_end w
     = (Ret (history (agent w1) ++ [failure_record]),
        set_agent (history_append failure_record (agent w1)) w1,
        t0 ++ t1 ++ [EvLog INFO (FailedMessage error_message)]) /\
     last (history (agent w1) ++ [failure_record]) = Some failure_record) /\
  (forall w0 t0 w1 t1,
     run_prelude w = (Ret tt, w0, t0) ->
     run_loop fuel max_steps on_step_start on_step_end (range max_steps) w0
     = (Ret Broke, w1, t1) ->
     run_try fuel max_steps on_step_start on_step_end w
     = (Ret (history (agent w1)), w1, t0 ++ t1)) /\
  (forall s hist w2 t2 w3 t3,
     register (agent w) = (Ok tt, s) ->
     run_try fuel max_steps on_step_start on_step_end (set_agent s w) = (Ret hist, w2, t2) ->
     finalize w2 = (Ret tt, w3, t3) ->
     run fuel max_steps on_step_start on_step_end w = (Ret hist, w3, EvRegister :: t2 ++ t3)) /\
  map error (result failure_record) = [Some "Failed to complete task in maximum steps"] /\
  (forall Inv : AgentState Hidden -> Prop,
     steady Inv on_step_start on_step_end -> Inv (agent w) -> cache_complete w ->
     exists hist w2 t,
       run_try fuel max_steps on_step_start on_step_end w
       = (Ret (hist ++ [failure_record]), w2, t) /\
       history (agent w2) = hist ++ [failure_record] /\
       count_steps t = Z.to_nat max_steps).
Proof.
  repeat apply conj.
  - pose proof (run_pacing_steps fuel max_steps on_step_start on_step_end w) as Hrun.
    apply post_iff in Hrun. apply Hrun.
  - intros w0 t0 w1 t1 Hpre Hloop. split; [|apply last_snoc].
    unfold run_try, bind. rewrite Hpre, Hloop. cbn. by rewrite ?app_nil_r.
  - intros w0 t0 w1 t1 Hpre Hloop.
    unfold run_try, bind. rewrite Hpre, Hloop. cbn. by rewrite ?app_nil_r.
  - intros s hist w2 t2 w3 t3 Hreg Htry Hfin.
    unfold run, bind, call, try_finally, try_except. rewrite Hreg, Htry, Hfin.
    reflexivity.
  - reflexivity.
  - intros Inv Hst Hinv Hcache.
    pose proof (run_try_steady Inv _ _ fuel max_steps w Hst Hinv Hcache) as Hpost.
    unfold post in Hpost.
    destruct (run_try fuel max_steps on_step_start on_step_end w) as [[o w2] t].
    destruct Hpost as (hist & -> & Hhist & Hcount). by exists hist, w2, t.
Qed.

(** ** A stop requested during the pause *)

Lemma events_bind_prefix {A X} (m : M A) (f : A -> M X) (w : World Hidden) :
  exists t2, events_of (bind m f w) = events_of (m w) ++ t2.
Proof.
  unfold bind, events_of. destruct (m w) as [[[a|e|] w1] t1]; cbn.
  - destruct (f a w1) as [[o2 w2] t2]. by exists t2.
  - exists []. by rewrite app_nil_r.
  - exists []. by rewrite app_nil_r.
Qed.

(** The busy-wait ends with the sleep during which the stop flag was
    set. *)
Lemma pause_wait_ends_on_stop fuel w s :
  paused (agent w) = true ->
  asyncio_sleep 0.2%float (agent w) = (Ok tt, s) ->
  stopped s = true ->
  pause_wait (S fuel) w = (Ret tt, set_agent s w, [EvSleep 0.2%float]).
Proof.
  intros Hp Hsleep Hs. cbn [pause_wait]. unfold bind, get, sleep, call, ret.
  rewrite Hp, Hsleep. cbn [agent set_agent]. rewrite Hs. reflexivity.
Qed.

(** Were the wait for a resume to come back with the agent still
    paused, the busy-wait would run, and the turn of the loop would go on
    after it: with no hook, the next thing to happen is the STEP delay. *)
Lemma stop_in_pause_turn_goes_on fuel max_steps i w w1 t1 s :
  wait_if_paused w = (Ret tt, w1, t1) ->
  consecutive_failures (agent w1) < max_failures (settings (agent w1)) ->
  stopped (agent w1) = false ->
  paused (agent w1) = true ->
  asyncio_sleep 0.2%float (agent w1) = (Ok tt, s) ->
  stopped s = true ->
  exists t',
    events_of (run_step (S fuel) max_steps None None i w)
    = t1 ++ EvSleep 0.2%float :: EvApplyDelay "STEP" :: t'.
Proof.
  intros Hwait Hf Hs Hp Hsleep Hs'. apply Z.leb_gt in Hf.
  unfold run_step.
  rewrite (events_bind_ret _ _ _ _ _ _ Hwait).
  erewrite (events_bind_ret (get _)) by reflexivity.
  erewrite (events_bind_ret (get _)) by reflexivity.
  cbn [app]. rewrite Hf.
  erewrite (events_bind_ret (get _)) by reflexivity.
  cbn [app]. rewrite Hs.
  rewrite (events_bind_ret _ _ _ _ _ _ (pause_wait_ends_on_stop fuel w1 s Hp Hsleep Hs')).
  erewrite (events_bind_ret (run_hook None _)) by reflexivity.
  cbn [app].
  match goal with
  | |- context [events_of (bind ?m ?f ?x)] =>
      destruct (events_bind_prefix m f x) as [t2 ->];
      pose proof (apply_delay_shape "STEP" x) as Hshape
  end.
  apply post_iff in Hshape. destruct Hshape as (_ & t' & -> & _).
  exists (t' ++ t2). reflexivity.
Qed.


(** ** More on the delay-settings cache *)

Lemma cache_one_same w c m :
  heap w !! delay_settings_cache w = Some m ->
  m !! c = Some (settings_of w c) ->
  cache_one w c = w.
Proof.
  intros Hm Hc. unfold cache_one, set_heap, deref.
  rewrite (lookup_total_correct _ _ _ Hm), (insert_id m) by done.
  rewrite (insert_id (heap w)) by done. by destruct w.
Qed.

Lemma cache_one_heap_entry w c :
  heap (cache_one w c) !! delay_settings_cache w
  = Some (deref (cache_one w c) (delay_settings_cache w)).
Proof.
  unfold deref, cache_one, set_heap; cbn [heap].
  by rewrite lookup_insert_eq, lookup_total_insert_eq.
Qed.

Lemma refresh_heap_entry w :
  heap (fold_left cache_one delay_types w) !! delay_settings_cache w
  = Some (deref (fold_left cache_one delay_types w) (delay_settings_cache w)).
Proof.
  rewrite refresh_unfold.
  exact (cache_one_heap_entry (cache_one (cache_one w "STEP") "ACTION") "TASK").
Qed.

Lemma refresh_twice w :
  fold_left cache_one delay_types (fold_left cache_one delay_types w)
  = fold_left cache_one delay_types w.
Proof.
  set (w' := fold_left cache_one delay_types w).
  assert (Hentry : forall c, c ∈ delay_types -> cache_one w' c = w').
  { intros c Hc. eapply cache_one_same; [exact (refresh_heap_entry w)|].
    unfold w'. by rewrite refresh_entry. }
  rewrite (refresh_unfold w').
  rewrite !Hentry; [done|..]; unfold delay_types; rewrite !elem_of_cons; auto.
Qed.

(** X5.  After an invalidation the settings of STEP, ACTION and TASK
    are decided by the environment alone: two agents in the same
    environment hold the same dictionaries, whatever their caches held
    before. *)
Theorem cache_decided_by_environment (w1 w2 : World Hidden) (c : string) :
  environ w1 = environ w2 -> c ∈ delay_types ->
  deref (world_of (invalidate_delay_cache w1)) (delay_settings_cache w1) !! c
  = deref (world_of (invalidate_delay_cache w2)) (delay_settings_cache w2) !! c.
Proof.
  intros Henv Hc.
  change (world_of (invalidate_delay_cache w1)) with (fold_left cache_one delay_types w1).
  change (world_of (invalidate_delay_cache w2)) with (fold_left cache_one delay_types w2).
  rewrite !refresh_entry by done. f_equal. by apply settings_of_environ.
Qed.

(** X6.  Invalidating twice in a row, with the environment unchanged
    in between, leaves the agent exactly as invalidating once. *)
Theorem invalidate_idempotent (w : World Hidden) :
  world_of (invalidate_delay_cache (world_of (invalidate_delay_cache w)))
  = world_of (invalidate_delay_cache w).
Proof.
  change (world_of (invalidate_delay_cache w)) with (fold_left cache_one delay_types w).
  change (world_of (invalidate_delay_cache (fold_left cache_one delay_types w)))
    with (fold_left cache_one delay_types (fold_left cache_one delay_types w)).
  apply refresh_twice.
Qed.

(** ** More on the delay applier *)

(** The end of a path through the applier, for what it leaves behind. *)
Ltac frame_leaf :=
  cbn [app sleeps length];
  split; [by repeat split|];
  split; [lia|];
  intros Hslept; first [discriminate Hslept|reflexivity].

Lemma apply_delay_frame (c : string) (w : World Hidden) :
  post (_apply_delay c) w (fun _ w1 t =>
    same_store w w1 /\
    (length (sleeps t) <= 1)%nat /\
    (sleeps t = [] -> agent w1 = agent w)).
Proof.
  unfold _apply_delay, delay_with_settings. repeat wp. apply post_cache_get.
  destruct (deref w (delay_settings_cache w) !! c) as [d|]; cbn beta iota;
    [destruct (bool_decide (d = ∅))|]; try (wp; frame_leaf).
  wp. apply post_getitem; [intros er _|intros _; frame_leaf].
  destruct (truthy er).
  - wp. apply post_getitem; [intros vmin _|intros _; frame_leaf].
    wp. apply post_getitem; [intros vmax _|intros _; frame_leaf].
    repeat wp.
    apply post_float; [intros a _|intros _; cbn [except_ValueError]; wp; frame_leaf].
    wp.
    apply post_float; [intros b _|intros _; cbn [except_ValueError]; wp; frame_leaf].
    cbn zeta. destruct (PrimFloat.ltb 0 _).
    + wp. unfold post at 1, random_uniform. cbn beta iota. repeat wp.
      apply post_sleep.
      * intros s _. frame_leaf.
      * intros e s _. destruct e; cbn [except_ValueError]; wp; frame_leaf.
    + wp. frame_leaf.
  - wp. apply post_getitem; [intros v _|intros _; frame_leaf].
    repeat wp.
    apply post_float; [intros m _|intros _; cbn [except_ValueError]; wp; frame_leaf].
    destruct (PrimFloat.ltb 0 m).
    + cbn zeta. repeat wp. apply post_sleep.
      * intros s _. frame_leaf.
      * intros e s _. destruct e; cbn [except_ValueError]; wp; frame_leaf.
    + wp. frame_leaf.
Qed.

(** X7.  Applying a delay never touches the configuration: the
    dictionaries, the environment and the cache attribute are as before.
    It sleeps at most once, and when it does not sleep the agent is left
    as it was. *)
Theorem apply_delay_keeps_configuration (c : string) (w : World Hidden) :
  same_store w (world_of (_apply_delay c w)) /\
  (length (sleeps (events_of (_apply_delay c w))) <= 1)%nat /\
  (sleeps (events_of (_apply_delay c w)) = [] ->
   agent (world_of (_apply_delay c w)) = agent w).
Proof. exact (proj1 (post_iff _ _ _) (apply_delay_frame c w)). Qed.

(** X8.  The applier never raises [ValueError]: one raised by [float]
    or by the sleep itself is caught and logged as an invalid value.
    Anything else the sleep raises - a cancellation, an interrupt - comes
    out of the applier; it is not swallowed. *)
Theorem apply_delay_passes_cancellation (c : string) (w : World Hidden) :
  post (_apply_delay c) w (fun o _ _ => o <> Raise ValueError) /\
  (forall d er v m e s,
     deref w (delay_settings_cache w) !! c = Some d ->
     d !! "enable_random" = Some er -> truthy er = false ->
     d !! "delay_minutes" = Some v -> float_value v = Some m -> PrimFloat.ltb 0 m = true ->
     asyncio_sleep (m * 60) (agent w) = (Err e, s) ->
     _apply_delay c w
     = match e with
       | ValueError =>
           (Ret tt, set_agent s w,
            [EvApplyDelay c; EvLog INFO (WaitingFixedDelay c (m * 60) m);
             EvSleep (m * 60); EvLog WARNING (InvalidFixedValue c v)])
       | _ =>
           (Raise e, set_agent s w,
            [EvApplyDelay c; EvLog INFO (WaitingFixedDelay c (m * 60) m);
             EvSleep (m * 60)])
       end).
Proof.
  split.
  - unfold _apply_delay, delay_with_settings. repeat wp. apply post_cache_get.
    destruct (deref w (delay_settings_cache w) !! c) as [d|]; cbn beta iota;
      [destruct (bool_decide (d = ∅))|]; try (wp; discriminate).
    wp. apply post_getitem; [intros er _|intros _; discriminate].
    destruct (truthy er).
    + wp. apply post_getitem; [intros vmin _|intros _; discriminate].
      wp. apply post_getitem; [intros vmax _|intros _; discriminate].
      repeat wp.
      apply post_float; [intros a _|intros _; cbn [except_ValueError]; wp; discriminate].
      wp.
      apply post_float; [intros b _|intros _; cbn [except_ValueError]; wp; discriminate].
      cbn zeta. destruct (PrimFloat.ltb 0 _); [|wp; discriminate].
      wp. unfold post at 1, random_uniform. cbn beta iota. repeat wp.
      apply post_sleep; [intros s _; discriminate|].
      intros e s _. destruct e; cbn [except_ValueError]; wp; discriminate.
    + wp. apply post_getitem; [intros v _|intros _; discriminate].
      repeat wp.
      apply post_float; [intros m _|intros _; cbn [except_ValueError]; wp; discriminate].
      destruct (PrimFloat.ltb 0 m); [|wp; discriminate].
      cbn zeta. repeat wp. apply post_sleep; [intros s _; discriminate|].
      intros e s _. destruct e; cbn [except_ValueError]; wp; discriminate.
  - intros d er v m e s Hd Her Ht Hv Hf Hm Hsleep.
    enter_apply_delay Hd Her Ht. rewrite Hv; cbn beta iota. rewrite Hf; cbn beta iota.
    rewrite Hm. cbn beta iota zeta.
    unfold sleep, call. rewrite Hsleep.
    destruct e; reflexivity.
Qed.

(** X9.  A cache entry that is an empty dictionary counts as missing:
    a warning, no delay.  An entry that has keys but not [enable_random]
    makes the applier raise [KeyError] before anything is slept, and so
    does a fixed-delay entry without [delay_minutes]. *)
Theorem apply_delay_partial_entry (c : string) (w : World Hidden) (d : gmap string PyVal) :
  deref w (delay_settings_cache w) !! c = Some d ->
  (d = ∅ ->
   _apply_delay c w = (Ret tt, w, [EvApplyDelay c; EvLog WARNING (NoCachedSettings c)])) /\
  (d <> ∅ -> d !! "enable_random" = None ->
   _apply_delay c w = (Raise (KeyError "enable_random"), w, [EvApplyDelay c])) /\
  (forall er, d !! "enable_random" = Some er -> truthy er = false ->
   d !! "delay_minutes" = None ->
   _apply_delay c w = (Raise (KeyError "delay_minutes"), w, [EvApplyDelay c])).
Proof.
  intros Hd. repeat split.
  - intros ->. unfold _apply_delay, delay_with_settings, bind, emit, cache_get, log, emit.
    rewrite Hd. reflexivity.
  - intros Hne Her.
    unfold _apply_delay, delay_with_settings, bind, emit, cache_get, getitem, raise.
    rewrite Hd; cbn beta iota.
    rewrite (bool_decide_eq_false_2 _ Hne); cbn beta iota.
    rewrite Her. reflexivity.
  - intros er Her Ht Hv. enter_apply_delay Hd Her Ht. rewrite Hv. reflexivity.
Qed.


(** ** More on the paced action executor *)

Lemma bind_assoc {A X Y} (m : M A) (f : A -> M X) (g : X -> M Y) (w : World Hidden) :
  bind (bind m f) g w = bind m (fun a => bind (f a) g) w.
Proof.
  unfold bind. destruct (m w) as [[[a|e|] w1] t1]; try reflexivity.
  destruct (f a w1) as [[[x|e|] w2] t2]; try reflexivity.
  destruct (g x w2) as [[o3 w3] t3]. by rewrite app_assoc.
Qed.

Lemma bind_ext {A X} (m : M A) (f g : A -> M X) (w : World Hidden) :
  (forall a w1, f a w1 = g a w1) -> bind m f w = bind m g w.
Proof.
  intros Hfg. unfold bind. destruct (m w) as [[[a|e|] w1] t1]; try reflexivity.
  by rewrite Hfg.
Qed.

Lemma bind_ret_l {A X} (a : A) (f : A -> M X) (w : World Hidden) :
  bind (ret a) f w = f a w.
Proof. unfold bind, ret. by destruct (f a w) as [[o w1] t]. Qed.

Lemma multi_act_rest_app r1 r2 check results (w : World Hidden) :
  multi_act_rest (r1 ++ r2) check results w
  = bind (multi_act_rest r1 check results) (fun rs => multi_act_rest r2 check rs) w.
Proof.
  revert results w. induction r1 as [|a r1 IH]; intros results w; cbn [app multi_act_rest].
  - by rewrite bind_ret_l.
  - rewrite bind_assoc. apply bind_ext. intros _ w1.
    rewrite bind_assoc. apply bind_ext. intros next w2. apply IH.
Qed.

Lemma multi_act_app_rest (first : ActionModel) r1 r2 check (w : World Hidden) :
  multi_act (first :: r1 ++ r2) check w
  = bind (multi_act (first :: r1) check) (fun rs => multi_act_rest r2 check rs) w.
Proof.
  cbn [multi_act]. rewrite bind_assoc. apply bind_ext. intros results w1.
  apply multi_act_rest_app.
Qed.

(** X10.  When an action of a batch raises, the actions after it are
    never attempted: the batch with any further actions appended does the
    same and raises the same. *)
Theorem multi_act_stops_at_failure (first : ActionModel) (r1 r2 : list ActionModel)
    (check : bool) (w w1 : World Hidden) (e : exn) (t : list Event) :
  multi_act (first :: r1) check w = (Raise e, w1, t) ->
  multi_act (first :: r1 ++ r2) check w = (Raise e, w1, t).
Proof.
  intros Hraise. rewrite multi_act_app_rest. unfold bind. by rewrite Hraise.
Qed.

Lemma same_store_deref (w w1 : World Hidden) :
  same_store w w1 -> deref w1 (delay_settings_cache w1) = deref w (delay_settings_cache w).
Proof. intros (Hh & _ & Hl). unfold deref. by rewrite Hh, Hl. Qed.

Lemma apply_delay_fixed_sleep c (w : World Hidden) d er v m :
  deref w (delay_settings_cache w) !! c = Some d ->
  d !! "enable_random" = Some er -> truthy er = false ->
  d !! "delay_minutes" = Some v -> float_value v = Some m -> PrimFloat.ltb 0 m = true ->
  post (_apply_delay c) w (fun o w1 t =>
    o <> Timeout /\ sleeps t = [PrimFloat.mul m 60] /\ same_store w w1).
Proof.
  intros Hd Her Ht Hv Hf Hm.
  eapply post_conseq; [apply post_and; [apply post_and|]|].
  - apply apply_delay_shape.
  - apply apply_delay_frame.
  - apply post_iff.
    instantiate (1 := fun _ _ t => sleeps t = [PrimFloat.mul m 60]). cbn beta.
    enter_apply_delay Hd Her Ht. rewrite Hv; cbn beta iota. rewrite Hf; cbn beta iota.
    rewrite Hm. cbn beta iota zeta. sleep_cases.
  - intros o w1 t [[(Hnt & _) (Hsame & _)] Hs]. auto.
Qed.

Lemma multi_act_rest_fixed_sleeps rest check results (w : World Hidden) d er v m :
  deref w (delay_settings_cache w) !! "ACTION" = Some d ->
  d !! "enable_random" = Some er -> truthy er = false ->
  d !! "delay_minutes" = Some v -> float_value v = Some m -> PrimFloat.ltb 0 m = true ->
  post (multi_act_rest rest check results) w (fun o _ t =>
    forall rs, o = Ret rs -> sleeps t = replicate (length rest) (PrimFloat.mul m 60)).
Proof.
  intros Hd Her Ht Hv Hf Hm. revert results w Hd.
  induction rest as [|a rest IH]; intros results w Hd; cbn [multi_act_rest].
  - wp. reflexivity.
  - wp. eapply post_conseq; [by eapply apply_delay_fixed_sleep|].
    intros o w1 t1 (Hnt & Hs1 & Hsame).
    destruct o as [[]|e|]; [|discriminate|done].
    wp. apply post_call; [|intros e s _ rs; discriminate].
    intros next s _. eapply post_conseq.
    { apply IH. change (deref (set_agent s w1) (delay_settings_cache (set_agent s w1)))
        with (deref w1 (delay_settings_cache w1)).
      by rewrite (same_store_deref _ _ Hsame). }
    intros o w2 t2 Hrest rs Hrs. cbn beta.
    rewrite !sleeps_app, Hs1, (Hrest rs Hrs). reflexivity.
Qed.

(** X11.  With a fixed ACTION delay of [m > 0] minutes, a batch of [n]
    actions that returns has slept [n - 1] times, [m * 60] seconds each
    time, and never before the first action. *)
Theorem multi_act_fixed_delay_total (actions : list ActionModel) (check : bool)
    (w : World Hidden) (d : gmap string PyVal) (er v : PyVal) (m : PrimFloat.float) :
  deref w (delay_settings_cache w) !! "ACTION" = Some d ->
  d !! "enable_random" = Some er -> truthy er = false ->
  d !! "delay_minutes" = Some v -> float_value v = Some m -> PrimFloat.ltb 0 m = true ->
  forall rs, outcome_of (multi_act actions check w) = Ret rs ->
    sleeps (events_of (multi_act actions check w))
    = replicate (length actions - 1) (PrimFloat.mul m 60).
Proof.
  intros Hd Her Ht Hv Hf Hm. apply (post_iff (multi_act actions check) w
    (fun o _ t => forall rs, o = Ret rs ->
       sleeps t = replicate (length actions - 1) (PrimFloat.mul m 60))).
  destruct actions as [|first rest]; cbn [multi_act].
  - wp. reflexivity.
  - wp. apply post_call; [|intros e s _ rs; discriminate].
    intros results s _. eapply post_conseq.
    { eapply (multi_act_rest_fixed_sleeps rest check results (set_agent s w));
        [exact Hd|exact Her|exact Ht|exact Hv|exact Hf|exact Hm]. }
    intros o w2 t2 Hrest rs Hrs.
    replace (length (first :: rest) - 1)%nat with (length rest) by (cbn [length]; lia).
    by apply (Hrest rs).
Qed.


(** ** The ways out of [run] *)

Lemma bind_ret_eq {A X} (m : M A) (f : A -> M X) (w w1 : World Hidden) a t1 :
  m w = (Ret a, w1, t1) ->
  bind m f w = match f a w1 with (o, w2, t2) => (o, w2, t1 ++ t2) end.
Proof. intros Hm. unfold bind. by rewrite Hm. Qed.

Lemma bind_raise_eq {A X} (m : M A) (f : A -> M X) (w w1 : World Hidden) e t1 :
  m w = (Raise e, w1, t1) -> bind m f w = (Raise e, w1, t1).
Proof. intros Hm. unfold bind. by rewrite Hm. Qed.

(** X12.  [signal_handler.register()] is called before the [try]
    statement: when it raises, [run] raises the same exception at once,
    and neither the loop nor the [finally] clause runs. *)
Theorem run_register_failure (fuel : nat) (max_steps : Z)
    (on_step_start on_step_end : option (@Ext Hidden unit))
    (w : World Hidden) (e : exn) (s : AgentState Hidden) :
  register (agent w) = (Err e, s) ->
  run fuel max_steps on_step_start on_step_end w
  = (Raise e, set_agent s w, [EvRegister]).
Proof.
  intros Hreg. unfold run.
  by rewrite (bind_raise_eq _ _ _ _ _ _ (call_err _ _ _ _ _ Hreg)).
Qed.

(** X13.  When the body of the [try] statement raises and the [finally]
    clause returns: a [KeyboardInterrupt] is logged and [run] returns
    the history as it is at that moment; any other exception is raised
    by [run], after the [finally] clause, without that log record. *)
Theorem run_exception_paths (fuel : nat) (max_steps : Z)
    (on_step_start on_step_end : option (@Ext Hidden unit))
    (w w1 w2 : World Hidden) (s : AgentState Hidden) (e : exn) (t1 t2 : list Event) :
  register (agent w) = (Ok tt, s) ->
  run_try fuel max_steps on_step_start on_step_end (set_agent s w) = (Raise e, w1, t1) ->
  finalize w1 = (Ret tt, w2, t2) ->
  run fuel max_steps on_step_start on_step_end w
  = match e with
    | KeyboardInterrupt =>
        (Ret (history (agent w1)), w2,
         EvRegister :: t1 ++ EvLog INFO GotKeyboardInterrupt :: t2)
    | _ => (Raise e, w2, EvRegister :: t1 ++ t2)
    end.
Proof.
  intros Hreg Htry Hfin. unfold run.
  rewrite (bind_ret_eq _ _ _ _ _ _ (call_ok _ _ _ _ _ Hreg)).
  unfold try_finally, try_except. rewrite Htry.
  destruct e; cbn [except_KeyboardInterrupt]; unfold bind, log, emit, get, raise;
    cbn beta iota; rewrite Hfin; cbn [app]; rewrite ?app_nil_r, <- ?app_assoc; reflexivity.
Qed.

(** X14.  An exception of the [finally] clause replaces the outcome of
    the [try] statement: whatever history was about to be returned, or
    whatever exception was on its way, [run] raises what the
    finalisation raised. *)
Theorem finalize_failure_replaces_outcome (fuel : nat) (max_steps : Z)
    (on_step_start on_step_end : option (@Ext Hidden unit))
    (w w1 w2 : World Hidden) (s : AgentState Hidden)
    (o : Outcome (list AgentHistory)) (e : exn) (t1 t2 : list Event) :
  register (agent w) = (Ok tt, s) ->
  try_except (run_try fuel max_steps on_step_start on_step_end)
    except_KeyboardInterrupt (set_agent s w) = (o, w1, t1) ->
  o <> Timeout ->
  finalize w1 = (Raise e, w2, t2) ->
  run fuel max_steps on_step_start on_step_end w
  = (Raise e, w2, EvRegister :: t1 ++ t2).
Proof.
  intros Hreg Htry Ho Hfin. unfold run.
  rewrite (bind_ret_eq _ _ _ _ _ _ (call_ok _ _ _ _ _ Hreg)).
  unfold try_finally. rewrite Htry.
  destruct o as [hist|e0|]; [| |done]; rewrite Hfin; reflexivity.
Qed.

(** X15.  The [finally] clause has no handler of its own but the one
    around the script export.  When unregistering raises, nothing else
    of it runs; when the export raises something that is no [Exception]
    (a [KeyboardInterrupt], a cancellation), [close] is not called; when
    [close] raises, no GIF is made. *)
Theorem finalize_failure_paths (w : World Hidden) :
  (forall e s,
     unregister (agent w) = (Err e, s) ->
     finalize w = (Raise e, set_agent s w, [EvUnregister])) /\
  (forall s1 p e s2,
     unregister (agent w) = (Ok tt, s1) ->
     save_playwright_script_path (settings s1) = Some p -> p <> "" ->
     save_as_playwright_script p (sensitive_keys (sensitive_data s1)) s1 = (Err e, s2) ->
     is_Exception e = false ->
     finalize w
     = (Raise e, set_agent s2 w,
        [EvUnregister; EvLog INFO (SavingScript p);
         EvSaveScript p (sensitive_keys (sensitive_data s1))])) /\
  (forall s1 e s3,
     unregister (agent w) = (Ok tt, s1) ->
     save_playwright_script_path (settings s1) = None \/
     save_playwright_script_path (settings s1) = Some "" ->
     close s1 = (Err e, s3) ->
     finalize w = (Raise e, set_agent s3 w, [EvUnregister; EvClose])).
Proof.
  split; [|split].
  - intros e s Hun. unfold finalize.
    by rewrite (bind_raise_eq _ _ _ _ _ _ (call_err _ _ _ _ _ Hun)).
  - intros s1 p e s2 Hun Hpath Hp Hsave Hexn.
    apply String.eqb_neq in Hp. unfold finalize.
    rewrite (bind_ret_eq _ _ _ _ _ _ (call_ok _ _ _ _ _ Hun)).
    unfold bind, get, log, emit, try_except, call, except_Exception, raise.
    cbn [agent set_agent]. rewrite Hpath, Hp. cbn [agent set_agent].
    rewrite Hsave, Hexn. reflexivity.
  - intros s1 e s3 Hun Hpath Hclose. unfold finalize.
    rewrite (bind_ret_eq _ _ _ _ _ _ (call_ok _ _ _ _ _ Hun)).
    unfold bind, get, ret, call. cbn [agent set_agent].
    destruct Hpath as [-> | ->]; cbn [String.eqb agent set_agent];
      rewrite Hclose; reflexivity.
Qed.

(** X16.  In every finalisation that returns, [close] was called; and a
    GIF is only ever made as the last thing, right after the call of
    [close]. *)
Theorem finalize_closes_before_gif (w : World Hidden) :
  post finalize w (fun o _ t =>
    o <> Timeout /\
    (o = Ret tt -> EvClose ∈ t) /\
    (forall p, EvCreateGif p ∈ t -> exists t0, t = t0 ++ [EvClose; EvCreateGif p])).
Proof.
  assert (Hrest : forall w' pre, (forall p, EvCreateGif p ∉ pre) ->
    post (bind (call close (fun _ => EvClose))
            (fun _ => bind (get (fun a => generate_gif (settings a)))
               (fun gif => if truthy gif
                  then call (create_history_gif (output_path_of gif))
                         (fun _ => EvCreateGif (output_path_of gif))
                  else ret tt))) w'
      (fun o _ t =>
         o <> Timeout /\ (o = Ret tt -> EvClose ∈ pre ++ t) /\
         (forall p, EvCreateGif p ∈ pre ++ t ->
            exists t0, pre ++ t = t0 ++ [EvClose; EvCreateGif p]))).
  { intros w' pre Hpre. wp. apply post_call.
    - intros [] s' _. repeat wp. destruct (truthy _).
      + apply post_call; intros; cbn [app];
          (split; [discriminate|]); (split; [intros _; set_solver|]);
          intros p Hin; exists pre;
          apply elem_of_app in Hin as [Hin|Hin]; [by apply Hpre in Hin| |by apply Hpre in Hin|];
          set_unfold; destruct Hin as [Hin|[Hin|[]]]; try discriminate;
          by injection Hin as ->.
      + wp. cbn [app]. split; [discriminate|]. split; [intros _; set_solver|].
        intros p Hin. apply elem_of_app in Hin as [Hin|Hin]; [by apply Hpre in Hin|].
        set_unfold. destruct Hin as [Hin|[]]. discriminate.
    - intros e s' _. split; [discriminate|]. split; [discriminate|].
      intros p Hin. apply elem_of_app in Hin as [Hin|Hin]; [by apply Hpre in Hin|].
      set_unfold. destruct Hin as [Hin|[]]. discriminate. }
  assert (Hnone : forall pre : list Event,
            Forall (fun ev => forall p, ev <> EvCreateGif p) pre ->
            forall p, EvCreateGif p ∉ pre).
  { intros pre Hall p Hin. rewrite Forall_forall in Hall. by apply (Hall _ Hin p). }
  unfold finalize. wp. apply post_call.
  2:{ intros e s _. split; [discriminate|]. split; [discriminate|].
      intros p Hin. set_unfold. destruct Hin as [Hin|[]]. discriminate. }
  intros [] s _. repeat wp.
  destruct (save_playwright_script_path _) as [p|].
  - destruct (String.eqb p "").
    + wp. eapply post_conseq; [apply (Hrest _ [EvUnregister])|].
      { apply Hnone. repeat constructor; discriminate. }
      intros o w1 t1 H. exact H.
    + repeat wp. apply post_call.
      * intros [] s' _.
        eapply post_conseq;
          [apply (Hrest _ [EvUnregister; EvLog INFO (SavingScript p);
                           EvSaveScript p (sensitive_keys (sensitive_data s))])|].
        { apply Hnone. repeat constructor; discriminate. }
        intros o w1 t1 H. exact H.
      * intros e s' _. unfold except_Exception. destruct (is_Exception e).
        -- wp.
           eapply post_conseq;
             [apply (Hrest _ [EvUnregister; EvLog INFO (SavingScript p);
                              EvSaveScript p (sensitive_keys (sensitive_data s));
                              EvLog ERROR (FailedToSaveScript e)])|].
           { apply Hnone. repeat constructor; discriminate. }
           intros o w1 t1 H. exact H.
        -- wp. split; [discriminate|]. split; [discriminate|].
           intros q Hin. set_unfold. destruct Hin as [Hin|[Hin|[Hin|[]]]]; discriminate.
  - wp. eapply post_conseq; [apply (Hrest _ [EvUnregister])|].
    { apply Hnone. repeat constructor; discriminate. }
    intros o w1 t1 H. exact H.
Qed.

(** X17.  With [max_steps <= 0] the loop has no turn: once the initial
    actions are done, the [else] clause appends the failure record right
    away, so the run makes no step and applies no STEP or TASK delay,
    and what it is about to return ends in that record. *)
Theorem run_nonpositive_budget (fuel : nat) (max_steps : Z)
    (on_step_start on_step_end : option (@Ext Hidden unit)) (w : World Hidden) :
  max_steps <= 0 ->
  post (run_try fuel max_steps on_step_start on_step_end) w (fun o w1 t =>
    o <> Timeout /\ pacing t = [] /\
    forall hist, o = Ret hist ->
      last hist = Some failure_record /\ history (agent w1) = hist /\
      last t = Some (EvLog INFO (FailedMessage error_message))).
Proof.
  intros Hle. unfold run_try, range.
  replace (Z.to_nat max_steps) with 0%nat by lia. cbn [seq].
  wp. eapply post_conseq; [apply run_prelude_no_pacing|].
  intros o w1 t1 [Hnt Hnp]. apply no_pacing_nil_pacing in Hnp as [Hp _].
  destruct o as [[]|e|]; [| |done].
  2:{ split; [discriminate|]. split; [done|discriminate]. }
  cbn [run_loop]. unfold run_epilogue. repeat wp.
  split; [discriminate|]. rewrite pacing_app, Hp. split; [reflexivity|].
  intros hist [= <-]. cbn [agent set_agent history history_append app].
  split; [apply last_snoc|]. split; [reflexivity|].
  cbn [app]. rewrite ?app_nil_r. apply last_snoc.
Qed.

(** X18.  When the check at the top of a turn finds the agent below the
    failure limit and the stop flag set, the loop logs it and ends by
    [break]: no hook is called, no delay applied, no step made, and the
    later turns are not run. *)
Theorem stop_flag_at_loop_top (fuel : nat) (max_steps : Z)
    (on_step_start on_step_end : option (@Ext Hidden unit))
    (i : nat) (later : list nat) (w w1 : World Hidden) (t1 : list Event) :
  wait_if_paused w = (Ret tt, w1, t1) ->
  consecutive_failures (agent w1) < max_failures (settings (agent w1)) ->
  stopped (agent w1) = true ->
  run_loop fuel max_steps on_step_start on_step_end (i :: later) w
  = (Ret Broke, w1, t1 ++ [EvLog INFO AgentStopped]).
Proof.
  intros Hw Hlt Hstop. apply Z.leb_gt in Hlt.
  cbn [run_loop]. unfold run_step, bind, get, log, emit, ret.
  rewrite Hw. cbn beta iota. rewrite Hlt, Hstop. cbn [app]. by rewrite !app_nil_r.
Qed.

(** ** The wait while paused *)

Ltac polling_leaf :=
  cbn [app length replicate agent set_agent];
  split; [reflexivity|]; split; [lia|]; split; [auto with steady|];
  split; [intros Ho; first [discriminate Ho|auto]|];
  split; [intros Ho; first [discriminate Ho|split; [reflexivity|assumption]]|];
  intros e0 Ho; first [discriminate Ho|discriminate].

Lemma pause_wait_polling fuel (w : World Hidden) :
  post (pause_wait fuel) w (fun o w1 t =>
    t = replicate (length t) (EvSleep 0.2%float) /\
    (length t <= fuel)%nat /\
    same_store w w1 /\
    (o = Ret tt -> paused (agent w1) = false \/ stopped (agent w1) = true) /\
    (o = Timeout -> length t = fuel /\ paused (agent w1) = true) /\
    (forall e, o = Raise e -> t <> [])).
Proof.
  revert w. induction fuel as [|fuel IH]; intros w; cbn [pause_wait]; repeat wp.
  - destruct (paused (agent w)) eqn:Hp; [apply post_timeout|wp]; polling_leaf.
  - destruct (paused (agent w)) eqn:Hp; [|wp; polling_leaf].
    wp. apply post_sleep; [|intros e s _; polling_leaf].
    intros s _. repeat wp. cbn [agent set_agent].
    destruct (stopped s) eqn:Hs; [wp; polling_leaf|].
    eapply post_conseq; [apply IH|].
    intros o w1 t (Ht & Hlen & Hsame & Hret & Hto & Hexn).
    cbn [app length replicate]. rewrite <- Ht.
    split; [reflexivity|]. split; [lia|].
    split; [eapply same_store_trans; [apply same_store_set_agent|exact Hsame]|].
    split; [exact Hret|]. split; [|discriminate].
    intros Ho. destruct (Hto Ho) as [Hl Hp1]. split; [lia|exact Hp1].
Qed.

(** X19.  The wait of a paused agent does nothing but sleep 0.2 seconds
    at a time, at most as often as it is allowed turns; it leaves the
    cache alone; it returns only with the agent no longer paused or the
    stop flag set, and it gives up only with the agent still paused. *)
Theorem pause_wait_polls (fuel : nat) (w : World Hidden) :
  let r := pause_wait fuel w in
  events_of r = replicate (length (events_of r)) (EvSleep 0.2%float) /\
  (length (events_of r) <= fuel)%nat /\
  same_store w (world_of r) /\
  (outcome_of r = Ret tt ->
   paused (agent (world_of r)) = false \/ stopped (agent (world_of r)) = true) /\
  (outcome_of r = Timeout ->
   length (events_of r) = fuel /\ paused (agent (world_of r)) = true) /\
  (forall e, outcome_of r = Raise e -> events_of r <> []).
Proof. exact (proj1 (post_iff _ _ _) (pause_wait_polling fuel w)). Qed.

(** ** The initial actions *)

Lemma multi_act_results actions check (w : World Hidden) :
  post (multi_act actions check) w (fun o _ t =>
    act_calls t `prefix_of` paced_calls check actions /\
    forall rs, o = Ret rs ->
      act_calls t = paced_calls check actions /\ rs = act_results t).
Proof.
  destruct actions as [|first rest]; cbn [multi_act paced_calls].
  - wp. split; [done|]. by intros rs [= <-].
  - wp. apply post_call.
    + intros results s _. eapply post_conseq; [apply multi_act_rest_spec|].
      intros o w2 t2 (_ & Hpre & Hret). cbn [app act_calls act_results].
      split; [by apply prefix_cons|].
      intros rs Hrs. destruct (Hret rs Hrs) as [-> ->]. done.
    + intros e s _. cbn [act_calls]. split; [|discriminate].
      apply prefix_cons, prefix_nil.
Qed.

(** X21.  Before the loop, the initial actions - those the agent has
    once [_log_agent_run] is back - go through the paced [multi_act]
    with [check_for_new_elements=False], and what they return becomes
    [last_result]; without initial actions nothing is called and the
    agent is left as it is. *)
Theorem run_prelude_initial_actions (w : World Hidden) (s : AgentState Hidden) :
  _log_agent_run (agent w) = (Ok tt, s) ->
  post run_prelude w (fun o w1 t =>
    act_calls t `prefix_of` paced_calls false (initial_actions s) /\
    (o = Ret tt ->
     act_calls t = paced_calls false (initial_actions s) /\
     (initial_actions s <> [] -> last_result (agent w1) = act_results t) /\
     (initial_actions s = [] -> w1 = set_agent s w /\ t = [EvLogAgentRun]))).
Proof.
  intros Hlog. unfold run_prelude. wp. apply post_call_returns with (P := fun s0 => s0 = s) (a := tt).
  { by exists s. }
  intros s' ->. repeat wp. cbn [agent set_agent].
  destruct (initial_actions s) as [|a actions] eqn:Hact.
  - wp. cbn [app act_calls paced_calls]. split; [done|]. intros _.
    split; [done|]. split; [done|]. done.
  - wp. eapply post_conseq; [apply multi_act_results|].
    intros o w1 t1 (Hpre & Hret). destruct o as [rs|e|].
    + wp. cbn [app act_calls act_results agent set_agent last_result set_last_result].
      rewrite app_nil_r. split; [exact Hpre|]. intros _.
      destruct (Hret rs eq_refl) as [Hcalls Hrs].
      split; [exact Hcalls|]. split; [by intros _|done].
    + cbn [app act_calls]. split; [exact Hpre|discriminate].
    + cbn [app act_calls]. split; [exact Hpre|discriminate].
Qed.


(** ** The validation of the output *)

Lemma validations_app t1 t2 : validations (t1 ++ t2) = validations t1 ++ validations t2.
Proof.
  induction t1 as [|e t1 IH]; [done|].
  destruct e; cbn [validations app]; by rewrite ?IH.
Qed.

Lemma quiet_validations t : all_quiet t -> validations t = [].
Proof.
  induction 1 as [|e t He _ IH]; [done|].
  destruct e; try discriminate; exact IH.
Qed.

(** The end of a path: the validations gathered so far, put together. *)
Ltac nv :=
  cbn beta in *; rewrite ?validations_app;
  repeat match goal with
  | H : validations ?t = _ |- context [validations ?t] => rewrite H
  end;
  cbn [validations app length]; rewrite ?app_nil_r; try assumption; try reflexivity; try lia.

Lemma apply_delay_no_validation c w :
  post (_apply_delay c) w (fun _ _ t => validations t = [] /\ count_steps t = 0%nat).
Proof.
  eapply post_conseq; [apply apply_delay_shape|].
  intros o w1 t (_ & t' & -> & Hq). cbn [validations count_steps].
  by rewrite (quiet_validations _ Hq), (quiet_count_steps _ Hq).
Qed.

Lemma wait_if_paused_no_validation w :
  post wait_if_paused w (fun _ _ t => validations t = [] /\ count_steps t = 0%nat).
Proof.
  unfold wait_if_paused. repeat wp. destruct (paused (agent w)); [|by wp].
  wp. apply post_call; [|done].
  intros [] s _. by apply post_call.
Qed.

Lemma pause_wait_no_validation fuel w :
  post (pause_wait fuel) w (fun _ _ t => validations t = [] /\ count_steps t = 0%nat).
Proof.
  eapply post_conseq; [apply pause_wait_polling|].
  intros o w1 t (-> & _). generalize (length t). intros n.
  induction n as [|n IH]; [done|exact IH].
Qed.

Lemma run_hook_no_validation hook ev w :
  validations [ev] = [] -> count_steps [ev] = 0%nat ->
  post (run_hook hook ev) w (fun _ _ t => validations t = [] /\ count_steps t = 0%nat).
Proof. intros Hev Hc. apply post_run_hook. by intros o w1 t [->| ->] _. Qed.

Lemma multi_act_rest_no_validation rest check results w :
  post (multi_act_rest rest check results) w (fun _ _ t => validations t = []).
Proof.
  revert results w. induction rest as [|a rest IH]; intros results w; cbn [multi_act_rest].
  - by wp.
  - wp. eapply post_conseq; [apply apply_delay_no_validation|].
    intros o w1 t1 [Hv _]. destruct o as [[]|e|]; [|done..].
    wp. apply post_call.
    + intros next s _. eapply post_conseq; [apply IH|].
      intros o w2 t2 Hv2. nv.
    + intros e s _. nv.
Qed.

Lemma run_prelude_no_validation w :
  post run_prelude w (fun _ _ t => validations t = []).
Proof.
  unfold run_prelude. wp. apply post_call; [intros [] s _|done].
  repeat wp. destruct (initial_actions _) as [|a actions]; [by wp|].
  wp. cbn [multi_act]. wp. apply post_call; [|done].
  intros results s' _. eapply post_conseq; [apply multi_act_rest_no_validation|].
  intros o w1 t1 Hv. destruct o as [rs|e|]; [wp|..]; nv.
Qed.

Lemma finalize_no_validation w :
  post finalize w (fun _ _ t => validations t = []).
Proof.
  assert (Hrest : forall w',
    post (bind (call close (fun _ => EvClose))
            (fun _ => bind (get (fun a => generate_gif (settings a)))
               (fun gif => if truthy gif
                  then call (create_history_gif (output_path_of gif))
                         (fun _ => EvCreateGif (output_path_of gif))
                  else ret tt))) w'
      (fun _ _ t => validations t = [])).
  { intros w'. wp. apply post_call; [intros [] s' _|done].
    repeat wp. destruct (truthy _); [by apply post_call|by wp]. }
  unfold finalize. wp. apply post_call; [intros [] s _|done].
  repeat wp.
  assert (Hgo : forall w' pre, validations pre = [] ->
    post (bind (call close (fun _ => EvClose))
            (fun _ => bind (get (fun a => generate_gif (settings a)))
               (fun gif => if truthy gif
                  then call (create_history_gif (output_path_of gif))
                         (fun _ => EvCreateGif (output_path_of gif))
                  else ret tt))) w'
      (fun _ _ t => validations (pre ++ t) = [])).
  { intros w' pre Hpre. eapply post_conseq; [apply Hrest|].
    intros o w1 t1 Hv. nv. }
  destruct (save_playwright_script_path _) as [p|].
  - destruct (String.eqb p "").
    + wp. apply (Hgo _ [EvUnregister]). reflexivity.
    + repeat wp. apply post_call.
      * intros [] s' _. by apply (Hgo _ [EvUnregister; EvLog _ _; EvSaveScript _ _]).
      * intros e s' _. unfold except_Exception. destruct (is_Exception e); [|by wp].
        wp. by apply (Hgo _ [EvUnregister; EvLog _ _; EvSaveScript _ _; EvLog _ _]).
  - wp. apply (Hgo _ [EvUnregister]). reflexivity.
Qed.

(** What a turn of the loop does about validation: at most one call, none
    on the last allowed step, and only after the step was made; the
    turn goes on to the next one exactly when the call says no. *)
Lemma run_step_validation fuel max_steps h1 h2 i w :
  post (run_step fuel max_steps h1 h2 i) w (fun o _ t =>
    (length (validations t) <= if (Z.of_nat i <? max_steps - 1)%Z then 1 else 0)%nat /\
    (validations t <> [] -> count_steps t = 1%nat) /\
    (forall e, validations t = [Err e] -> o = Raise e) /\
    (validations t = [Ok false] -> o = Ret Next) /\
    (validations t = [Ok true] -> o <> Ret Next)).
Proof.
  assert (Hleaf : forall (o : Outcome Ctl) t, validations t = [] ->
    (length (validations t) <= if (Z.of_nat i <? max_steps - 1)%Z then 1 else 0)%nat /\
    (validations t <> [] -> count_steps t = 1%nat) /\
    (forall e, validations t = [Err e] -> o = Raise e) /\
    (validations t = [Ok false] -> o = Ret Next) /\
    (validations t = [Ok true] -> o <> Ret Next)).
  { intros o t ->. cbn [length]. split; [lia|]. by repeat split. }
  unfold run_step. wp.
  eapply post_conseq; [apply wait_if_paused_no_validation|].
  intros o w1 t1 [Hv1 Hc1]. destruct o as [[]|e|]; [|by apply Hleaf..].
  repeat wp. destruct (_ <=? _).
  { repeat wp. apply Hleaf. nv. }
  repeat wp. destruct (stopped _).
  { repeat wp. apply Hleaf. nv. }
  wp. eapply post_conseq; [apply pause_wait_no_validation|].
  intros o w2 t2 [Hv2 Hc2]. destruct o as [[]|e|]; [|apply Hleaf; nv..].
  wp. eapply post_conseq; [by apply run_hook_no_validation|].
  intros o w3 t3 [Hv3 Hc3]. destruct o as [[]|e|]; [|apply Hleaf; nv..].
  wp. eapply post_conseq; [apply apply_delay_no_validation|].
  intros o w4 t4 [Hv4 Hc4]. destruct o as [[]|e|]; [|apply Hleaf; nv..].
  wp.
  assert (Htask : post (if Nat.eqb i 0 then _apply_delay "TASK" else ret tt) w4
            (fun _ _ t => validations t = [] /\ count_steps t = 0%nat)).
  { destruct (Nat.eqb i 0); [apply apply_delay_no_validation|by wp]. }
  eapply post_conseq; [exact Htask|]. clear Htask.
  intros o w5 t5 [Hv5 Hc5]. destruct o as [[]|e|]; [|apply Hleaf; nv..].
  wp. apply post_call; [|intros e s _; apply Hleaf; nv].
  intros [] s _.
  wp. eapply post_conseq; [by apply run_hook_no_validation|].
  intros o w6 t6 [Hv6 Hc6]. destruct o as [[]|e|]; [|apply Hleaf; nv..].
  repeat wp. destruct (is_done _); [|wp; apply Hleaf; nv].
  repeat wp.
  destruct (validate_output _); cbn [andb]; [destruct (_ <? _) eqn:Hlast|].
  - wp.
    assert (Hsteps : forall tail, count_steps tail = 0%nat ->
      count_steps (t1 ++ [] ++ [] ++ [] ++ t2 ++ t3 ++ t4 ++ t5 ++
                   [EvStep i max_steps] ++ t6 ++ [] ++ [] ++ tail) = 1%nat).
    { intros tail Htail. rewrite !count_steps_app, Hc1, Hc2, Hc3, Hc4, Hc5, Hc6, Htail.
      reflexivity. }
    assert (Hvals : forall tail,
      validations (t1 ++ [] ++ [] ++ [] ++ t2 ++ t3 ++ t4 ++ t5 ++
                   [EvStep i max_steps] ++ t6 ++ [] ++ [] ++ tail) = validations tail).
    { intros tail. rewrite !validations_app, Hv1, Hv2, Hv3, Hv4, Hv5, Hv6. reflexivity. }
    apply post_call.
    + intros valid s' _. destruct valid; cbn [negb].
      * wp. apply post_call.
        -- intros [] s'' _. wp. rewrite Hvals. cbn [app validations length].
           split; [lia|]. split; [intros _; by apply Hsteps|].
           split; [discriminate|]. split; [discriminate|]. discriminate.
        -- intros e s'' _. rewrite Hvals. cbn [app validations length].
           split; [lia|]. split; [intros _; by apply Hsteps|].
           split; [discriminate|]. split; [discriminate|]. discriminate.
      * wp. rewrite Hvals. cbn [app validations length].
        split; [lia|]. split; [intros _; by apply Hsteps|].
        split; [discriminate|]. split; [reflexivity|]. discriminate.
    + intros e s' _. rewrite Hvals. cbn [app validations length].
      split; [lia|]. split; [intros _; by apply Hsteps|].
      split; [by intros e0 [= ->]|]. split; discriminate.
  - wp. apply post_call; [intros [] s' _; wp|intros e s' _]; apply Hleaf; nv.
  - wp. apply post_call; [intros [] s' _; wp|intros e s' _]; apply Hleaf; nv.
Qed.

Lemma run_loop_validation fuel max_steps h1 h2 n a w :
  post (run_loop fuel max_steps h1 h2 (seq a n)) w (fun _ _ t =>
    (length (validations t) <= Z.to_nat (max_steps - 1) - a)%nat).
Proof.
  revert a w. induction n as [|n IH]; intros a w; cbn [seq run_loop].
  - wp. cbn. lia.
  - wp. eapply post_conseq; [apply run_step_validation|].
    intros o w1 t1 (Hlen & _).
    assert (Hone : (length (validations t1) + (Z.to_nat (max_steps - 1) - S a)
                    <= Z.to_nat (max_steps - 1) - a)%nat).
    { destruct (Z.of_nat a <? max_steps - 1) eqn:Ha; [apply Z.ltb_lt in Ha|]; lia. }
    destruct o as [[|]|e|].
    + eapply post_conseq; [apply IH|].
      intros o w2 t2 Hlen2. cbn beta in *. rewrite validations_app, length_app. lia.
    + wp. rewrite app_nil_r. lia.
    + lia.
    + lia.
Qed.

(** X20.  A turn of the loop asks [_validate_output] at most once, and
    only after its step; on the last allowed step
    ([step >= max_steps - 1]) it does not ask.  When the answer is no,
    the turn ends in [continue]; when it is yes, it does not; when the
    call raises, so does the turn. *)
Theorem validation_decides_the_turn (fuel : nat) (max_steps : Z)
    (on_step_start on_step_end : option (@Ext Hidden unit)) (i : nat) (w : World Hidden) :
  let r := run_step fuel max_steps on_step_start on_step_end i w in
  (length (validations (events_of r)) <= 1)%nat /\
  (max_steps - 1 <= Z.of_nat i -> validations (events_of r) = []) /\
  (validations (events_of r) <> [] -> count_steps (events_of r) = 1%nat) /\
  (forall e, validations (events_of r) = [Err e] -> outcome_of r = Raise e) /\
  (validations (events_of r) = [Ok false] -> outcome_of r = Ret Next) /\
  (validations (events_of r) = [Ok true] -> outcome_of r <> Ret Next).
Proof.
  intros r.
  destruct (proj1 (post_iff _ _ _)
              (run_step_validation fuel max_steps on_step_start on_step_end i w))
    as (Hlen & Hstep & Herr & Hno & Hyes).
  fold r in Hlen, Hstep, Herr, Hno, Hyes.
  split; [destruct (_ <? _) in Hlen; lia|].
  split; [|by repeat split].
  intros Hlast. apply Z.ltb_ge in Hlast. rewrite Hlast in Hlen.
  destruct (validations (events_of r)); [done|cbn in Hlen; lia].
Qed.

(** X22.  A whole run validates the output at most [max_steps - 1]
    times, whatever the agent does. *)
Theorem run_validation_budget (fuel : nat) (max_steps : Z)
    (on_step_start on_step_end : option (@Ext Hidden unit)) (w : World Hidden) :
  (length (validations (events_of (run fuel max_steps on_step_start on_step_end w)))
   <= Z.to_nat (max_steps - 1))%nat.
Proof.
  apply (post_iff (run fuel max_steps on_step_start on_step_end) w
           (fun _ _ t => (length (validations t) <= Z.to_nat (max_steps - 1))%nat)).
  assert (Htry : forall w', post (run_try fuel max_steps on_step_start on_step_end) w'
            (fun _ _ t => (length (validations t) <= Z.to_nat (max_steps - 1))%nat)).
  { intros w'. unfold run_try, range. wp.
    eapply post_conseq; [apply run_prelude_no_validation|].
    intros o w1 t1 Hv1. destruct o as [[]|e|]; [|nv..].
    wp. eapply post_conseq; [apply run_loop_validation|].
    intros o w2 t2 Hlen. destruct o as [how|e|]; [|nv..].
    unfold run_epilogue. destruct how; repeat wp; nv. }
  assert (Hfin : forall w' t, (length (validations t) <= Z.to_nat (max_steps - 1))%nat ->
    post finalize w' (fun o2 _ t2 =>
       (length (validations ([EvRegister] ++ t ++ t2)) <= Z.to_nat (max_steps - 1))%nat)).
  { intros w' t Hlen. eapply post_conseq; [apply finalize_no_validation|].
    intros o2 w2 t2 Hv2. nv. }
  unfold run. wp. apply post_call; [intros [] s _|intros e s _; cbn; lia].
  wp. wp. eapply post_conseq; [apply Htry|].
  intros o w1 t1 Hlen. destruct o as [hist|e|].
  - eapply post_conseq; [by apply Hfin|]. intros o2 w2 t2 H. by destruct o2.
  - unfold except_KeyboardInterrupt. destruct e; repeat wp;
      (eapply post_conseq; [apply Hfin|intros o2 w2 t2 H; by destruct o2]);
      rewrite ?validations_app; cbn [validations app]; rewrite ?app_nil_r; exact Hlen.
  - cbn [app validations]. exact Hlen.
Qed.


(** ** A loop that runs out *)

(** X25.  The loop runs out only after every turn has made its step:
    when it ends without [break], it has applied the delays and made the
    steps of all [max_steps] turns. *)
Theorem exhaustion_means_all_steps (fuel : nat) (max_steps : Z)
    (on_step_start on_step_end : option (@Ext Hidden unit))
    (w w1 : World Hidden) (t : list Event) :
  run_loop fuel max_steps on_step_start on_step_end (range max_steps) w
  = (Ret Exhausted, w1, t) ->
  pacing t = flat_map (turn_pacing max_steps) (range max_steps) /\
  count_steps t = Z.to_nat max_steps.
Proof.
  intros Hloop.
  pose proof (run_loop_pacing fuel max_steps on_step_start on_step_end
                (range max_steps) w) as H.
  unfold post in H. rewrite Hloop in H. destruct H as (_ & _ & Hfull).
  specialize (Hfull eq_refl). split; [exact Hfull|].
  by rewrite <- count_steps_pacing, Hfull, count_steps_turns, range_length.
Qed.


(** ** The hooks *)

Lemma outline_app t1 t2 : outline (t1 ++ t2) = outline t1 ++ outline t2.
Proof.
  induction t1 as [|e t1 IH]; [done|].
  cbn [outline app]. destruct (is_outline e); by rewrite IH.
Qed.

Lemma quiet_outline t : all_quiet t -> outline t = [].
Proof.
  induction 1 as [|e t He _ IH]; [done|].
  destruct e; try discriminate; exact IH.
Qed.

Lemma apply_delay_outline c w :
  post (_apply_delay c) w (fun o _ t => o <> Timeout /\ outline t = outline [EvApplyDelay c]).
Proof.
  eapply post_conseq; [apply apply_delay_shape|].
  intros o w1 t (Hnt & t' & -> & Hq). split; [done|].
  cbn [outline]. rewrite (quiet_outline _ Hq). by destruct (is_outline _).
Qed.

Lemma wait_if_paused_outline w :
  post wait_if_paused w (fun o _ t => o <> Timeout /\ outline t = []).
Proof.
  unfold wait_if_paused. repeat wp. destruct (paused (agent w)); [|by wp].
  wp. apply post_call; [|done].
  intros [] s _. by apply post_call.
Qed.

Lemma pause_wait_outline fuel w :
  post (pause_wait fuel) w (fun _ _ t => outline t = []).
Proof.
  eapply post_conseq; [apply pause_wait_polling|].
  intros o w1 t (-> & _). generalize (length t). intros n.
  induction n as [|n IH]; [done|exact IH].
Qed.

Lemma run_hook_events hook ev w :
  post (run_hook hook ev) w (fun o _ t => o <> Timeout /\ t = hook_events hook ev).
Proof.
  unfold run_hook, hook_events. destruct hook as [f|]; [|by wp].
  by apply post_call.
Qed.

(** The end of a path through a turn: the outline gathered so far is a
    prefix of the full one, and the full one when the turn goes on. *)
Ltac outline_leaf :=
  cbn beta; rewrite ?outline_app;
  repeat match goal with
  | H : outline ?t = _ |- context [outline ?t] => rewrite H
  end;
  cbn [outline is_outline is_pacing app hook_events String.eqb Ascii.eqb Bool.eqb orb];
  split;
  [ repeat apply prefix_cons; first [reflexivity|apply prefix_nil]
  | intros Hnext; first [discriminate Hnext|reflexivity] ].

Lemma run_step_outline fuel max_steps h1 h2 i w :
  post (run_step fuel max_steps h1 h2 i) w (fun o _ t =>
    outline t `prefix_of`
      hook_events h1 EvOnStepStart ++ turn_pacing max_steps i ++ hook_events h2 EvOnStepEnd /\
    (o = Ret Next ->
     outline t
     = hook_events h1 EvOnStepStart ++ turn_pacing max_steps i ++ hook_events h2 EvOnStepEnd)).
Proof.
  assert (Hdone : forall w', post (call log_completion (fun _ => EvLogCompletion)) w'
            (fun o _ t => o <> Timeout /\ outline t = [])).
  { intros w'. by apply post_call. }
  unfold run_step, turn_pacing. wp.
  eapply post_conseq; [apply wait_if_paused_outline|].
  intros o w1 t1 [Hnt H1]. destruct o as [[]|e|]; [| |done].
  2:{ destruct h1, h2, (Nat.eqb i 0); outline_leaf. }
  repeat wp. destruct (_ <=? _).
  { repeat wp. destruct h1, h2, (Nat.eqb i 0); outline_leaf. }
  repeat wp. destruct (stopped _).
  { repeat wp. destruct h1, h2, (Nat.eqb i 0); outline_leaf. }
  wp. eapply post_conseq; [apply pause_wait_outline|].
  intros o w2 t2 H2.
  destruct o as [[]|e|]; [|destruct h1, h2, (Nat.eqb i 0); outline_leaf..].
  wp. eapply post_conseq; [apply run_hook_events|].
  intros o w3 t3 [Hnt3 ->].
  destruct o as [[]|e|]; [|destruct h1, h2, (Nat.eqb i 0); outline_leaf..].
  wp. eapply post_conseq; [apply apply_delay_outline|].
  intros o w4 t4 (Hnt4 & H4).
  destruct o as [[]|e|]; [|destruct h1, h2, (Nat.eqb i 0); outline_leaf..].
  wp.
  assert (Htask : post (if Nat.eqb i 0 then _apply_delay "TASK" else ret tt) w4
            (fun o _ t => o <> Timeout /\
               (outline t = [] \/ outline t = if Nat.eqb i 0 then [EvApplyDelay "TASK"] else []) /\
               (o = Ret tt -> outline t = if Nat.eqb i 0 then [EvApplyDelay "TASK"] else []))).
  { destruct (Nat.eqb i 0).
    - eapply post_conseq; [apply apply_delay_outline|].
      intros o w5 t5 (Hnt5 & ->). by repeat split; auto.
    - wp. by repeat split; auto. }
  eapply post_conseq; [exact Htask|]. clear Htask.
  intros o w5 t5 (Hnt5 & Hpart5 & H5). destruct o as [[]|e|]; [| |done].
  2:{ destruct Hpart5 as [H5'|H5']; destruct h1, h2, (Nat.eqb i 0); outline_leaf. }
  specialize (H5 eq_refl). clear Hpart5.
  wp. apply post_call.
  2:{ intros e s _. destruct h1, h2, (Nat.eqb i 0); outline_leaf. }
  intros [] s _.
  wp. eapply post_conseq; [apply run_hook_events|].
  intros o w6 t6 [Hnt6 ->].
  destruct o as [[]|e|]; [|destruct h1, h2, (Nat.eqb i 0); outline_leaf..].
  repeat wp. destruct (is_done _); [|wp; destruct h1, h2, (Nat.eqb i 0); outline_leaf].
  repeat wp. destruct (_ && _).
  - wp. apply post_call;
      [intros valid s' _|intros e s' _; destruct h1, h2, (Nat.eqb i 0); outline_leaf].
    destruct valid; cbn [negb]; [|wp; destruct h1, h2, (Nat.eqb i 0); outline_leaf].
    wp. eapply post_conseq; [apply Hdone|].
    intros o w7 t7 [Hnt7 H7].
    destruct o as [[]|e|]; [wp|..]; destruct h1, h2, (Nat.eqb i 0); outline_leaf.
  - wp. eapply post_conseq; [apply Hdone|].
    intros o w7 t7 [Hnt7 H7].
    destruct o as [[]|e|]; [wp|..]; destruct h1, h2, (Nat.eqb i 0); outline_leaf.
Qed.

(** X24.  In a turn of the loop the hooks bracket the pacing:
    [on_step_start], when given, is called once, before the STEP delay;
    [on_step_end], when given, once, after the step; a hook that is not
    given leaves no call.  A turn that ends early has made a prefix of
    these calls; one that goes on to the next turn has made them all. *)
Theorem hooks_bracket_the_turn (fuel : nat) (max_steps : Z)
    (on_step_start on_step_end : option (@Ext Hidden unit)) (i : nat) (w : World Hidden) :
  let r := run_step fuel max_steps on_step_start on_step_end i w in
  let full := hook_events on_step_start EvOnStepStart ++ turn_pacing max_steps i
              ++ hook_events on_step_end EvOnStepEnd in
  outline (events_of r) `prefix_of` full /\
  (outcome_of r = Ret Next -> outline (events_of r) = full).
Proof.
  exact (proj1 (post_iff _ _ _)
           (run_step_outline fuel max_steps on_step_start on_step_end i w)).
Qed.


(** X26.  The constructor binds the cache attribute to a dictionary of
    its own: the new object is none of those that existed before, and
    every dictionary that existed before - the cache of another agent,
    say - is left as it was; the agent and the environment are those it
    was given. *)
Theorem init_allocates_fresh_cache (a : AgentState Hidden) (env : gmap string string)
    (h : gmap loc (gmap string (gmap string PyVal))) :
  let w := world_of (__init__ a env h) in
  (delay_settings_cache w ∉ dom h) /\
  (forall l d, h !! l = Some d -> deref w l = d) /\
  agent w = a /\ environ w = env.
Proof.
  set (w0 := {| agent := a; environ := env; heap := <[fresh (dom h) := ∅]> h;
                delay_settings_cache := fresh (dom h); rand_pos := 0 |}).
  assert (Hw : world_of (__init__ a env h) = fold_left cache_one delay_types w0)
    by reflexivity.
  cbn zeta. rewrite Hw.
  destruct (refresh_frame w0) as (Hagent & Henv & Hloc & _).
  split; [rewrite Hloc; apply is_fresh|].
  split; [|by split].
  intros l d Hl.
  assert (Hne : l <> delay_settings_cache w0).
  { intros ->. apply (is_fresh (dom h)). by apply elem_of_dom_2 in Hl. }
  rewrite (refresh_other_object w0 l Hne). unfold deref. cbn [heap w0].
  rewrite lookup_total_insert_ne by (intros Heq; by apply Hne).
  by rewrite lookup_total_alt, Hl.
Qed.

End Properties.

(** * Examples on the scripted agent *)

(** C5 on a malformed fixed delay and on a malformed random bound. *)
Lemma apply_delay_malformed_witness :
  @_apply_delay _ calm "ACTION" demo_world
  = (Ret tt, demo_world,
     [EvApplyDelay "ACTION"; EvLog WARNING (InvalidFixedValue "ACTION" (VStr "abc"))]) /\
  @_apply_delay _ calm "TASK" broken_world
  = (Ret tt, broken_world,
     [EvApplyDelay "TASK";
      EvLog WARNING (InvalidRandomValues "TASK" (VStr "two") (VStr "3"))]).
Proof.
  split.
  - refine (proj1 (apply_delay_malformed (B := calm) "ACTION" demo_world
              (settings_of demo_world "ACTION") (VBool false) _ _) _ (VStr "abc") _ _);
      exact eq_refl.
  - refine (proj2 (apply_delay_malformed (B := calm) "TASK" broken_world
              (settings_of broken_world "TASK") (VBool true) _ _)
              _ (VStr "two") (VStr "3") _ _ (or_introl _));
      exact eq_refl.
Defined.



(** C2 at three actions: two delays, results in the order of the actions. *)
Lemma multi_act_paced_witness :
  let actions := [action_model "a"; action_model "b"; action_model "c"] in
  let r := @multi_act _ calm actions true demo_world in
  act_calls (events_of r)
  = [SuperCall [action_model "a"] true;
     DelayCall "ACTION"; SuperCall [action_model "b"] true;
     DelayCall "ACTION"; SuperCall [action_model "c"] true] /\
  count_delays (act_calls (events_of r)) = 2%nat /\
  outcome_of r = Ret (act_results (events_of r)).
Proof.
  intros actions r.
  pose proof (proj2 (multi_act_paced (B := calm) actions true demo_world)) as H.
  apply post_iff in H. destruct H as (_ & _ & H).
  destruct (H (act_results (events_of r)) eq_refl) as (H1 & H2 & _).
  split; [exact H1|]. split; [exact H2|]. exact eq_refl.
Defined.

(** C6 with three failures against a limit of three. *)
Lemma failure_threshold_stops_witness :
  let w := set_agent (with_failures 3 fresh_agent) plain_world in
  @run_loop _ calm 0 5 None None [0; 1; 2; 3; 4]%nat w
  = (Ret Broke, w, [EvLog ERROR (StoppingConsecutiveFailures 3)]).
Proof.
  intros w.
  refine (proj1 (failure_threshold_stops (B := calm) 0 5 None None 0 [1; 2; 3; 4]%nat
                   w w [] eq_refl _)).
  discriminate.
Defined.

(** C9 when the script export fails: the failure is logged, and [close]
    and the GIF follow; the export was given the names only. *)
Lemma finalization_always_runs_witness :
  let w := set_agent (with_settings export_settings (Some secrets) fresh_agent) plain_world in
  events_of (@finalize _ failing_export w)
  = [EvUnregister; EvLog INFO (SavingScript "replay.py");
     EvSaveScript "replay.py" (Some ["password"; "token"]);
     EvLog ERROR (FailedToSaveScript (OtherException "disk full"));
     EvClose; EvCreateGif "run.gif"] /\
  exists t1,
    events_of (@run _ failing_export 0 1 None None w)
    = EvRegister :: t1 ++ events_of (@finalize _ failing_export
                                       (set_agent (history_append failure_record (agent w)) w)).
Proof.
  intros w.
  pose proof (finalization_always_runs (B := failing_export) 0 1 None None w)
    as (Hexit & _ & Hexport & _ & _).
  split.
  - refine (Hexport w (agent w) (agent w) (agent w) "replay.py"
              (Err (OtherException "disk full")) eq_refl eq_refl _ eq_refl _ eq_refl).
    + discriminate.
    + intros e [= <-]. exact eq_refl.
  - eexists.
    refine (Hexit (agent w) _ _ _ eq_refl eq_refl _). discriminate.
Defined.

(** C10 on the empty environment: the defaults, and no warning for STEP. *)
Lemma delay_cache_complete_witness :
  cache_complete plain_world /\
  four_keys (settings_of plain_world "STEP") false "0.0" "0.0" "0.0" /\
  (EvLog WARNING (NoCachedSettings "STEP")
     ∉ events_of (@_apply_delay _ calm "STEP" plain_world)) /\
  @_apply_delay _ calm "OTHER" plain_world
  = (Ret tt, plain_world, [EvApplyDelay "OTHER"; EvLog WARNING (NoCachedSettings "OTHER")]).
Proof.
  pose proof (@delay_cache_complete Clock calm) as (Hinit & _ & Hkeys & _ & Happly).
  destruct (Hinit fresh_agent ∅ ∅) as (w & t & Heq & Hcomplete & Hother).
  assert (Hw : w = plain_world) by (unfold plain_world, world_of_init; by rewrite Heq).
  subst w.
  split; [exact Hcomplete|]. split; [exact (Hkeys plain_world "STEP")|].
  split.
  - assert (Hin : "STEP" ∈ delay_types) by (apply list_elem_of_here).
    pose proof (Happly plain_world "STEP" Hcomplete Hin) as Hpost.
    apply post_iff in Hpost. exact (proj1 Hpost).
  - apply Hother. unfold delay_types.
    rewrite !not_elem_of_cons. repeat split; try discriminate. apply not_elem_of_nil.
Defined.

(** C8, as amended, on a changed environment: the same dictionary
    object afterwards holds what the new environment says, and the
    applier, on the same agent, now sleeps for 90 seconds where it did not
    sleep before; a delay computation that holds the STEP dictionary of
    before the invalidation still sleeps not at all. *)
Lemma invalidate_in_place_witness :
  let w := set_environ demo_environ plain_world in
  let w' := world_of (invalidate_delay_cache w) in
  let held := settings_of plain_world "STEP" in
  delay_settings_cache w' = delay_settings_cache plain_world /\
  deref w' (delay_settings_cache plain_world) !! "STEP" = Some (settings_of w "STEP") /\
  settings_of w "STEP" !! "delay_minutes" = Some (VStr "1.5") /\
  held !! "delay_minutes" = Some (VStr "0.0") /\
  sleeps (events_of (@_apply_delay _ calm "STEP" w)) = [] /\
  sleeps (events_of (@_apply_delay _ calm "STEP" w')) = [90%float] /\
  deref w (delay_settings_cache w) !! "STEP" = Some held /\
  events_of (@delay_with_settings _ calm "STEP" held w') = [].
Proof.
  intros w w' held.
  destruct (@invalidate_in_place Clock calm w)
    as (w2 & t & Heq & Hloc & _ & _ & Hentry & _ & _ & _ & Hheld).
  assert (Hw : w' = w2) by (unfold w'; by rewrite Heq).
  split; [rewrite Hw; exact Hloc|].
  split; [rewrite Hw; apply Hentry, list_elem_of_here|].
  do 5 (split; [exact eq_refl|]).
  assert (Hne : held <> ∅).
  { intros Hempty. apply (f_equal (.!! "delay_minutes")) in Hempty. discriminate Hempty. }
  destruct (Hheld "STEP" held eq_refl Hne) as (_ & _ & Hevents & _).
  rewrite Hw, Hevents. exact eq_refl.
Defined.

(** C8 as stated fails: the dictionary a reader obtained before the
    invalidation is the one that is written to, so its STEP entry changes
    under the reader; and between two turns of the loop the mapping holds
    the new STEP entry beside the old ACTION entry. *)
Lemma invalidate_replaces_wholesale_counterexample :
  let held := delay_settings_cache plain_world in
  let w := set_environ demo_environ plain_world in
  let w' := world_of (invalidate_delay_cache w) in
  delay_settings_cache w' = held /\
  deref plain_world held !! "STEP" <> deref w' held !! "STEP" /\
  deref (cache_one w "STEP") held !! "STEP" = Some (settings_of w "STEP") /\
  deref (cache_one w "STEP") held !! "ACTION" = Some (settings_of plain_world "ACTION") /\
  settings_of plain_world "ACTION" <> settings_of w "ACTION".
Proof.
  intros held w w'.
  split; [exact eq_refl|]. split.
  - intros Heq. apply (f_equal (fun o => o ≫= (.!! "delay_minutes"))) in Heq.
    discriminate Heq.
  - split; [exact eq_refl|]. split; [exact eq_refl|].
    intros Heq. apply (f_equal (.!! "delay_minutes")) in Heq. discriminate Heq.
Qed.

(** C1, as amended, on a run of two steps that never completes: both
    steps are made, the loop runs out, and the history returned ends with
    the failure record.  The scripted agent [calm] is a steady process. *)
Lemma run_step_budget_witness :
  let r := @run _ calm 0 2 None None plain_world in
  (count_steps (events_of r) <= 2)%nat /\
  @run_try _ calm 0 2 None None plain_world
  = (Ret [failure_record],
     set_agent (history_append failure_record fresh_agent) plain_world,
     [EvLogAgentRun; EvApplyDelay "STEP"; EvApplyDelay "TASK"; EvStep 0 2;
      EvApplyDelay "STEP"; EvStep 1 2;
      EvLog INFO (FailedMessage error_message)]) /\
  outcome_of r = Ret [failure_record] /\
  @steady _ calm (fun s => s = fresh_agent) None None /\
  exists hist w2 t,
    @run_try _ calm 0 2 None None plain_world = (Ret (hist ++ [failure_record]), w2, t) /\
    history (agent w2) = hist ++ [failure_record] /\
    count_steps t = 2%nat.
Proof.
  intros r.
  pose proof (run_step_budget (B := calm) 0 2 None None plain_world)
    as (Hcount & Hexhausted & _ & Hrun & _ & Hsteady).
  split; [exact Hcount|].
  destruct (Hexhausted plain_world [EvLogAgentRun] plain_world
              [EvApplyDelay "STEP"; EvApplyDelay "TASK"; EvStep 0 2;
               EvApplyDelay "STEP"; EvStep 1 2] eq_refl eq_refl) as [Htry _].
  split; [exact Htry|].
  split.
  { unfold r.
    rewrite (Hrun fresh_agent _ _ _ _ [EvUnregister; EvClose] eq_refl Htry eq_refl).
    exact eq_refl. }
  assert (Hst : @steady _ calm (fun s => s = fresh_agent) None None).
  { constructor.
    - intros s ->. by repeat split.
    - intros q s ->. by exists fresh_agent.
    - intros i m s ->. by exists fresh_agent.
    - intros s ->. by exists fresh_agent.
    - intros f s Hf. discriminate Hf.
    - intros f s Hf. discriminate Hf. }
  split; [exact Hst|].
  apply (Hsteady _ Hst eq_refl).
  exact (refresh_complete
           {| agent := fresh_agent; environ := ∅; heap := <[fresh (dom ∅) := ∅]> ∅;
              delay_settings_cache := fresh (dom ∅); rand_pos := 0 |}).
Defined.

(** C1 as stated fails: with the stop flag set, the loop ends at once;
    the history signals no completion, yet no failure record is appended
    (the history returned is empty). *)
Lemma run_failure_record_counterexample :
  let w := set_agent (set_flags false true fresh_agent) plain_world in
  let r := @run _ calm 0 3 None None w in
  outcome_of r = Ret [] /\
  @is_done _ calm (agent (world_of r)) = false /\
  history (agent (world_of r)) = [] /\
  last (history (agent (world_of r))) <> Some failure_record /\
  events_of r
  = [EvRegister; EvLogAgentRun; EvLog INFO AgentStopped; EvUnregister; EvClose].
Proof.
  intros w r. repeat split; try exact eq_refl. discriminate.
Qed.

(** C7 on a run of two steps in the steady process [calm]: both turns
    apply their delays before their steps, the TASK delay on turn 0 only. *)
Lemma run_delays_before_steps_witness :
  pacing (events_of (@run_try _ calm 0 2 None None plain_world))
  = [EvApplyDelay "STEP"; EvApplyDelay "TASK"; EvStep 0 2;
     EvApplyDelay "STEP"; EvStep 1 2] /\
  pacing (events_of (@run_step _ calm 0 2 None None 1 plain_world))
  = [EvApplyDelay "STEP"; EvStep 1 2].
Proof.
  pose proof (run_delays_before_steps (B := calm) 0 2 None None plain_world)
    as (_ & _ & _ & Hturn & _ & Hsteady).
  split.
  - apply (Hsteady (fun s => s = fresh_agent)); [|exact eq_refl|].
    + constructor.
      * intros s ->. by repeat split.
      * intros q s ->. by exists fresh_agent.
      * intros i m s ->. by exists fresh_agent.
      * intros s ->. by exists fresh_agent.
      * intros f s Hf. discriminate Hf.
      * intros f s Hf. discriminate Hf.
    + exact (refresh_complete
               {| agent := fresh_agent; environ := ∅; heap := <[fresh (dom ∅) := ∅]> ∅;
                  delay_settings_cache := fresh (dom ∅); rand_pos := 0 |}).
  - exact (Hturn 1%nat plain_world (or_intror eq_refl)).
Defined.


(** * The rest of the module *)

(** X1.  The flag is decided by the first character of the variable
    alone, whatever follows it: it holds exactly when that character is
    one of [t], [T], [y], [Y] and [1]. *)
Theorem skip_flag_first_character (env : gmap string string) (c : ascii) (rest : string) :
  env !! "SKIP_LLM_API_KEY_VERIFICATION" = Some (String c rest) ->
  SKIP_LLM_API_KEY_VERIFICATION env
  = Ok (bool_decide (c ∈ ["t"; "T"; "y"; "Y"; "1"]%char)).
Proof.
  intros Hv. unfold SKIP_LLM_API_KEY_VERIFICATION. rewrite Hv. cbn [lower].
  f_equal.
  destruct c as [[] [] [] [] [] [] [] []]; vm_compute; reflexivity.
Qed.

Lemma skip_flag_first_character_witness :
  SKIP_LLM_API_KEY_VERIFICATION (skip_environ "Yes") = Ok true /\
  SKIP_LLM_API_KEY_VERIFICATION (skip_environ "tomorrow") = Ok true /\
  SKIP_LLM_API_KEY_VERIFICATION (skip_environ "on") = Ok false.
Proof.
  split; [|split].
  - exact (skip_flag_first_character (skip_environ "Yes") "Y"%char "es" eq_refl).
  - exact (skip_flag_first_character (skip_environ "tomorrow") "t"%char "omorrow" eq_refl).
  - exact (skip_flag_first_character (skip_environ "on") "o"%char "n" eq_refl).
Defined.

(** X2.  When the variable is not set the flag is false; when it is set
    to the empty string, importing the module raises [IndexError]; and
    that is the only way the constant fails. *)
Theorem skip_flag_unset_or_empty (env : gmap string string) :
  (env !! "SKIP_LLM_API_KEY_VERIFICATION" = None ->
   SKIP_LLM_API_KEY_VERIFICATION env = Ok false) /\
  (env !! "SKIP_LLM_API_KEY_VERIFICATION" = Some "" ->
   SKIP_LLM_API_KEY_VERIFICATION env = Err (OtherException "IndexError")) /\
  (forall e, SKIP_LLM_API_KEY_VERIFICATION env = Err e ->
   env !! "SKIP_LLM_API_KEY_VERIFICATION" = Some "").
Proof.
  unfold SKIP_LLM_API_KEY_VERIFICATION. repeat split.
  - intros ->. reflexivity.
  - intros ->. reflexivity.
  - intros e. destruct (env !! "SKIP_LLM_API_KEY_VERIFICATION") as [[|c v]|];
      cbn; try discriminate. reflexivity.
Qed.

Lemma skip_flag_unset_or_empty_witness :
  SKIP_LLM_API_KEY_VERIFICATION ∅ = Ok false /\
  SKIP_LLM_API_KEY_VERIFICATION (skip_environ "")
  = Err (OtherException "IndexError").
Proof.
  split.
  - exact (proj1 (skip_flag_unset_or_empty ∅) eq_refl).
  - exact (proj1 (proj2 (skip_flag_unset_or_empty (skip_environ ""))) eq_refl).
Defined.

(** X3.  [_set_tool_calling_method] never answers ["auto"]; a setting
    other than ["auto"] is handed back as it is, whatever the model and
    the library; and feeding the answer back in gives the same answer. *)
Theorem tool_calling_method_resolved (no_tools : string -> bool)
    (setting : option string) (model_name library : string) :
  let answer := _set_tool_calling_method no_tools setting model_name library in
  answer <> Some "auto" /\
  (setting <> Some "auto" -> answer = setting) /\
  _set_tool_calling_method no_tools answer model_name library = answer.
Proof.
  unfold _set_tool_calling_method.
  destruct setting as [m|]; [destruct (String.eqb m "auto") eqn:Hm|].
  - apply String.eqb_eq in Hm. subst m.
    destruct (no_tools model_name); [by repeat split|].
    repeat destruct (String.eqb library _); by repeat split.
  - apply String.eqb_neq in Hm. rewrite (proj2 (String.eqb_neq m "auto") Hm).
    repeat split; congruence.
  - by repeat split.
Qed.

Lemma tool_calling_method_resolved_witness :
  _set_tool_calling_method (fun _ => false) (Some "json_mode") "gpt-4o" "ChatOpenAI"
  = Some "json_mode".
Proof.
  refine (proj1 (proj2 (tool_calling_method_resolved (fun _ => false) (Some "json_mode")
                          "gpt-4o" "ChatOpenAI")) _).
  discriminate.
Defined.

(** X4.  With the setting ["auto"]: a model without tool support gets
    ["raw"] whatever the library; otherwise the answer is
    ["function_calling"] exactly for the libraries [ChatOpenAI] and
    [AzureChatOpenAI], and [None] for every other library. *)
Theorem tool_calling_method_auto (no_tools : string -> bool) (model_name library : string) :
  let answer := _set_tool_calling_method no_tools (Some "auto") model_name library in
  (no_tools model_name = true -> answer = Some "raw") /\
  (no_tools model_name = false ->
   (answer = Some "function_calling" <->
    library = "ChatOpenAI" \/ library = "AzureChatOpenAI") /\
   (answer = None <->
    library <> "ChatOpenAI" /\ library <> "AzureChatOpenAI")).
Proof.
  unfold _set_tool_calling_method. cbn [String.eqb Ascii.eqb Bool.eqb andb].
  split; intros ->; [reflexivity|].
  destruct (String.eqb library "ChatGoogleGenerativeAI") eqn:Hg;
    [apply String.eqb_eq in Hg; subst library; cbn; split; split;
       intuition (discriminate || congruence)|].
  destruct (String.eqb library "ChatOpenAI") eqn:Ho;
    [apply String.eqb_eq in Ho; subst library; split; split;
       intuition (discriminate || congruence)|].
  destruct (String.eqb library "AzureChatOpenAI") eqn:Ha;
    [apply String.eqb_eq in Ha; subst library; split; split;
       intuition (discriminate || congruence)|].
  apply String.eqb_neq in Ho, Ha.
  split; split; intuition (discriminate || congruence).
Qed.

Lemma tool_calling_method_auto_witness :
  _set_tool_calling_method (fun m => String.eqb m "deepseek-r1") (Some "auto")
    "deepseek-r1" "ChatOpenAI" = Some "raw" /\
  _set_tool_calling_method (fun m => String.eqb m "deepseek-r1") (Some "auto")
    "gpt-4o" "AzureChatOpenAI" = Some "function_calling".
Proof.
  split.
  - exact (proj1 (tool_calling_method_auto _ "deepseek-r1" "ChatOpenAI") eq_refl).
  - apply (proj2 (tool_calling_method_auto (fun m => String.eqb m "deepseek-r1")
                    "gpt-4o" "AzureChatOpenAI") eq_refl).
    right. reflexivity.
Defined.

(** * More examples on the scripted agents *)

(** X5 on two agents whose caches differ - one filled from the empty
    environment, one from [demo_environ] - under the same environment. *)
Lemma cache_decided_by_environment_witness :
  let w1 := set_environ demo_environ plain_world in
  let w2 := demo_world in
  deref w1 (delay_settings_cache w1) !! "STEP" <> deref w2 (delay_settings_cache w2) !! "STEP" /\
  deref (world_of (invalidate_delay_cache w1)) (delay_settings_cache w1) !! "STEP"
  = deref (world_of (invalidate_delay_cache w2)) (delay_settings_cache w2) !! "STEP".
Proof.
  intros w1 w2. split.
  - intros Heq. apply (f_equal (fun o => o ≫= (.!! "delay_minutes"))) in Heq.
    discriminate Heq.
  - apply (cache_decided_by_environment w1 w2 "STEP"); [exact eq_refl|].
    apply list_elem_of_here.
Defined.

(** X7 on a delay that does not sleep: the agent is left as it was. *)
Lemma apply_delay_keeps_configuration_witness :
  agent (world_of (@_apply_delay _ calm "ACTION" demo_world)) = agent demo_world.
Proof.
  exact (proj2 (proj2 (apply_delay_keeps_configuration (B := calm) "ACTION" demo_world))
           eq_refl).
Defined.

(** X8 on a STEP delay of 1.5 minutes whose sleep is cancelled. *)
Lemma apply_delay_passes_cancellation_witness :
  @_apply_delay _ cancelled_sleep "STEP" demo_world
  = (Raise CancelledError, demo_world,
     [EvApplyDelay "STEP";
      EvLog INFO (WaitingFixedDelay "STEP" 90 1.5);
      EvSleep 90]).
Proof.
  exact (proj2 (apply_delay_passes_cancellation (B := cancelled_sleep) "STEP" demo_world)
           (settings_of demo_world "STEP") (VBool false) (VStr "1.5") 1.5%float
           CancelledError fresh_agent
           eq_refl eq_refl eq_refl eq_refl eq_refl eq_refl eq_refl).
Defined.

(** X9 on a STEP entry replaced by an empty dictionary, and by one that
    holds the fixed delay only. *)
Lemma apply_delay_partial_entry_witness :
  let w0 := with_entry "STEP" ∅ plain_world in
  let d := <["delay_minutes" := VStr "1"]> (∅ : gmap string PyVal) in
  let w1 := with_entry "STEP" d plain_world in
  @_apply_delay _ calm "STEP" w0
  = (Ret tt, w0, [EvApplyDelay "STEP"; EvLog WARNING (NoCachedSettings "STEP")]) /\
  @_apply_delay _ calm "STEP" w1
  = (Raise (KeyError "enable_random"), w1, [EvApplyDelay "STEP"]).
Proof.
  intros w0 d w1. split.
  - exact (proj1 (apply_delay_partial_entry (B := calm) "STEP" w0 ∅ eq_refl) eq_refl).
  - refine (proj1 (proj2 (apply_delay_partial_entry (B := calm) "STEP" w1 d eq_refl))
              _ eq_refl).
    intros Heq. apply (f_equal (.!! "delay_minutes")) in Heq. discriminate Heq.
Defined.

(** X10 on three actions of which the second fails: the third is never
    tried. *)
Lemma multi_act_stops_at_failure_witness :
  @multi_act _ (refusing "b") [action_model "a"; action_model "b"; action_model "c"]
     true plain_world
  = (Raise (OtherException "element not found"), plain_world,
     [EvSuperMultiAct [action_model "a"] true
        (Ok [ {| error := None; include_in_memory := false;
                 other_fields := Some (blob "a") |} ]);
      EvApplyDelay "ACTION";
      EvSuperMultiAct [action_model "b"] true
        (Err (OtherException "element not found"))]).
Proof.
  exact (multi_act_stops_at_failure (B := refusing "b")
           (action_model "a") [action_model "b"] [action_model "c"] true
           plain_world plain_world (OtherException "element not found") _ eq_refl).
Defined.

(** X11 on three actions with half a minute between two actions. *)
Lemma multi_act_fixed_delay_total_witness :
  let actions := [action_model "a"; action_model "b"; action_model "c"] in
  sleeps (events_of (@multi_act _ calm actions true paced_world))
  = [30%float; 30%float].
Proof.
  intros actions.
  exact (multi_act_fixed_delay_total (B := calm) actions true paced_world
           (settings_of paced_world "ACTION") (VBool false) (VStr "0.5") 0.5%float
           eq_refl eq_refl eq_refl eq_refl eq_refl eq_refl
           (act_results (events_of (@multi_act _ calm actions true paced_world)))
           eq_refl).
Defined.

(** X12 when the signal handler cannot be installed. *)
Lemma run_register_failure_witness :
  @run _ failing_register 0 3 None None plain_world
  = (Raise (OtherException "no running event loop"), plain_world, [EvRegister]).
Proof.
  exact (run_register_failure (B := failing_register) 0 3 None None plain_world
           (OtherException "no running event loop") fresh_agent eq_refl).
Defined.

(** X13 on a first step that is interrupted, and on one that fails. *)
Lemma run_exception_paths_witness :
  @run _ interrupted_step 0 3 None None plain_world
  = (Ret [], plain_world,
     [EvRegister; EvLogAgentRun; EvApplyDelay "STEP"; EvApplyDelay "TASK"; EvStep 0 3;
      EvLog INFO GotKeyboardInterrupt; EvUnregister; EvClose]) /\
  @run _ crashing_step 0 3 None None plain_world
  = (Raise (OtherException "model unreachable"), plain_world,
     [EvRegister; EvLogAgentRun; EvApplyDelay "STEP"; EvApplyDelay "TASK"; EvStep 0 3;
      EvUnregister; EvClose]).
Proof.
  split.
  - exact (run_exception_paths (B := interrupted_step) 0 3 None None
             plain_world plain_world plain_world fresh_agent KeyboardInterrupt
             [EvLogAgentRun; EvApplyDelay "STEP"; EvApplyDelay "TASK"; EvStep 0 3]
             [EvUnregister; EvClose] eq_refl eq_refl eq_refl).
  - exact (run_exception_paths (B := crashing_step) 0 3 None None
             plain_world plain_world plain_world fresh_agent
             (OtherException "model unreachable")
             [EvLogAgentRun; EvApplyDelay "STEP"; EvApplyDelay "TASK"; EvStep 0 3]
             [EvUnregister; EvClose] eq_refl eq_refl eq_refl).
Defined.

(** X14 on a run without steps whose [close] fails: the history with
    the failure record is not returned. *)
Lemma finalize_failure_replaces_outcome_witness :
  let w1 := set_agent (history_append failure_record fresh_agent) plain_world in
  @run _ failing_close 0 0 None None plain_world
  = (Raise (OtherException "browser gone"), w1,
     [EvRegister; EvLogAgentRun; EvLog INFO (FailedMessage error_message);
      EvUnregister; EvClose]).
Proof.
  intros w1.
  refine (finalize_failure_replaces_outcome (B := failing_close) 0 0 None None
            plain_world w1 w1 fresh_agent (Ret [failure_record])
            (OtherException "browser gone")
            [EvLogAgentRun; EvLog INFO (FailedMessage error_message)]
            [EvUnregister; EvClose] eq_refl eq_refl _ eq_refl).
  discriminate.
Defined.

(** X15 on the three failures. *)
Lemma finalize_failure_paths_witness :
  let w := set_agent (with_settings export_settings (Some secrets) fresh_agent) plain_world in
  @finalize _ failing_unregister plain_world
  = (Raise (OtherException "handler not installed"), plain_world, [EvUnregister]) /\
  @finalize _ interrupted_export w
  = (Raise KeyboardInterrupt, w,
     [EvUnregister; EvLog INFO (SavingScript "replay.py");
      EvSaveScript "replay.py" (Some ["password"; "token"])]) /\
  @finalize _ failing_close plain_world
  = (Raise (OtherException "browser gone"), plain_world, [EvUnregister; EvClose]).
Proof.
  intros w. split; [|split].
  - exact (proj1 (finalize_failure_paths (B := failing_unregister) plain_world)
             (OtherException "handler not installed") fresh_agent eq_refl).
  - refine (proj1 (proj2 (finalize_failure_paths (B := interrupted_export) w))
              (agent w) "replay.py" KeyboardInterrupt (agent w)
              eq_refl eq_refl _ eq_refl eq_refl).
    discriminate.
  - exact (proj2 (proj2 (finalize_failure_paths (B := failing_close) plain_world))
             fresh_agent (OtherException "browser gone") fresh_agent
             eq_refl (or_introl eq_refl) eq_refl).
Defined.

(** X16 on a finalisation with a failing export and a GIF. *)
Lemma finalize_closes_before_gif_witness :
  let w := set_agent (with_settings export_settings (Some secrets) fresh_agent) plain_world in
  exists t0, events_of (@finalize _ failing_export w) = t0 ++ [EvClose; EvCreateGif "run.gif"].
Proof.
  intros w.
  pose proof (finalize_closes_before_gif (B := failing_export) w) as H.
  apply post_iff in H. destruct H as (_ & _ & H).
  apply (H "run.gif").
  change (EvCreateGif "run.gif"
            ∈ [EvUnregister; EvLog INFO (SavingScript "replay.py");
               EvSaveScript "replay.py" (Some ["password"; "token"]);
               EvLog ERROR (FailedToSaveScript (OtherException "disk full"));
               EvClose; EvCreateGif "run.gif"]).
  do 5 apply list_elem_of_further. apply list_elem_of_here.
Defined.

(** X17 on a budget of minus two steps. *)
Lemma run_nonpositive_budget_witness :
  let r := @run_try _ calm 0 (-2) None None plain_world in
  pacing (events_of r) = [] /\
  outcome_of r = Ret [failure_record] /\
  last (events_of r) = Some (EvLog INFO (FailedMessage error_message)).
Proof.
  intros r.
  assert (Hle : -2 <= 0) by lia.
  pose proof (run_nonpositive_budget (B := calm) 0 (-2) None None plain_world Hle) as H.
  apply post_iff in H. destruct H as (_ & Hp & Hh).
  split; [exact Hp|]. split; [exact eq_refl|].
  exact (proj2 (proj2 (Hh [failure_record] eq_refl))).
Defined.

(** X18 with the stop flag set before the first turn. *)
Lemma stop_flag_at_loop_top_witness :
  let w := set_agent (set_flags false true fresh_agent) plain_world in
  @run_loop _ calm 0 5 None None [0; 1; 2]%nat w
  = (Ret Broke, w, [EvLog INFO AgentStopped]).
Proof.
  intros w.
  exact (stop_flag_at_loop_top (B := calm) 0 5 None None 0 [1; 2]%nat w w []
           eq_refl eq_refl eq_refl).
Defined.

(** X19 on a paused agent that is asked to stop during the first sleep. *)
Lemma pause_wait_polls_witness :
  let w := set_agent (set_flags true false fresh_agent) plain_world in
  let r := @pause_wait _ stop_requested_in_pause 5 w in
  events_of r = [EvSleep 0.2%float] /\ stopped (agent (world_of r)) = true.
Proof.
  intros w r.
  pose proof (pause_wait_polls (B := stop_requested_in_pause) 5 w)
    as (Hev & _ & _ & Hret & _).
  split; [exact Hev|].
  destruct (Hret eq_refl) as [Hp|Hs]; [discriminate Hp|exact Hs].
Defined.

(** X20 on an agent that is done after each step and never valid: the
    first of three turns asks and goes on; the third does not ask. *)
Lemma validation_decides_the_turn_witness :
  let w := set_agent (with_settings validating_settings None fresh_agent) plain_world in
  outcome_of (@run_step _ rejecting_validator 0 3 None None 0 w) = Ret Next /\
  validations (events_of (@run_step _ rejecting_validator 0 3 None None 2 w)) = [].
Proof.
  intros w. split.
  - exact (proj1 (proj2 (proj2 (proj2 (proj2
             (validation_decides_the_turn (B := rejecting_validator) 0 3 None None 0%nat w)))))
             eq_refl).
  - refine (proj1 (proj2
             (validation_decides_the_turn (B := rejecting_validator) 0 3 None None 2%nat w)) _).
    discriminate.
Defined.

(** X21 on two initial actions. *)
Lemma run_prelude_initial_actions_witness :
  let a0 := with_initial_actions [action_model "a"; action_model "b"] fresh_agent in
  let w := set_agent a0 plain_world in
  let r := @run_prelude _ calm w in
  act_calls (events_of r)
  = [SuperCall [action_model "a"] false; DelayCall "ACTION";
     SuperCall [action_model "b"] false] /\
  last_result (agent (world_of r)) = act_results (events_of r).
Proof.
  intros a0 w r.
  pose proof (run_prelude_initial_actions (B := calm) w a0 eq_refl) as H.
  apply post_iff in H. destruct H as [_ H].
  destruct (H eq_refl) as (Hcalls & Hlast & _).
  split; [exact Hcalls|]. apply Hlast. discriminate.
Defined.

(** X24 on a first turn with both hooks. *)
Lemma hooks_bracket_the_turn_witness :
  outline (events_of (@run_step _ calm 0 3 (Some (quiet tt)) (Some (quiet tt)) 0 plain_world))
  = [EvOnStepStart; EvApplyDelay "STEP"; EvApplyDelay "TASK"; EvStep 0 3; EvOnStepEnd].
Proof.
  exact (proj2 (hooks_bracket_the_turn (B := calm) 0 3 (Some (quiet tt)) (Some (quiet tt))
                  0%nat plain_world) eq_refl).
Defined.

(** X25 on a loop of two turns that runs out. *)
Lemma exhaustion_means_all_steps_witness :
  let t := events_of (@run_loop _ calm 0 2 None None (range 2) plain_world) in
  pacing t = [EvApplyDelay "STEP"; EvApplyDelay "TASK"; EvStep 0 2;
              EvApplyDelay "STEP"; EvStep 1 2] /\
  count_steps t = 2%nat.
Proof.
  intros t.
  exact (exhaustion_means_all_steps (B := calm) 0 2 None None plain_world plain_world
           [EvApplyDelay "STEP"; EvApplyDelay "TASK"; EvStep 0 2;
            EvApplyDelay "STEP"; EvStep 1 2] eq_refl).
Defined.

(** X26 on a second agent built while the first one exists: the cache
    of the first is another object, and it is left as it was. *)
Lemma init_allocates_fresh_cache_witness :
  let first := delay_settings_cache plain_world in
  let w := world_of (__init__ fresh_agent demo_environ (heap plain_world)) in
  delay_settings_cache w <> first /\
  deref w first = deref plain_world first.
Proof.
  intros first w.
  pose proof (init_allocates_fresh_cache fresh_agent demo_environ (heap plain_world))
    as (Hnew & Hold & _).
  split.
  - intros Heq. apply Hnew. fold w. rewrite Heq.
    apply (elem_of_dom_2 _ _ (deref plain_world first)). exact eq_refl.
  - exact (Hold first (deref plain_world first) eq_refl).
Defined.
